(** * Retrieval core of the document analyzer (rag_pipeline.py)

    A shallow embedding of [RAGPipeline]: per-document vector collections,
    query expansion, multi-query search with merge and de-duplication,
    reranking, and collection statistics; followed by the two modules that
    feed it on upload, the keyword profiler of [document_profiler.py] and
    the fallback chain of [pdf_extractor.py].

    The libraries the pipeline drives are its environment:
    - the Chroma client is a finite map from collection names to collections,
      threaded through a state-and-exception monad;
    - the embedding model ([SentenceTransformer.encode]), the nearest-neighbour
      search of a collection and the numpy primitives [dot] and [norm] are
      parameters of the development;
    - floats are rationals: a finite float is a dyadic rational, and rounding
      is outside the model; the similarity of [rerank_chunks], the one
      quotient the pipeline computes itself, also has numpy's infinities and
      nan. *)

From Stdlib Require Import Ascii QArith Qabs.
From stdpp Require Import gmap strings list sorting pretty fin_maps.

Close Scope Q_scope.
Open Scope Z_scope.

(** ** Data model *)

(** An embedding vector. *)
Abbreviation vec := (list Q).

(** Values of the open metadata mapping of a chunk. *)
Inductive meta_value :=
  | MInt (z : Z)
  | MStr (s : string).

Abbreviation metadata := (gmap string meta_value).

(** One stored record of a collection. *)
Record item := Item {
  item_id : string;
  item_embedding : vec;
  item_document : string;
  item_metadata : metadata
}.

(** A Chroma collection: its metadata and its records in insertion order. *)
Record collection := Collection {
  coll_metadata : metadata;
  coll_items : list item
}.

(** The persistent client: collections by name. *)
Abbreviation chroma := (gmap string collection).

(** One row of a query answer: [ids], [documents], [metadatas], [distances]. *)
Record hit := Hit {
  hit_id : string;
  hit_document : string;
  hit_metadata : metadata;
  hit_distance : Q
}.

(** A numpy float: a rational, an infinity, or nan. Rounding is outside the
    model. *)
Inductive pyfloat := Finite (q : Q) | PosInf | NegInf | NaN.

Global Instance Qlt_dec : RelDecision Qlt.
Proof. intros x y. unfold Qlt. apply _. Defined.

Global Instance Qeq_decision : RelDecision Qeq.
Proof. intros x y. unfold Qeq. apply _. Defined.

(** [a < b] on floats: every comparison with nan is false. *)
Definition float_lt (a b : pyfloat) : bool :=
  match a, b with
  | NaN, _ | _, NaN => false
  | _, NegInf => false
  | NegInf, _ => true
  | PosInf, _ => false
  | Finite _, PosInf => true
  | Finite x, Finite y => bool_decide (x < y)%Q
  end.

(** [a <= b] for floats that are numbers. *)
Definition float_le (a b : pyfloat) : Prop :=
  match a, b with
  | NaN, _ | _, NaN => False
  | NegInf, _ => True
  | _, PosInf => True
  | Finite x, Finite y => (x <= y)%Q
  | _, _ => False
  end.

(** [x / y] on numpy floats with finite operands: a zero divisor gives an
    infinity, or nan for [0 / 0], with a warning and no exception. *)
Definition float_div (x y : Q) : pyfloat :=
  if decide (y == 0)%Q then
    if decide (x == 0)%Q then NaN
    else if decide (0 < x)%Q then PosInf else NegInf
  else Finite (x / y).

(** The dictionaries [hybrid_search] builds; [rerank_chunks] later sets the
    key ['similarity'] on them. *)
Record result := Result {
  id : string;
  text : string;
  res_metadata : metadata;
  distance : Q;
  query_variation : nat;
  similarity : option pyfloat
}.

Definition set_similarity (s : pyfloat) (r : result) : result :=
  Result (id r) (text r) (res_metadata r) (distance r) (query_variation r) (Some s).

(** The dictionary [get_collection_stats] returns. *)
Record stats := Stats {
  collection_name : string;
  chunk_count : nat;
  exists_ : bool;
  error : option string
}.

(** Exceptions. *)
Inductive exn :=
  | CollectionNotFound (name : string)
  | CollectionExists (name : string)
  | DuplicateID (i : string)
  | LengthMismatch
  | SearchError
  | EncodeError
  | IndexError.

Definition str_exn (e : exn) : string :=
  match e with
  | CollectionNotFound n => "Collection " +:+ n +:+ " does not exist."
  | CollectionExists n => "Collection " +:+ n +:+ " already exists"
  | DuplicateID i => "Expected IDs to be unique, found duplicates of: " +:+ i
  | LengthMismatch => "Unequal lengths for fields"
  | SearchError => "query failed"
  | EncodeError => "encode failed"
  | IndexError => "list index out of range"
  end.

(** ** State and exceptions *)

Definition M (A : Type) : Type := chroma → chroma * (exn + A).

Global Instance M_ret : MRet M := λ A x st, (st, inr x).
Global Instance M_bind : MBind M := λ A B f m st,
  match m st with
  | (st', inl e) => (st', inl e)
  | (st', inr x) => f x st'
  end.

Definition raise {A} (e : exn) : M A := λ st, (st, inl e).

(** [try: m except Exception as e: h e] *)
Definition try_except {A} (m : M A) (h : exn → M A) : M A := λ st,
  match m st with
  | (st', inl e) => h e st'
  | (st', inr x) => (st', inr x)
  end.

(** ** Python helpers *)

(** [l[:k]] for a Python integer [k]. *)
Definition py_prefix {A} (k : Z) (l : list A) : list A :=
  if decide (0 ≤ k) then take (Z.to_nat k) l
  else take (length l - Z.to_nat (- k))%nat l.

Global Instance Qle_dec : RelDecision Qle.
Proof. intros x y. unfold Qle. apply _. Defined.

Global Instance Qle_total : Total Qle.
Proof. intros x y. destruct (Qlt_le_dec x y); [left; by apply Qlt_le_weak | by right]. Qed.

Global Instance Qle_trans' : Transitive Qle.
Proof. intros x y z. apply Qle_trans. Qed.

(** [sorted(l, key=...)] is stable: items with equal keys keep their order.
    For keys that are numbers this settles the result, which is built here
    by insertion: [R x y] reads "[x] may come before [y]", and insertion
    from the right puts an item in front of its equals. *)
Fixpoint insert_by {A} (R : relation A) `{!RelDecision R} (x : A) (l : list A) : list A :=
  match l with
  | [] => [x]
  | y :: l' => if decide (R x y) then x :: l else y :: insert_by R x l'
  end.

Definition sorted_by {A} (R : relation A) `{!RelDecision R} (l : list A) : list A :=
  foldr (insert_by R) [] l.

(** [list.sort(key=, reverse=)] as CPython 3.11 sorts a list of fewer than 64
    items: the run at the head of the list is found ([count_run]), reversed
    when it descends strictly, and the other items are inserted into it one
    by one at the place a binary search gives ([binarysort]). Only [<] on the
    keys is used. Longer lists are cut into such runs and merged, which gives
    the same list whenever [<] orders the keys. *)
Section list_sort.
Context {A K : Type} (key : A → K) (lt : K → K → bool).

Fixpoint run_length (descending : bool) (previous : A) (l : list A) : nat :=
  match l with
  | [] => 0
  | x :: l' =>
    if Bool.eqb (lt (key x) (key previous)) descending
    then S (run_length descending x l') else 0
  end.

(** The length of the run at the head, and whether it descends. *)
Definition count_run (l : list A) : nat * bool :=
  match l with
  | [] => (0%nat, false)
  | x :: l' =>
    match l' with
    | [] => (1%nat, false)
    | y :: _ =>
      let descending := lt (key y) (key x) in
      (S (run_length descending x l'), descending)
    end
  end.

(** The binary search of [binarysort] between [l] and [r] in the sorted
    items [s]; the interval shrinks at every step, so [r - l] steps are
    enough. *)
Fixpoint bisect (steps : nat) (pivot : A) (s : list A) (l r : nat) : nat :=
  match steps with
  | O => l
  | S steps' =>
    if (l <? r)%nat then
      let p := (l + (r - l) / 2)%nat in
      match s !! p with
      | Some x =>
        if lt (key pivot) (key x) then bisect steps' pivot s l p
        else bisect steps' pivot s (S p) r
      | None => l
      end
    else l
  end.

Definition binary_insert (s : list A) (pivot : A) : list A :=
  let l := bisect (length s) pivot s 0 (length s) in
  take l s ++ pivot :: drop l s.

Definition binarysort (run rest : list A) : list A :=
  foldl binary_insert run rest.

Definition list_sort_ascending (l : list A) : list A :=
  let '(n, descending) := count_run l in
  let run := take n l in
  binarysort (if descending then reverse run else run) (drop n l).

Definition list_sort (reverse_order : bool) (l : list A) : list A :=
  if reverse_order then reverse (list_sort_ascending (reverse l))
  else list_sort_ascending l.

End list_sort.

(** ** Query expansion *)

Definition expand_query (query : string) : list string :=
  let expansions := [
    query;
    "What is " +:+ query +:+ "?";
    "Explain " +:+ query;
    "Information about " +:+ query;
    "Details regarding " +:+ query;
    "Can you tell me about " +:+ query +:+ "?"
  ] in
  py_prefix 6 expansions.

(** ** The Chroma client *)

(** A [Collection] object is a handle on the client's collection of that
    name. *)
Definition get_collection (name : string) : M string := λ st,
  match st !! name with
  | Some _ => (st, inr name)
  | None => (st, inl (CollectionNotFound name))
  end.

Definition create_collection (name : string) (md : metadata) : M string := λ st,
  match st !! name with
  | Some _ => (st, inl (CollectionExists name))
  | None => (<[name := Collection md []]> st, inr name)
  end.

Definition collection_count (collection : string) : M nat := λ st,
  match st !! collection with
  | Some c => (st, inr (length (coll_items c)))
  | None => (st, inl (CollectionNotFound collection))
  end.

Definition make_items (ids : list string) (embeddings : list vec)
    (documents : list string) (metadatas : list metadata) : list item :=
  zip_with (λ ie dm, Item ie.1 ie.2 dm.1 dm.2) (zip ids embeddings) (zip documents metadatas).

Definition stored_ids (c : collection) : list string := item_id <$> coll_items c.

(** What [Collection.add] does with a record whose id the collection already
    holds: current clients ignore the record, older ones raise. *)
Inductive on_clash := ClashIgnored | ClashRaises.

(** [collection.add(ids=, embeddings=, documents=, metadatas=)]: the fields
    have equal lengths and the ids of one call are distinct, or the call
    raises; a collection never holds two records under one id. *)
Definition collection_add (clash : on_clash) (collection : string)
    (ids : list string) (embeddings : list vec)
    (documents : list string) (metadatas : list metadata) : M () := λ st,
  match st !! collection with
  | None => (st, inl (CollectionNotFound collection))
  | Some c =>
    if negb (bool_decide (length embeddings = length ids ∧
                          length documents = length ids ∧
                          length metadatas = length ids))
    then (st, inl LengthMismatch)
    else if negb (bool_decide (NoDup ids))
    then (st, inl (DuplicateID (default "" (head ids))))
    else
      let new := make_items ids embeddings documents metadatas in
      let fresh := filter (λ it, item_id it ∉ stored_ids c) new in
      match clash, filter (λ it, item_id it ∈ stored_ids c) new with
      | ClashRaises, it :: _ => (st, inl (DuplicateID (item_id it)))
      | _, _ =>
        (<[collection := Collection (coll_metadata c) (coll_items c ++ fresh)]> st, inr ())
      end
  end.

(** Try/except with a continuation for the protected value: the handler's
    value is the value of the whole block ([return] inside [except]). *)
Definition try_else {A B} (m : M A) (h : exn → M B) (k : A → M B) : M B := λ st,
  match m st with
  | (st', inl e) => h e st'
  | (st', inr x) => k x st'
  end.

Definition make_result (i : nat) (h : hit) : result :=
  Result (hit_id h) (hit_document h) (hit_metadata h) (hit_distance h) i None.

(** The key of [sorted(all_results, key=lambda x: x['distance'])]. *)
Definition by_distance : relation result := λ x y, (distance x <= distance y)%Q.

Global Instance by_distance_dec : RelDecision by_distance.
Proof. intros x y. unfold by_distance. apply _. Defined.

(** The de-duplication loop of [hybrid_search], over the sorted list. *)
Fixpoint unique_top_k (top_k : Z) (seen_ids : gset string)
    (unique_results : list result) (rs : list result) : list result :=
  match rs with
  | [] => unique_results
  | r :: rs' =>
    if decide (id r ∈ seen_ids) then unique_top_k top_k seen_ids unique_results rs'
    else
      let unique_results' := unique_results ++ [r] in
      if decide (top_k ≤ Z.of_nat (length unique_results')) then unique_results'
      else unique_top_k top_k ({[id r]} ∪ seen_ids) unique_results' rs'
  end.

Definition doc_collection_name (doc_id : Z) : string := "doc_" +:+ pretty doc_id.

(** [[f"chunk_{i}" for i in range(n)]] *)
Definition chunk_ids (n : nat) : list string :=
  (λ i : nat, "chunk_" +:+ pretty i) <$> seq 0 n.

Section Pipeline.
(** [RecursiveCharacterTextSplitter.split_text], as configured. *)
Context (split_text : string → list string).
(** [SentenceTransformer.encode]; [None] when it raises. *)
Context (encode : list string → option (list vec)).
(** Nearest-neighbour search over the records of a collection
    ([Collection.query] with one query embedding); [None] when it raises. *)
Context (knn_query : list item → vec → Z → option (list hit)).
Context (clash : on_clash).
(** [numpy.dot] and [numpy.linalg.norm]. *)
Context (dot : vec → vec → Q) (norm : vec → Q).

Definition collection_query (collection : string) (query_embedding : vec)
    (n_results : Z) : M (list hit) := λ st,
  match st !! collection with
  | None => (st, inl (CollectionNotFound collection))
  | Some c =>
    match knn_query (coll_items c) query_embedding n_results with
    | Some hits => (st, inr hits)
    | None => (st, inl SearchError)
    end
  end.

Definition create_embeddings (texts : list string) : M (list vec) :=
  match encode texts with
  | Some embeddings => mret embeddings
  | None => raise EncodeError
  end.

Definition chunk_document (text : string) : list string := split_text text.

Definition store_document (doc_id : Z) (text : string) (md : option metadata)
    : M string :=
  let collection_name := doc_collection_name doc_id in
  collection ← try_except (get_collection collection_name)
    (λ _, create_collection collection_name {[ "doc_id" := MStr (pretty doc_id) ]});
  let chunks := chunk_document text in
  match chunks with
  | [] => mret collection_name
  | _ =>
    embeddings ← create_embeddings chunks;
    let ids := chunk_ids (length chunks) in
    let metadatas :=
      (λ i : nat, default ∅ md ∪
          {[ "chunk_index" := MInt (Z.of_nat i); "doc_id" := MStr (pretty doc_id) ]})
      <$> seq 0 (length chunks) in
    collection_add clash collection ids embeddings chunks metadatas;;
    mret collection_name
  end.

(** The loop over [enumerate(query_embeddings)]: a failing query is logged
    and the loop continues. *)
Fixpoint search_variations (collection : string) (n_results : Z) (i : nat)
    (query_embeddings : list vec) (all_results : list result) : M (list result) :=
  match query_embeddings with
  | [] => mret all_results
  | query_embedding :: rest =>
    all_results' ← try_except
      (hits ← collection_query collection query_embedding n_results;
       mret (all_results ++ (make_result i <$> hits)))
      (λ _, mret all_results);
    search_variations collection n_results (S i) rest all_results'
  end.

Definition hybrid_search (doc_id : Z) (query : string) (top_k : Z)
    : M (list result) :=
  let collection_name := doc_collection_name doc_id in
  try_else (get_collection collection_name) (λ _, mret []) (λ collection,
    let query_variations := expand_query query in
    query_embeddings ← create_embeddings query_variations;
    all_results ← search_variations collection (Z.min top_k 10) 0 query_embeddings [];
    mret (unique_top_k top_k ∅ [] (sorted_by by_distance all_results))).

Definition cosine_similarity (query_embedding chunk_emb : vec) : pyfloat :=
  float_div (dot query_embedding chunk_emb)
            (norm query_embedding * norm chunk_emb)%Q.

(** The scoring loop of [rerank_chunks]: [chunks[i]['similarity'] = ...]
    raises when [i] is out of range. *)
Fixpoint score_chunks (query_embedding : vec) (i : nat)
    (chunk_embeddings : list vec) (chunks : list result)
    (similarities : list (nat * pyfloat))
    : exn + (list result * list (nat * pyfloat)) :=
  match chunk_embeddings with
  | [] => inr (chunks, similarities)
  | chunk_emb :: rest =>
    let s := cosine_similarity query_embedding chunk_emb in
    match chunks !! i with
    | None => inl IndexError
    | Some c =>
      score_chunks query_embedding (S i) rest
        (<[i := set_similarity s c]> chunks) (similarities ++ [(i, s)])
    end
  end.

Definition rerank_chunks (query : string) (chunks : list result) (top_k : Z)
    : M (list result) :=
  match chunks with
  | [] => mret []
  | _ =>
    match encode [query] with
    | None => raise EncodeError
    | Some [] => raise IndexError
    | Some (query_embedding :: _) =>
      let chunk_texts := text <$> chunks in
      match encode chunk_texts with
      | None => raise EncodeError
      | Some chunk_embeddings =>
        match score_chunks query_embedding 0 chunk_embeddings chunks [] with
        | inl e => raise e
        | inr (chunks', similarities) =>
          let ranked := list_sort snd float_lt true similarities in
          match mapM (λ p : nat * pyfloat, chunks' !! p.1) (py_prefix top_k ranked) with
          | Some reranked => mret reranked
          | None => raise IndexError
          end
        end
      end
    end
  end.

Definition retrieve_context (doc_id : Z) (query : string) (intent : string)
    : M (list result) :=
  chunks ← hybrid_search doc_id query 20;
  match chunks with
  | [] => mret []
  | _ =>
    if decide (intent = "document") then rerank_chunks query chunks 5
    else if decide (intent = "section") then rerank_chunks query chunks 3
    else rerank_chunks query chunks 3
  end.

Definition get_collection_stats (doc_id : Z) : M stats :=
  let collection_name := doc_collection_name doc_id in
  try_except
    (collection ← get_collection collection_name;
     count ← collection_count collection;
     mret (Stats collection_name count true None))
    (λ e, mret (Stats collection_name 0 false (Some (str_exn e)))).

End Pipeline.

(** ** The chunker

    [RAGPipeline.__init__] configures a [RecursiveCharacterTextSplitter] and
    [chunk_document] forwards to it; the splitter is library code. The
    definitions of this part build the model [split_text] of it, which closes
    the part. Texts are lists of characters here. *)

(** Python's [str.isspace] on the ASCII range. *)
Definition is_space (a : ascii) : bool :=
  let n := nat_of_ascii a in
  ((9 <=? n)%nat && (n <=? 13)%nat) || ((28 <=? n)%nat && (n <=? 32)%nat).

Fixpoint lstrip (s : list ascii) : list ascii :=
  match s with
  | [] => []
  | a :: s' => if is_space a then lstrip s' else s
  end.

(** [s.strip()] *)
Definition strip (s : list ascii) : list ascii :=
  reverse (lstrip (reverse (lstrip s))).

(** Whether [sep] occurs in [text]. *)
Fixpoint occurs (sep text : list ascii) : bool :=
  if decide (sep `prefix_of` text) then true
  else match text with
       | [] => false
       | _ :: text' => occurs sep text'
       end.

(** Cutting [text] at the occurrences of a non-empty separator, left to
    right; every segment but the first starts with the separator that
    precedes it, so the segments concatenate to [text]. [skip] counts the
    characters of a matched separator still to be passed over. *)
Fixpoint split_go (sep : list ascii) (skip : nat) (cur text : list ascii)
    : list (list ascii) :=
  match text with
  | [] => [cur]
  | a :: text' =>
    match skip with
    | S skip' => split_go sep skip' cur text'
    | O =>
      if decide (sep `prefix_of` text)
      then cur :: split_go sep (length sep - 1) sep text'
      else split_go sep 0 (cur ++ [a]) text'
    end
  end.

(** The non-empty segments; the empty separator cuts between any two
    characters. *)
Definition split_keep (sep text : list ascii) : list (list ascii) :=
  filter (λ s, s ≠ [])
    (match sep with
     | [] => (λ a, [a]) <$> text
     | _ => split_go sep 0 [] text
     end).

Section Chunker.
Context (chunk_size chunk_overlap : nat).

Definition total_length (docs : list (list ascii)) : nat := length (concat docs).

(** A candidate chunk is emitted trimmed, and dropped when blank. *)
Definition join_docs (docs : list (list ascii)) : list (list ascii) :=
  match strip (concat docs) with
  | [] => []
  | chunk => [chunk]
  end.

(** After a chunk is emitted, leading segments are dropped from the
    candidate until at most [chunk_overlap] characters are left and the
    next segment of [len] characters fits. *)
Fixpoint pop_overlap (len : nat) (current_doc : list (list ascii))
    : list (list ascii) :=
  match current_doc with
  | [] => []
  | _ :: current_doc' =>
    if (chunk_overlap <? total_length current_doc)%nat
       || ((chunk_size <? total_length current_doc + len)%nat && (0 <? total_length current_doc)%nat)
    then pop_overlap len current_doc'
    else current_doc
  end.

(** Greedy accumulation of segments into chunks of at most [chunk_size]
    characters. *)
Fixpoint merge_splits (current_doc : list (list ascii))
    (splits : list (list ascii)) : list (list ascii) :=
  match splits with
  | [] => join_docs current_doc
  | d :: splits' =>
    if (chunk_size <? total_length current_doc + length d)%nat
    then
      match current_doc with
      | [] => merge_splits [d] splits'
      | _ =>
        join_docs current_doc
        ++ merge_splits (pop_overlap (length d) current_doc ++ [d]) splits'
      end
    else merge_splits (current_doc ++ [d]) splits'
  end.

(** The segments of one cascade level: the short ones are merged, a long
    one is handed to the next separator ([retry]) or, when there is none
    left, emitted whole. *)
Fixpoint collect_splits (retry : option (list ascii → list (list ascii)))
    (good_splits : list (list ascii)) (splits : list (list ascii))
    : list (list ascii) :=
  match splits with
  | [] => merge_splits [] good_splits
  | s :: splits' =>
    if (length s <? chunk_size)%nat
    then collect_splits retry (good_splits ++ [s]) splits'
    else
      merge_splits [] good_splits
      ++ match retry with
         | None => [s]
         | Some next => next s
         end
      ++ collect_splits retry [] splits'
  end.

(** The cascade: the first separator that occurs in the text (the empty
    separator always does) cuts it; when none occurs the last one is used
    and nothing is left to retry with. *)
Fixpoint split_text_rec (separators : list (list ascii)) (text : list ascii)
    : list (list ascii) :=
  match separators with
  | [] => []
  | [separator] => collect_splits None [] (split_keep separator text)
  | separator :: new_separators =>
    if decide (separator = []) then
      collect_splits None [] (split_keep separator text)
    else if occurs separator text then
      collect_splits (Some (split_text_rec new_separators)) []
        (split_keep separator text)
    else split_text_rec new_separators text
  end.
End Chunker.

Definition separators : list (list ascii) :=
  String.list_ascii_of_string <$>
    [String "010" (String "010" ""); String "010" ""; ". "; " "; ""]%string.

(** Modelled from the spec: the splitter itself, the [split_text] method of the
    [RecursiveCharacterTextSplitter] that [RAGPipeline.__init__] configures
    with [chunk_size=1000], [chunk_overlap=200] and the separators paragraph
    break, line break, full stop and space, space, and the empty string, is
    library code absent from the sources. It is modelled after section 4.1:
    a priority-ordered separator cascade, greedy joining of the segments up
    to the size, a restart from the trailing segments worth up to the
    overlap, a recursive retry of an oversized segment with the next
    separator, chunks trimmed and blank ones dropped. *)
Definition split_text (text : string) : list string :=
  String.string_of_list_ascii <$> split_text_rec 1000 200 separators (String.list_ascii_of_string text).

(** ** A concrete environment *)

(** The squared Euclidean distance, the default metric of a collection. *)
Definition l2_distance (a b : vec) : Q :=
  foldr Qplus 0%Q (zip_with (λ x y, (x - y) * (x - y))%Q a b).

Definition item_hit (q : vec) (it : item) : hit :=
  Hit (item_id it) (item_document it) (item_metadata it)
      (l2_distance q (item_embedding it)).

Definition by_hit_distance : relation hit :=
  λ x y, (hit_distance x <= hit_distance y)%Q.

Global Instance by_hit_distance_dec : RelDecision by_hit_distance.
Proof. intros x y. unfold by_hit_distance. apply _. Defined.

(** Exact nearest-neighbour search; the client rejects a number of results
    that is not positive. *)
Definition exact_query (items : list item) (q : vec) (n : Z) : option (list hit) :=
  if decide (n ≤ 0) then None
  else Some (take (Z.to_nat n) (sorted_by by_hit_distance (item_hit q <$> items))).

(** A search that fails for query embeddings whose first coordinate exceeds
    [bound]. *)
Definition bounded_query (bound : Q) (items : list item) (q : vec) (n : Z)
    : option (list hit) :=
  match q with
  | x :: _ => if decide (x <= bound)%Q then exact_query items q n else None
  | [] => None
  end.

(** A two-dimensional embedding: the length of the text and its number of
    spaces. *)
Definition count_vec (t : string) : vec :=
  let cs := String.list_ascii_of_string t in
  [inject_Z (Z.of_nat (length cs));
   inject_Z (Z.of_nat (length (filter (λ a, a = " "%char) cs)))].

Definition count_encode (texts : list string) : option (list vec) :=
  Some (count_vec <$> texts).

(** A model that cannot be reached. *)
Definition no_encode (texts : list string) : option (list vec) := None.

Definition dot_product (a b : vec) : Q := foldr Qplus 0%Q (zip_with Qmult a b).

(** The sum of the absolute values: a norm with rational values. *)
Definition l1_norm (a : vec) : Q := foldr Qplus 0%Q (Qabs <$> a).

(** The Euclidean norm of [numpy.linalg.norm] where it is rational; the
    square root is rounded down to a quotient of integers otherwise. *)
Definition euclidean_norm (a : vec) : Q :=
  let s := Qred (foldr Qplus 0%Q ((λ x, x * x)%Q <$> a)) in
  Z.sqrt (Qnum s) # Pos.sqrt (Qden s).

(** A client holding the collection of document 1 with two records. *)
Definition demo_store : chroma :=
  {[ "doc_1" := Collection {[ "doc_id" := MStr "1" ]}
       [ Item "chunk_0" [5%Q; 0%Q] "alpha" ∅;
         Item "chunk_1" [10%Q; 1%Q] "beta gamma" ∅ ] ]}.

(** Two candidates as [hybrid_search] builds them. *)
Definition demo_chunks : list result :=
  [ Result "chunk_0" "alpha" ∅ 0%Q 0 None;
    Result "chunk_1" "beta gamma" ∅ 26%Q 0 None ].

(** Three candidates whose embeddings under [count_vec], [5, 0], [8, 6] and
    [12, 5], have the Euclidean norms 5, 10 and 13. *)
Definition ranked_candidates : list result :=
  [ Result "chunk_0" "alpha" ∅ 0%Q 0 None;
    Result "chunk_1" "a      b" ∅ 1%Q 0 None;
    Result "chunk_2" "a b c d e fg" ∅ 2%Q 0 None ].


(** What the six variants of the query "alpha" retrieve from [demo_store]. *)
Definition demo_results : list result :=
  [ Result "chunk_0" "alpha" ∅ 0%Q 0 None;
    Result "chunk_1" "beta gamma" ∅ 9%Q 2 None ].

(** The spec-side reading of the search loop: what the variants return, each
    row tagged with the index of its variant, failed variants contributing
    nothing. *)
Fixpoint variant_results (knn_query : list item → vec → Z → option (list hit))
    (items : list item) (n_results : Z) (i : nat) (query_embeddings : list vec)
    : list result :=
  match query_embeddings with
  | [] => []
  | e :: rest =>
    match knn_query items e n_results with
    | Some hits => make_result i <$> hits
    | None => []
    end ++ variant_results knn_query items n_results (S i) rest
  end.

(** Variant [i] of the query returned the row [h]: its search succeeded and
    [h] is among its rows. *)
Definition returned_by (knn_query : list item → vec → Z → option (list hit))
    (c : collection) (query_embeddings : list vec) (n_results : Z)
    (i : nat) (h : hit) : Prop :=
  ∃ e hits, query_embeddings !! i = Some e
    ∧ knn_query (coll_items c) e n_results = Some hits ∧ h ∈ hits.

(** Non-increasing order of the key ['similarity'] that [rerank_chunks]
    sets. *)
Definition similarity_desc : relation result := λ x y,
  match similarity x, similarity y with
  | Some a, Some b => float_le b a
  | _, _ => False
  end.

(** Empty or made of white space only. *)
Definition blank (s : list ascii) : Prop := Forall (λ a, is_space a = true) s.

Definition whitespace_only (text : string) : Prop :=
  blank (String.list_ascii_of_string text).

(** ** Further definitions for the pipeline *)

(** The metadata [upload_document] passes to [store_document] (app.py). *)
Definition upload_metadata (filename document_type user_id : string) : metadata :=
  {[ "filename" := MStr filename;
     "document_type" := MStr document_type;
     "user_id" := MStr user_id ]}.

(** The metadata [store_document] builds for chunk [i] before the caller's
    entries are laid over it. *)
Definition chunk_metadata (doc_id : Z) (i : nat) : metadata :=
  {[ "chunk_index" := MInt (Z.of_nat i); "doc_id" := MStr (pretty doc_id) ]}.

Global Instance result_inhabited : Inhabited result :=
  populate (Result "" "" ∅ 0%Q 0 None).

(** The candidates of [rerank_chunks], each with its cosine similarity to
    the query embedding [qe]. *)
Definition scored_chunks (dot : vec → vec → Q) (norm : vec → Q) (qe : vec)
    (chunks : list result) (cembs : list vec) : list result :=
  zip_with (λ c ce, set_similarity (cosine_similarity dot norm qe ce) c) chunks cembs.

(** ** The document profiler (document_profiler.py)

    Texts are ASCII here: [lower], [title], [strip] and the character
    classes of the year pattern are those of Python on the ASCII range, and
    a text with other characters is outside the model. The confidence is a
    rational, with [0.3] read as [3/10]. *)

Abbreviation chars := String.list_ascii_of_string.

(** A text of ASCII characters: on these the string operations below are
    Python's. *)
Definition ascii_text (s : string) : Prop :=
  Forall (λ a, (nat_of_ascii a < 128)%nat) (chars s).

(** [sub in s] *)
Definition contains (sub s : string) : bool := occurs (chars sub) (chars s).

Definition is_upper (a : ascii) : bool :=
  let n := nat_of_ascii a in (65 <=? n)%nat && (n <=? 90)%nat.

Definition is_lower (a : ascii) : bool :=
  let n := nat_of_ascii a in (97 <=? n)%nat && (n <=? 122)%nat.

Definition is_digit (a : ascii) : bool :=
  let n := nat_of_ascii a in (48 <=? n)%nat && (n <=? 57)%nat.

Definition lower_char (a : ascii) : ascii :=
  if is_upper a then ascii_of_nat (nat_of_ascii a + 32) else a.

Definition upper_char (a : ascii) : ascii :=
  if is_lower a then ascii_of_nat (nat_of_ascii a - 32) else a.

(** [s.lower()] on an ASCII text: the letters A to Z are replaced. Python's
    [lower] also maps letters outside ASCII, some of them to more than one
    character; the model leaves such characters as they are. *)
Definition lower (s : string) : string :=
  String.string_of_list_ascii (lower_char <$> chars s).

(** [s.title()]: a letter is put in upper case after a character that is
    not a letter and in lower case after a letter. *)
Fixpoint title_go (previous_is_cased : bool) (s : list ascii) : list ascii :=
  match s with
  | [] => []
  | a :: s' =>
    (if previous_is_cased then lower_char a else upper_char a)
    :: title_go (is_upper a || is_lower a) s'
  end.

Definition title (s : string) : string :=
  String.string_of_list_ascii (title_go false (chars s)).

(** [s.replace(a, b)] for single characters. *)
Definition replace_char (a b : ascii) (s : string) : string :=
  String.string_of_list_ascii ((λ c, if decide (c = a) then b else c) <$> chars s).

(** [sep.join(l)] *)
Fixpoint join (sep : string) (l : list string) : string :=
  match l with
  | [] => ""
  | [x] => x
  | x :: l' => x +:+ sep +:+ join sep l'
  end.

(** [len(s.strip())] *)
Definition stripped_length (s : string) : nat := length (strip (chars s)).

Definition DOCUMENT_TYPES : list (string * list string) :=
  [ ("annual_report",
     [ "annual report"; "fiscal year"; "financial statements"; "balance sheet";
       "income statement"; "cash flow"; "shareholders"; "revenue"; "earnings";
       "consolidated"; "fiscal"; "quarterly" ]);
    ("audit_report",
     [ "audit"; "auditor"; "opinion"; "assurance"; "compliance";
       "internal controls"; "material misstatement"; "audit opinion";
       "independent auditor"; "examination" ]);
    ("legal_document",
     [ "contract"; "agreement"; "legal"; "terms and conditions"; "whereas";
       "party"; "parties"; "jurisdiction"; "liability"; "indemnity"; "covenant";
       "hereby"; "herein"; "clause" ]);
    ("financial_statement",
     [ "balance sheet"; "income statement"; "cash flow statement"; "assets";
       "liabilities"; "equity"; "revenue"; "expenses"; "profit"; "loss" ]);
    ("sales_report",
     [ "sales"; "revenue"; "units sold"; "market share"; "customer";
       "product performance"; "sales target"; "quarter"; "growth" ]) ]%string.

Definition SECTION_KEYWORDS : list (string * list string) :=
  [ ("introduction", [ "introduction"; "overview"; "executive summary"; "summary" ]);
    ("financial", [ "financial"; "revenue"; "profit"; "loss"; "assets"; "liabilities" ]);
    ("risk", [ "risk"; "risks"; "risk factors"; "uncertainties"; "challenges" ]);
    ("operations", [ "operations"; "business operations"; "operational" ]);
    ("management", [ "management"; "board of directors"; "governance" ]);
    ("legal", [ "legal"; "compliance"; "regulatory"; "litigation" ]);
    ("conclusion", [ "conclusion"; "summary"; "outlook"; "future" ]) ]%string.

(** The dictionary [profile_document] returns. *)
Record profile := Profile {
  document_type : string;
  confidence : Q;
  themes : list string;
  purpose : string;
  scope : string;
  key_sections : list string;
  summary : string;
  filename : string
}.

(** [sum(1 for keyword in keywords if keyword in text)] *)
Definition keyword_score (keywords : list string) (text : string) : nat :=
  length (filter (λ keyword, contains keyword text = true) keywords).

(** [any(word in text for word in words)] *)
Definition any_in (words : list string) (text : string) : bool :=
  existsb (λ word, contains word text) words.

(** [max(l, key=...)] on a non-empty list: the first item with the largest
    key. *)
Fixpoint max_first {A} (key : A → nat) (best : A) (l : list A) : A :=
  match l with
  | [] => best
  | x :: l' => if (key best <? key x)%nat then max_first key x l' else max_first key best l'
  end.

(** [d[k]] on a table with the default of a missing key made explicit. *)
Fixpoint table_get {A} (d : list (string * A)) (k : string) : option A :=
  match d with
  | [] => None
  | (k', v) :: d' => if decide (k' = k) then Some v else table_get d' k
  end.

Definition _identify_document_type (text : string) : string * Q :=
  let scores := (λ entry : string * list string,
                   (entry.1, keyword_score entry.2 text)) <$> DOCUMENT_TYPES in
  match scores with
  | [] => ("general_document", 1 # 2)%Q
  | s0 :: rest =>
    if (max_list (snd <$> scores) =? 0)%nat then ("general_document", 1 # 2)%Q
    else
      let best := max_first snd s0 rest in
      let best_type := best.1 in
      let max_score := best.2 in
      let total_keywords := length (default [] (table_get DOCUMENT_TYPES best_type)) in
      let ratio :=
        (inject_Z (Z.of_nat max_score)
         / (inject_Z (Z.of_nat total_keywords) * (3 # 10)))%Q in
      let confidence := if decide (1 <= ratio)%Q then 1%Q else ratio in
      (best_type, confidence)
  end.

Definition theme_rules : list (list string * string) :=
  [ ([ "revenue"; "profit"; "financial"; "earnings" ], "Financial Performance");
    ([ "risk"; "uncertainty"; "challenge"; "threat" ], "Risk Management");
    ([ "growth"; "expansion"; "increase"; "development" ], "Business Growth");
    ([ "compliance"; "regulatory"; "legal"; "audit" ], "Compliance & Regulation");
    ([ "operations"; "operational"; "efficiency"; "process" ], "Operations");
    ([ "strategy"; "strategic"; "vision"; "mission" ], "Strategic Planning") ]%string.

Definition _extract_themes (text : string) : list string :=
  let themes := [] in
  let themes :=
    if any_in [ "revenue"; "profit"; "financial"; "earnings" ] text
    then themes ++ [ "Financial Performance" ] else themes in
  let themes :=
    if any_in [ "risk"; "uncertainty"; "challenge"; "threat" ] text
    then themes ++ [ "Risk Management" ] else themes in
  let themes :=
    if any_in [ "growth"; "expansion"; "increase"; "development" ] text
    then themes ++ [ "Business Growth" ] else themes in
  let themes :=
    if any_in [ "compliance"; "regulatory"; "legal"; "audit" ] text
    then themes ++ [ "Compliance & Regulation" ] else themes in
  let themes :=
    if any_in [ "operations"; "operational"; "efficiency"; "process" ] text
    then themes ++ [ "Operations" ] else themes in
  let themes :=
    if any_in [ "strategy"; "strategic"; "vision"; "mission" ] text
    then themes ++ [ "Strategic Planning" ] else themes in
  py_prefix 5 themes.

Definition _identify_sections (text : string) : list string :=
  foldl (λ sections (entry : string * list string),
           if any_in entry.2 text then sections ++ [ title entry.1 ] else sections)
        [] SECTION_KEYWORDS.

Definition purpose_map : list (string * string) :=
  [ ("annual_report",
     "To provide stakeholders with a comprehensive overview of the company's financial performance and operations for the fiscal year.");
    ("audit_report",
     "To provide an independent assessment of the accuracy and compliance of financial statements.");
    ("legal_document",
     "To establish legal terms, conditions, and obligations between parties.");
    ("financial_statement",
     "To present the financial position and performance of the organization.");
    ("sales_report",
     "To analyze sales performance, trends, and market dynamics.");
    ("general_document",
     "To provide information and analysis on business-related topics.") ]%string.

Definition _infer_purpose (doc_type : string) (themes : list string) : string :=
  default (default "" (table_get purpose_map "general_document"))
          (table_get purpose_map doc_type).

(** A word character of the pattern: a letter, a digit or the underscore. *)
Definition is_word (a : ascii) : bool :=
  is_upper a || is_lower a || is_digit a || bool_decide (a = "_"%char).

(** Whether [text] starts with [20dd] or [19dd] followed by a word
    boundary. *)
Definition year_here (text : list ascii) : bool :=
  match text with
  | d1 :: d2 :: d3 :: d4 :: rest =>
    (bool_decide (d1 = "2"%char ∧ d2 = "0"%char)
     || bool_decide (d1 = "1"%char ∧ d2 = "9"%char))
    && is_digit d3 && is_digit d4
    && match rest with
       | [] => true
       | b :: _ => negb (is_word b)
       end
  | _ => false
  end.

(** [re.findall(r'\b(20\d{2}|19\d{2})\b', text)]: the matches from left to
    right, without overlap. [previous_is_word] tells whether the character
    before the position is a word character, [skip] counts the characters of
    a match still to be passed over. *)
Fixpoint find_years (previous_is_word : bool) (skip : nat) (text : list ascii)
    : list string :=
  match text with
  | [] => []
  | a :: text' =>
    match skip with
    | S skip' => find_years (is_word a) skip' text'
    | O =>
      if negb previous_is_word && year_here text
      then String.string_of_list_ascii (take 4 text) :: find_years (is_word a) 3 text'
      else find_years (is_word a) 0 text'
    end
  end.

(** [min(l)] and [max(l)] on strings, for a non-empty list: the running
    value is replaced only by a strictly smaller (larger) item. *)
Definition py_min (x : string) (l : list string) : string :=
  foldl (λ m y, if decide (m ≤ y)%string then m else y) x l.

Definition py_max (x : string) (l : list string) : string :=
  foldl (λ m y, if decide (y ≤ m)%string then m else y) x l.

Definition _infer_scope (text doc_type : string) : string :=
  let years := find_years false 0 (chars text) in
  match years with
  | y0 :: rest =>
    let year_range :=
      if (1 <? length (remove_dups years))%nat
      then py_min y0 rest +:+ " to " +:+ py_max y0 rest
      else y0 in
    "Covers period: " +:+ year_range
  | [] =>
    if contains "comprehensive" text || contains "complete" text
    then "Comprehensive coverage"
    else if contains "summary" text || contains "overview" text
    then "Summary overview"
    else "Standard scope"
  end.

Definition _generate_summary (doc_type : string) (themes sections : list string)
    : string :=
  let doc_type_readable := title (replace_char "_" " " doc_type) in
  let themes_str :=
    match themes with
    | [] => "various topics"
    | _ => join ", " themes
    end in
  let sections_str :=
    match sections with
    | [] => "multiple sections"
    | _ => join ", " (py_prefix 3 sections)
    end in
  let summary := "This " +:+ doc_type_readable +:+ " covers " +:+ themes_str +:+ ". " in
  summary +:+ "Key sections include: " +:+ sections_str +:+ ".".

Definition _empty_profile : profile :=
  Profile "unknown" 0 [] "Unknown" "Unknown" []
          "Unable to generate profile for this document." "".

Definition profile_document (text filename : string) : profile :=
  if bool_decide (text = "") || (stripped_length text <? 100)%nat
  then _empty_profile
  else
    let text_lower := lower text in
    let '(doc_type, confidence) := _identify_document_type text_lower in
    let themes := _extract_themes text_lower in
    let sections := _identify_sections text_lower in
    let purpose := _infer_purpose doc_type themes in
    let scope := _infer_scope text_lower doc_type in
    let summary := _generate_summary doc_type themes sections in
    Profile doc_type confidence themes purpose scope sections summary filename.

(** The themes as a function of which rules fired. *)
Definition themes_of (b1 b2 b3 b4 b5 b6 : bool) : list string :=
  take 5 ((if b1 then [ "Financial Performance" ] else [])
          ++ (if b2 then [ "Risk Management" ] else [])
          ++ (if b3 then [ "Business Growth" ] else [])
          ++ (if b4 then [ "Compliance & Regulation" ] else [])
          ++ (if b5 then [ "Operations" ] else [])
          ++ (if b6 then [ "Strategic Planning" ] else [])).

(** A match of the year pattern: [20] or [19] followed by two digits. *)
Definition year_string (y : string) : Prop :=
  ∃ d3 d4, is_digit d3 = true ∧ is_digit d4 = true
    ∧ (y = String "2" (String "0" (String d3 (String d4 "")))
       ∨ y = String "1" (String "9" (String d3 (String d4 "")))).

(** ** PDF extraction (pdf_extractor.py)

    The PDF libraries are parameters: what each of them reads from the file
    at a path, or [None] when it is missing or raises. A method keeps
    nothing of a reading that raises, so a failure at any page is a failure
    of the reading. A path is the text [Path] prints for it. *)

Definition newline : string := String "010" "".

(** A table of pdfplumber: rows of cells, a cell being a text or [None]. *)
Record pdf_table := PdfTable {
  table_page : nat;
  table_data : list (list (option string))
}.

(** What an extraction method returns. *)
Record content := Content {
  content_text : string;
  content_pages : nat;
  content_images : list string;
  content_tables : list pdf_table
}.

(** The dictionary [extract] returns. The keys ['error'], ['images'] and
    ['tables'] are missing from some of them, which is [None] here; for
    ['method'] it is Python's [None]. *)
Record extraction := Extraction {
  pdf_success : bool;
  pdf_error : option string;
  pdf_text : string;
  pdf_pages : nat;
  pdf_method : option string;
  pdf_images : option (list string);
  pdf_tables : option (list pdf_table)
}.

(** A page as pdfplumber reads it. *)
Record plumber_page := PlumberPage {
  extract_text : option string;
  extract_tables : list (list (list (option string)))
}.

(** A page as PyMuPDF reads it; an image is its base64 text, or [None] when
    extracting it raises. *)
Record fitz_page := FitzPage {
  get_text : string;
  get_images : list (option string)
}.

Section PDFExtractor.

Context (path_exists : string → bool).
Context (pdfplumber_open : string → option (list plumber_page)).
Context (fitz_open : string → option (list fitz_page)).
Context (pdfminer_extract : string → option string).
(** What [pytesseract.image_to_string] reads on each page. *)
Context (ocr_pages : string → option (list string)).

Fixpoint pdfplumber_pages (page_num : nat) (pages : list plumber_page)
    (text_parts : list string) (tables : list pdf_table)
    : list string * list pdf_table :=
  match pages with
  | [] => (text_parts, tables)
  | page :: rest =>
    let text_parts :=
      match extract_text page with
      | Some page_text =>
        if bool_decide (page_text = "") then text_parts
        else text_parts ++ [ newline +:+ "--- Page " +:+ pretty (page_num + 1)%nat
                             +:+ " ---" +:+ newline +:+ page_text ]
      | None => text_parts
      end in
    let tables :=
      tables ++ (PdfTable (page_num + 1) <$> extract_tables page) in
    pdfplumber_pages (S page_num) rest text_parts tables
  end.

Definition _extract_with_pdfplumber (pdf_path : string) : option content :=
  match pdfplumber_open pdf_path with
  | None => None
  | Some pdf =>
    let '(text_parts, tables) := pdfplumber_pages 0 pdf [] [] in
    Some (Content (join newline text_parts) (length pdf) [] tables)
  end.

Fixpoint pymupdf_pages (page_num : nat) (doc : list fitz_page)
    (text_parts : list string) (images : list string)
    : list string * list string :=
  match doc with
  | [] => (text_parts, images)
  | page :: rest =>
    let text_parts :=
      if bool_decide (get_text page = "") then text_parts
      else text_parts ++ [ newline +:+ "--- Page " +:+ pretty (page_num + 1)%nat
                           +:+ " ---" +:+ newline +:+ get_text page ] in
    let images :=
      images ++ omap (λ img, (λ image_b64, "data:image/png;base64," +:+ image_b64) <$> img)
                     (get_images page) in
    pymupdf_pages (S page_num) rest text_parts images
  end.

Definition _extract_with_pymupdf (pdf_path : string) : option content :=
  match fitz_open pdf_path with
  | None => None
  | Some doc =>
    let '(text_parts, images) := pymupdf_pages 0 doc [] [] in
    Some (Content (join newline text_parts) (length doc) images [])
  end.

Definition _extract_with_pdfminer (pdf_path : string) : option content :=
  match pdfminer_extract pdf_path with
  | None => None
  | Some text =>
    let pages := (1 `max` (String.length text / 2000))%nat in
    Some (Content text pages [] [])
  end.

Fixpoint ocr_parts (page_num : nat) (page_texts : list string)
    (text_parts : list string) : list string :=
  match page_texts with
  | [] => text_parts
  | page_text :: rest =>
    let text_parts :=
      if bool_decide (page_text = "") then text_parts
      else text_parts ++ [ newline +:+ "--- Page " +:+ pretty (page_num + 1)%nat
                           +:+ " (OCR) ---" +:+ newline +:+ page_text ] in
    ocr_parts (S page_num) rest text_parts
  end.

Definition _extract_with_ocr (pdf_path : string) : option content :=
  match ocr_pages pdf_path with
  | None => None
  | Some page_texts =>
    Some (Content (join newline (ocr_parts 0 page_texts [])) (length page_texts) [] [])
  end.

Definition methods : list (string * (string → option content)) :=
  [ ("pdfplumber", _extract_with_pdfplumber);
    ("PyMuPDF", _extract_with_pymupdf);
    ("pdfminer", _extract_with_pdfminer);
    ("OCR", _extract_with_ocr) ].

(** The loop of [extract] over the methods: the first one that neither
    raises nor returns too little. *)
Fixpoint try_methods (methods : list (string * (string → option content)))
    (pdf_path : string) : option extraction :=
  match methods with
  | [] => None
  | (method_name, method_func) :: rest =>
    match method_func pdf_path with
    | Some result =>
      if negb (bool_decide (content_text result = ""))
         && (50 <? stripped_length (content_text result))%nat
      then Some (Extraction true None (content_text result) (content_pages result)
                   (Some method_name) (Some (content_images result))
                   (Some (content_tables result)))
      else try_methods rest pdf_path
    | None => try_methods rest pdf_path
    end
  end.

Definition extract (pdf_path : string) : extraction :=
  if negb (path_exists pdf_path)
  then Extraction false (Some ("File not found: " +:+ pdf_path)) "" 0 None None None
  else
    match try_methods methods pdf_path with
    | Some result => result
    | None =>
      Extraction false (Some "All extraction methods failed") "" 0 None
                 (Some []) (Some [])
    end.

End PDFExtractor.

(** A method that raises or returns too little for [extract] on a path. *)
Definition insufficient (method_func : string → option content) (pdf_path : string)
    : Prop :=
  ∀ result, method_func pdf_path = Some result →
            (stripped_length (content_text result) ≤ 50)%nat.

(** ** Concrete texts and files *)

(** The text the profiler is tried on in its [__main__] block. *)
Definition test_text : string :=
  newline +:+ "    Annual Report 2023" +:+ newline +:+ "    " +:+ newline
  +:+ "    This annual report provides a comprehensive overview of our financial performance"
  +:+ newline
  +:+ "    for the fiscal year ending December 31, 2023. Our revenue increased by 15% to"
  +:+ newline
  +:+ "    $500 million, driven by strong sales growth in our core markets."
  +:+ newline +:+ "    " +:+ newline
  +:+ "    Risk Factors:" +:+ newline
  +:+ "    The company faces various risks including market volatility and regulatory changes."
  +:+ newline +:+ "    ".

(** A scanned file: pdfplumber is missing, PyMuPDF finds one page with an
    image and no text, pdfminer reads a short line, OCR is missing. *)
Definition scan_lines : string :=
  "Minutes of the board meeting held in March, page one of two.".

Definition scan_extract : string → extraction :=
  extract (λ _, true) (λ _, None) (λ _, Some [ FitzPage "" [ Some "aGk=" ] ])
          (λ _, Some scan_lines) (λ _, None).

(** No file at any path. *)
Definition missing_extract : string → extraction :=
  extract (λ _, false) (λ _, None) (λ _, None) (λ _, None) (λ _, None).

(** ** Running the monad *)

Lemma get_collection_Some name c (st : chroma) :
  st !! name = Some c → get_collection name st = (st, inr name).
Proof. intros H. unfold get_collection. by rewrite H. Qed.

Lemma get_collection_None name (st : chroma) :
  st !! name = None → get_collection name st = (st, inl (CollectionNotFound name)).
Proof. intros H. unfold get_collection. by rewrite H. Qed.

Lemma bind_run {A B} (m : M A) (k : A → M B) st :
  (m ≫= k) st =
  match m st with
  | (st', inl e) => (st', inl e)
  | (st', inr x) => k x st'
  end.
Proof. reflexivity. Qed.

Lemma ret_run {A} (x : A) (st : chroma) : (mret x : M A) st = (st, inr x).
Proof. reflexivity. Qed.

(** ** Query expansion *)

(** C7: [expand_query] is a function of the query alone and returns six
    strings: the query itself, then the five fixed rephrasings. *)
Theorem expand_query_six (query : string) :
  expand_query query =
    [ query;
      "What is " +:+ query +:+ "?";
      "Explain " +:+ query;
      "Information about " +:+ query;
      "Details regarding " +:+ query;
      "Can you tell me about " +:+ query +:+ "?" ]
  ∧ length (expand_query query) = 6%nat
  ∧ head (expand_query query) = Some query.
Proof. unfold expand_query, py_prefix. done. Qed.

(** ** Collection statistics *)

(** C9: [get_collection_stats] reports whether the collection of the
    document exists and how many records it holds, never raises, and leaves
    the client's collections as they were. *)
Theorem get_collection_stats_reads_only (st : chroma) (doc_id : Z) :
  ∃ s : stats,
    get_collection_stats doc_id st = (st, inr s)
    ∧ collection_name s = doc_collection_name doc_id
    ∧ match st !! doc_collection_name doc_id with
      | Some c => exists_ s = true ∧ chunk_count s = length (coll_items c)
      | None => exists_ s = false ∧ chunk_count s = 0%nat
      end.
Proof.
  unfold get_collection_stats, try_except. rewrite bind_run.
  unfold get_collection.
  destruct (st !! doc_collection_name doc_id) as [c|] eqn:Hc.
  - rewrite bind_run. unfold collection_count. rewrite Hc. by eexists.
  - by eexists.
Qed.

(** ** Stable sorting *)

Section sorted_by.
Context {A : Type} (R : relation A) `{!RelDecision R}.

Lemma insert_by_Permutation x l : insert_by R x l ≡ₚ x :: l.
Proof.
  induction l as [|y l IH]; simpl; [done|].
  case_decide; [done|]. rewrite IH. apply Permutation_swap.
Qed.

Lemma sorted_by_Permutation l : sorted_by R l ≡ₚ l.
Proof.
  induction l as [|x l IH]; simpl; [done|].
  rewrite insert_by_Permutation. by f_equiv.
Qed.

Lemma elem_of_sorted_by x l : x ∈ sorted_by R l ↔ x ∈ l.
Proof. by rewrite sorted_by_Permutation. Qed.

Lemma length_sorted_by l : length (sorted_by R l) = length l.
Proof. by rewrite sorted_by_Permutation. Qed.

Lemma insert_by_HdRel `{!Total R} z x l :
  R z x → HdRel R z l → HdRel R z (insert_by R x l).
Proof.
  intros Hzx Hl. destruct l as [|y l]; simpl; [by constructor|].
  case_decide; constructor; [done|]. by inversion Hl.
Qed.

Lemma insert_by_Sorted `{!Total R} x l : Sorted R l → Sorted R (insert_by R x l).
Proof.
  induction 1 as [|y l Hl IH Hy]; simpl.
  - by repeat constructor.
  - case_decide as Hxy.
    + by repeat constructor.
    + constructor; [done|]. apply insert_by_HdRel; [|done].
      by destruct (total R x y).
Qed.

Lemma sorted_by_Sorted `{!Total R} l : Sorted R (sorted_by R l).
Proof.
  induction l as [|x l IH]; simpl; [constructor|]. by apply insert_by_Sorted.
Qed.

Lemma sorted_by_StronglySorted `{!Total R, !Transitive R} l :
  StronglySorted R (sorted_by R l).
Proof. apply Sorted_StronglySorted; [done|]. apply sorted_by_Sorted. Qed.
End sorted_by.

Lemma StronglySorted_sublist {A} (R : relation A) (l k : list A) :
  l `sublist_of` k → StronglySorted R k → StronglySorted R l.
Proof.
  induction 1 as [|x l k Hs IH|x l k Hs IH]; intros Hk.
  - constructor.
  - inversion_clear Hk as [|?? Hk' Hx]. constructor; [by apply IH|].
    eapply Forall_forall. intros y Hy. eapply Forall_forall in Hx; [done|].
    by eapply elem_of_sublist.
  - inversion_clear Hk. by apply IH.
Qed.

Global Instance by_distance_total : Total by_distance.
Proof. intros x y. unfold by_distance. apply (total Qle). Qed.

Global Instance by_distance_trans : Transitive by_distance.
Proof. intros x y z. unfold by_distance. apply Qle_trans. Qed.


(** ** Python's sort *)

Section list_sort_facts.
Context {A K : Type} (key : A → K) (lt : K → K → bool).

Lemma binary_insert_Permutation s pivot :
  binary_insert key lt s pivot ≡ₚ pivot :: s.
Proof.
  unfold binary_insert. rewrite <-Permutation_middle. by rewrite take_drop.
Qed.

Lemma binarysort_Permutation run rest :
  binarysort key lt run rest ≡ₚ run ++ rest.
Proof.
  unfold binarysort. revert run.
  induction rest as [|x rest IH]; intros run; simpl; [by rewrite app_nil_r|].
  rewrite IH, binary_insert_Permutation. by rewrite <-Permutation_middle.
Qed.

Lemma list_sort_ascending_Permutation l : list_sort_ascending key lt l ≡ₚ l.
Proof.
  unfold list_sort_ascending. destruct (count_run key lt l) as [n descending].
  rewrite binarysort_Permutation.
  destruct descending; rewrite ?reverse_Permutation; by rewrite take_drop.
Qed.

Lemma list_sort_Permutation reverse_order l :
  list_sort key lt reverse_order l ≡ₚ l.
Proof.
  unfold list_sort. destruct reverse_order.
  - by rewrite reverse_Permutation, list_sort_ascending_Permutation,
      reverse_Permutation.
  - apply list_sort_ascending_Permutation.
Qed.

Lemma elem_of_list_sort reverse_order x l :
  x ∈ list_sort key lt reverse_order l ↔ x ∈ l.
Proof. by rewrite list_sort_Permutation. Qed.

Lemma length_list_sort reverse_order l :
  length (list_sort key lt reverse_order l) = length l.
Proof. by rewrite list_sort_Permutation. Qed.

(** [x] may come before [y]: [y < x] is false. *)
Definition not_after (x y : A) : Prop := lt (key y) (key x) = false.

(** The order of the result, for items that [<] orders: [ordered] holds of
    the items of the list, [<] is asymmetric, and on ordered items "not
    after" is transitive. *)
Context (ordered : A → Prop).
Context (lt_asym : ∀ x y, lt (key x) (key y) = true → lt (key y) (key x) = false).
Context (not_after_trans : ∀ x y z, ordered x → ordered y → ordered z →
           not_after x y → not_after y z → not_after x z).

Lemma not_after_refl x : not_after x x.
Proof.
  unfold not_after. destruct (lt (key x) (key x)) eqn:Hlt; [|done].
  by rewrite (lt_asym x x Hlt) in Hlt.
Qed.

Lemma lt_not_after_trans x y z :
  ordered x → ordered y → ordered z →
  lt (key x) (key y) = true → not_after y z → lt (key x) (key z) = true.
Proof.
  intros Hx Hy Hz Hxy Hyz. destruct (lt (key x) (key z)) eqn:Hxz; [done|].
  assert (not_after y x) as Hyx by (by eapply (not_after_trans y z x)).
  unfold not_after in Hyx. congruence.
Qed.

Lemma lt_trans x y z :
  ordered x → ordered y → ordered z →
  lt (key x) (key y) = true → lt (key y) (key z) = true → lt (key x) (key z) = true.
Proof.
  intros Hx Hy Hz Hxy Hyz. apply (lt_not_after_trans x y z); [done..|].
  by apply lt_asym.
Qed.

Lemma Sorted_StronglySorted_on (R : relation A) l :
  (∀ x y z, ordered x → ordered y → ordered z → R x y → R y z → R x z) →
  Forall ordered l → Sorted R l → StronglySorted R l.
Proof.
  intros HR Hok Hs. induction Hs as [|x l Hs IH Hhd]; [constructor|].
  apply Forall_cons in Hok as [Hx Hok]. constructor; [by apply IH|].
  specialize (IH Hok). destruct Hhd as [|y l Hxy]; [constructor|].
  apply Forall_cons in Hok as [Hy Hok]. constructor; [done|].
  apply StronglySorted_cons in IH as [Hall _].
  eapply Forall_impl; [apply Forall_and; split; [exact Hall|exact Hok]|].
  intros z [Hyz Hz]. exact (HR x y z Hx Hy Hz Hxy Hyz).
Qed.

Lemma StronglySorted_reverse (R : relation A) l :
  StronglySorted R l → StronglySorted (flip R) (reverse l).
Proof.
  induction 1 as [|x l Hs IH Hall]; [constructor|].
  rewrite reverse_cons. apply StronglySorted_app. split_and!.
  - intros y z Hy ->%list_elem_of_singleton. rewrite elem_of_reverse in Hy.
    unfold flip. exact (proj1 (Forall_forall _ _) Hall y Hy).
  - done.
  - repeat constructor.
Qed.

Lemma StronglySorted_lookup (R : relation A) l i j x y :
  StronglySorted R l → (i < j)%nat → l !! i = Some x → l !! j = Some y → R x y.
Proof.
  intros Hs. revert i j. induction Hs as [|z l Hs IH Hall]; intros i j Hij Hi Hj.
  { by rewrite lookup_nil in Hi. }
  destruct i as [|i], j as [|j]; simpl in *; try lia.
  - injection Hi as ->. eapply Forall_forall in Hall; [done|].
    by eapply list_elem_of_lookup_2.
  - eapply (IH i j); [lia|done..].
Qed.

Lemma StronglySorted_mono (R R' : relation A) l :
  (∀ x y, R x y → R' x y) → StronglySorted R l → StronglySorted R' l.
Proof.
  intros HR. induction 1 as [|x l Hs IH Hall]; constructor; [done|].
  eapply Forall_impl; [done|]. auto.
Qed.

(** The run at the head of a list is in order once it is put upright. *)
Lemma run_length_Sorted descending previous l :
  Sorted (λ x y, lt (key y) (key x) = descending)
         (previous :: take (run_length key lt descending previous l) l).
Proof.
  revert previous. induction l as [|x l IH]; intros previous; simpl.
  { repeat constructor. }
  destruct (Bool.eqb _ _) eqn:Heq; simpl; [|repeat constructor].
  apply Bool.eqb_prop in Heq. constructor; [apply IH|by constructor].
Qed.

Lemma count_run_StronglySorted l n descending :
  Forall ordered l →
  count_run key lt l = (n, descending) →
  StronglySorted not_after (if descending then reverse (take n l) else take n l).
Proof.
  intros Hok. destruct l as [|x [|y l]].
  - intros [= <- <-]. constructor.
  - intros [= <- <-]. repeat constructor.
  - unfold count_run. intros Heq. apply pair_equal_spec in Heq as [<- <-].
    rewrite firstn_cons.
    pose proof (run_length_Sorted (lt (key y) (key x)) x (y :: l)) as Hs.
    assert (Forall ordered
              (x :: take (run_length key lt (lt (key y) (key x)) x (y :: l)) (y :: l)))
      as Hok'.
    { apply Forall_cons in Hok as [Hx Hok]. constructor; [done|].
      by apply Forall_take. }
    revert Hs Hok'.
    generalize (run_length key lt (lt (key y) (key x)) x (y :: l)). intros m Hs Hok'.
    destruct (lt (key y) (key x)) eqn:Hdesc.
    + apply Sorted_StronglySorted_on in Hs;
        [|intros a b c Ha Hb Hc Hab Hbc; by apply (lt_trans c b a)|done].
      apply StronglySorted_reverse in Hs.
      eapply StronglySorted_mono; [|exact Hs].
      intros a b Hlt. by apply lt_asym.
    + by apply Sorted_StronglySorted_on in Hs.
Qed.

(** The binary search ends at a place with the items that may come before
    the pivot on its left and the items the pivot is less than on its
    right. *)
Lemma bisect_spec steps pivot s l r :
  ordered pivot → Forall ordered s → StronglySorted not_after s →
  (l ≤ r ≤ length s)%nat → (r - l ≤ steps)%nat →
  (∀ i x, (i < l)%nat → s !! i = Some x → not_after x pivot) →
  (∀ i x, (r ≤ i)%nat → s !! i = Some x → lt (key pivot) (key x) = true) →
  (bisect key lt steps pivot s l r ≤ length s)%nat
  ∧ (∀ i x, (i < bisect key lt steps pivot s l r)%nat → s !! i = Some x →
            not_after x pivot)
  ∧ (∀ i x, (bisect key lt steps pivot s l r ≤ i)%nat → s !! i = Some x →
            lt (key pivot) (key x) = true).
Proof.
  intros Hp Hok Hs. revert l r.
  induction steps as [|steps IH]; intros l r Hlr Hsteps Hleft Hright; cbn [bisect].
  { assert (l = r) as -> by lia. split_and!; [lia|done..]. }
  destruct (l <? r)%nat eqn:Hlt; cycle 1.
  { apply Nat.ltb_ge in Hlt. assert (l = r) as -> by lia.
    split_and!; [lia|done..]. }
  apply Nat.ltb_lt in Hlt.
  assert (l + (r - l) / 2 < r)%nat as Hmid.
  { pose proof (Nat.div_lt (r - l) 2). lia. }
  set (p := (l + (r - l) / 2)%nat) in *.
  destruct (lookup_lt_is_Some_2 s p) as [x Hx]; [lia|]. rewrite Hx.
  assert (ordered x) as Hox.
  { eapply Forall_forall; [exact Hok|]. by eapply list_elem_of_lookup_2. }
  assert (∀ i y, s !! i = Some y → ordered y) as Hoks.
  { intros i y Hy. eapply Forall_forall; [exact Hok|]. by eapply list_elem_of_lookup_2. }
  destruct (lt (key pivot) (key x)) eqn:Hpx.
  - apply IH; [lia|lia|done|].
    intros i y Hi Hy. destruct (decide (i = p)) as [->|Hne].
    { rewrite Hx in Hy. by injection Hy as <-. }
    eapply (lt_not_after_trans pivot x y); [done|done|by eapply Hoks|done|].
    eapply (StronglySorted_lookup not_after s p i); [done|lia|done..].
  - apply IH; [lia|lia| |done].
    intros i y Hi Hy. destruct (decide (i = p)) as [->|Hne].
    { rewrite Hx in Hy. by injection Hy as <-. }
    eapply (not_after_trans y x pivot); [by eapply Hoks|done|done| |done].
    eapply (StronglySorted_lookup not_after s i p); [done|lia|done..].
Qed.

Lemma binary_insert_StronglySorted s pivot :
  ordered pivot → Forall ordered s → StronglySorted not_after s →
  StronglySorted not_after (binary_insert key lt s pivot).
Proof.
  intros Hp Hok Hs. unfold binary_insert.
  destruct (bisect_spec (length s) pivot s 0 (length s)) as (Hlen & Hleft & Hright);
    [done|done|done|lia|lia|intros; lia| |].
  { intros i x Hi Hx. apply lookup_lt_Some in Hx. lia. }
  set (m := bisect key lt (length s) pivot s 0 (length s)) in *.
  rewrite <-(take_drop m s) in Hs. apply StronglySorted_app in Hs as (Hcross & Hl & Hr).
  apply StronglySorted_app. split_and!; [|done|].
  - intros x y Hx [->|Hy]%elem_of_cons; [|by apply Hcross].
    apply list_elem_of_lookup in Hx as [i Hi].
    apply lookup_take_Some in Hi as [Hi Him]. by eapply Hleft.
  - constructor; [done|]. apply Forall_forall. intros y Hy.
    apply list_elem_of_lookup in Hy as [i Hi]. rewrite lookup_drop in Hi.
    apply lt_asym. eapply Hright; [|done]. lia.
Qed.

Lemma binarysort_StronglySorted run rest :
  Forall ordered run → Forall ordered rest → StronglySorted not_after run →
  StronglySorted not_after (binarysort key lt run rest).
Proof.
  unfold binarysort. revert run.
  induction rest as [|x rest IH]; intros run Hrun Hrest Hs; simpl; [done|].
  apply Forall_cons in Hrest as [Hx Hrest]. apply IH; [|done|].
  - rewrite binary_insert_Permutation. by constructor.
  - by apply binary_insert_StronglySorted.
Qed.

Lemma list_sort_ascending_StronglySorted l :
  Forall ordered l → StronglySorted not_after (list_sort_ascending key lt l).
Proof.
  intros Hok. unfold list_sort_ascending.
  destruct (count_run key lt l) as [n descending] eqn:Hrun.
  apply binarysort_StronglySorted.
  - destruct descending; rewrite ?Forall_reverse; by apply Forall_take.
  - by apply Forall_drop.
  - by apply count_run_StronglySorted.
Qed.

(** Sorted with [reverse=True], items that [<] orders come out with no item
    less than a later one. *)
Lemma list_sort_reverse_StronglySorted l :
  Forall ordered l →
  StronglySorted (λ x y, lt (key x) (key y) = false) (list_sort key lt true l).
Proof.
  intros Hok. unfold list_sort.
  apply (StronglySorted_reverse not_after), list_sort_ascending_StronglySorted.
  by apply Forall_reverse.
Qed.
End list_sort_facts.

(** ** Floats *)

Lemma float_lt_asym (a b : pyfloat) : float_lt a b = true → float_lt b a = false.
Proof.
  destruct a as [x| | |], b as [y| | |]; simpl; try done.
  rewrite bool_decide_eq_true, bool_decide_eq_false.
  intros Hxy Hyx. apply (Qlt_irrefl x). by eapply Qlt_trans.
Qed.

(** For floats that are numbers, "not less than" is the order. *)
Lemma float_lt_false (a b : pyfloat) :
  a ≠ NaN → b ≠ NaN → float_lt b a = false ↔ float_le a b.
Proof.
  intros Ha Hb. destruct a as [x| | |], b as [y| | |]; simpl; try done.
  rewrite bool_decide_eq_false. split; [apply Qnot_lt_le|apply Qle_not_lt].
Qed.

Lemma float_le_trans (a b c : pyfloat) : float_le a b → float_le b c → float_le a c.
Proof.
  destruct a as [x| | |], b as [y| | |], c as [z| | |]; simpl; try done.
  apply Qle_trans.
Qed.

Lemma float_div_number (x y : Q) : ¬ (y == 0)%Q → float_div x y = Finite (x / y).
Proof. intros Hy. unfold float_div. by rewrite decide_False. Qed.

(** What [similarities.sort(key=lambda x: x[1], reverse=True)] gives when no
    similarity is nan: no item is less than a later one. *)
Lemma sort_similarities_StronglySorted (similarities : list (nat * pyfloat)) :
  Forall (λ p, p.2 ≠ NaN) similarities →
  StronglySorted (λ p p', float_le p'.2 p.2)
                 (list_sort snd float_lt true similarities).
Proof.
  intros Hnum.
  assert (Forall (λ p : nat * pyfloat, p.2 ≠ NaN)
                 (list_sort snd float_lt true similarities)) as Hnum'.
  { by rewrite list_sort_Permutation. }
  pose proof (list_sort_reverse_StronglySorted (@snd nat pyfloat) float_lt
                (λ p, p.2 ≠ NaN) (λ x y, float_lt_asym x.2 y.2)) as Hsorted.
  assert (StronglySorted (λ x y : nat * pyfloat, float_lt x.2 y.2 = false)
                         (list_sort snd float_lt true similarities)) as Hs.
  { apply Hsorted; [|done]. intros x y z Hx Hy Hz. unfold not_after.
    rewrite !float_lt_false by done. apply float_le_trans. }
  clear Hsorted. revert Hnum'. induction Hs as [|p l Hs IH Hall]; intros Hnum';
    [constructor|].
  apply Forall_cons in Hnum' as [Hp Hl]. constructor; [by apply IH|].
  eapply Forall_impl; [apply Forall_and; split; [exact Hall|exact Hl]|].
  intros p' [Hlt Hp']. by apply float_lt_false.
Qed.

(** ** The de-duplication loop *)

(** What the loop appends to [unique_results]: a sublist of its input whose
    ids are pairwise distinct and unseen, each kept entry being no farther
    than any entry of the input with its id. *)
Lemma unique_top_k_spec top_k seen_ids unique_results rs :
  ∃ kept,
    unique_top_k top_k seen_ids unique_results rs = unique_results ++ kept
    ∧ kept `sublist_of` rs
    ∧ NoDup (id <$> kept)
    ∧ (∀ r, r ∈ kept → id r ∉ seen_ids)
    ∧ (StronglySorted by_distance rs →
       ∀ r r', r ∈ kept → r' ∈ rs → id r' = id r → by_distance r r').
Proof.
  revert seen_ids unique_results.
  induction rs as [|r rs IH]; intros seen_ids unique_results; simpl.
  { exists []. rewrite app_nil_r. split_and!; [done|done|apply NoDup_nil_2| |].
    - by intros r ?%elem_of_nil.
    - by intros _ r r' ?%elem_of_nil. }
  case_decide as Hseen.
  - destruct (IH seen_ids unique_results) as (kept & -> & Hsub & Hnd & Hfresh & Hmin).
    exists kept. split_and!; try done; [by apply sublist_cons|].
    intros Hs r0 r' Hr0 Hr' Hid. inversion_clear Hs as [|?? Hs' Hr].
    apply elem_of_cons in Hr' as [->|Hr'].
    + specialize (Hfresh r0 Hr0). congruence.
    + by apply Hmin.
  - case_decide as Hfull.
    + exists [r]. split_and!; try done.
      * apply sublist_skip, sublist_nil_l.
      * apply NoDup_singleton.
      * intros r0 ->%list_elem_of_singleton. done.
      * intros Hs r0 r' ->%list_elem_of_singleton Hr' Hid.
        inversion_clear Hs as [|?? Hs' Hr].
        apply elem_of_cons in Hr' as [->|Hr'].
        -- unfold by_distance. apply Qle_refl.
        -- eapply Forall_forall in Hr; done.
    + destruct (IH ({[id r]} ∪ seen_ids) (unique_results ++ [r]))
        as (kept & -> & Hsub & Hnd & Hfresh & Hmin).
      exists (r :: kept). split_and!.
      * by rewrite <-app_assoc.
      * by apply sublist_skip.
      * simpl. constructor; [|done].
        intros (r0 & Hid & Hr0)%list_elem_of_fmap.
        specialize (Hfresh r0 Hr0). set_solver.
      * intros r0 [->|Hr0]%elem_of_cons; [done|].
        specialize (Hfresh r0 Hr0). set_solver.
      * intros Hs r0 r' Hr0 Hr' Hid. inversion_clear Hs as [|?? Hs' Hr].
        apply elem_of_cons in Hr0 as [->|Hr0];
          apply elem_of_cons in Hr' as [->|Hr'].
        -- unfold by_distance. apply Qle_refl.
        -- eapply Forall_forall in Hr; done.
        -- specialize (Hfresh r0 Hr0). set_solver.
        -- by apply Hmin.
Qed.

(** The loop stops as soon as [top_k] entries are collected, but only after
    appending one. *)
Lemma unique_top_k_length top_k seen_ids unique_results rs :
  Z.of_nat (length (unique_top_k top_k seen_ids unique_results rs))
  ≤ Z.max top_k (Z.of_nat (length unique_results) + 1).
Proof.
  revert seen_ids unique_results.
  induction rs as [|r rs IH]; intros seen_ids unique_results; simpl; [lia|].
  case_decide; [apply IH|].
  case_decide as Hfull.
  - rewrite length_app. simpl. lia.
  - etrans; [apply IH|]. rewrite length_app in *. simpl in *. lia.
Qed.

(** ** Multi-query search *)

Lemma length_variant_results knn_query items n i embs :
  (∀ e hits, knn_query items e n = Some hits →
     Z.of_nat (length hits) ≤ Z.max n 0) →
  Z.of_nat (length (variant_results knn_query items n i embs))
  ≤ Z.of_nat (length embs) * Z.max n 0.
Proof.
  intros Hknn. revert i. induction embs as [|e embs IH]; intros i; simpl; [lia|].
  rewrite length_app. specialize (IH (S i)).
  destruct (knn_query items e n) as [hits|] eqn:Hq.
  - specialize (Hknn e hits Hq). rewrite length_fmap. lia.
  - simpl. lia.
Qed.

Section Retrieval.
Context (encode : list string → option (list vec)).
Context (knn_query : list item → vec → Z → option (list hit)).

Lemma search_variations_run collection c n i embs acc (st : chroma) :
  st !! collection = Some c →
  search_variations knn_query collection n i embs acc st
  = (st, inr (acc ++ variant_results knn_query (coll_items c) n i embs)).
Proof.
  intros Hc. revert i acc.
  induction embs as [|e embs IH]; intros i acc; simpl.
  { by rewrite app_nil_r. }
  rewrite bind_run. unfold try_except. rewrite bind_run.
  unfold collection_query. rewrite Hc.
  destruct (knn_query (coll_items c) e n) as [hits|]; simpl.
  - rewrite IH. by rewrite app_assoc.
  - by rewrite IH.
Qed.

Lemma elem_of_variant_results c n i0 embs r :
  r ∈ variant_results knn_query (coll_items c) n i0 embs ↔
  ∃ j h, returned_by knn_query c embs n j h ∧ r = make_result (i0 + j) h.
Proof.
  revert i0. induction embs as [|e embs IH]; intros i0; simpl.
  { split; [by intros ?%elem_of_nil|]. by intros (j & h & (e & hits & ? & _) & _). }
  rewrite elem_of_app, IH. split.
  - intros [Hr|(j & h & (e' & hits & He' & Hq & Hh) & ->)].
    + destruct (knn_query (coll_items c) e n) as [hits|] eqn:Hq;
        [|by apply elem_of_nil in Hr].
      apply list_elem_of_fmap in Hr as (h & -> & Hh).
      exists 0%nat, h. split; [by exists e, hits|]. by rewrite Nat.add_0_r.
    + exists (S j), h. split; [by exists e', hits|]. f_equal. lia.
  - intros (j & h & (e' & hits & He' & Hq & Hh) & ->).
    destruct j as [|j]; simpl in He'.
    + left. injection He' as <-. rewrite Hq, Nat.add_0_r.
      by apply list_elem_of_fmap_2.
    + right. exists j, h. split; [by exists e', hits|]. f_equal. lia.
Qed.

Lemma hybrid_search_run doc_id query top_k (st : chroma) c embs :
  st !! doc_collection_name doc_id = Some c →
  encode (expand_query query) = Some embs →
  hybrid_search encode knn_query doc_id query top_k st
  = (st, inr (unique_top_k top_k ∅ []
       (sorted_by by_distance
          (variant_results knn_query (coll_items c) (Z.min top_k 10) 0 embs)))).
Proof.
  intros Hc He. unfold hybrid_search, try_else.
  erewrite get_collection_Some by done.
  rewrite bind_run. unfold create_embeddings. rewrite He. simpl.
  rewrite bind_run. by erewrite search_variations_run.
Qed.

Lemma hybrid_search_no_collection doc_id query top_k (st : chroma) :
  st !! doc_collection_name doc_id = None →
  hybrid_search encode knn_query doc_id query top_k st = (st, inr []).
Proof.
  intros Hc. unfold hybrid_search, try_else. by rewrite get_collection_None.
Qed.

Lemma hybrid_search_encode_fails doc_id query top_k (st : chroma) c :
  st !! doc_collection_name doc_id = Some c →
  encode (expand_query query) = None →
  hybrid_search encode knn_query doc_id query top_k st = (st, inl EncodeError).
Proof.
  intros Hc He. unfold hybrid_search, try_else.
  erewrite get_collection_Some by done.
  rewrite bind_run. unfold create_embeddings. by rewrite He.
Qed.

(** C1: the ids of the returned entries are pairwise distinct, the entries
    are in ascending order of distance, each one is a row that some variant
    returned and is no farther than any row with its id that any variant
    returned, and there are at most [top_k] of them: for a depth of 1 or
    more whatever the searches return, and for the depth 0 with a search
    that returns no row when it is asked for none, as the client does,
    which rejects such a request. *)
Theorem hybrid_search_unique_nearest doc_id query top_k (st st' : chroma) res :
  hybrid_search encode knn_query doc_id query top_k st = (st', inr res) →
  NoDup (id <$> res)
  ∧ StronglySorted by_distance res
  ∧ (1 ≤ top_k → Z.of_nat (length res) ≤ top_k)
  ∧ (0 ≤ top_k →
     (∀ items e hits, knn_query items e 0 = Some hits → hits = []) →
     Z.of_nat (length res) ≤ top_k)
  ∧ ∀ r, r ∈ res →
      ∃ c embs,
        st !! doc_collection_name doc_id = Some c
        ∧ encode (expand_query query) = Some embs
        ∧ (∃ i h, returned_by knn_query c embs (Z.min top_k 10) i h
                  ∧ r = make_result i h)
        ∧ (∀ i h, returned_by knn_query c embs (Z.min top_k 10) i h →
                  hit_id h = id r → (distance r <= hit_distance h)%Q).
Proof.
  intros Hrun.
  destruct (st !! doc_collection_name doc_id) as [c|] eqn:Hc; cycle 1.
  { rewrite hybrid_search_no_collection in Hrun by done.
    injection Hrun as <- <-.
    split_and!; [apply NoDup_nil_2|constructor|simpl; lia|simpl; lia|].
    by intros r ?%elem_of_nil. }
  destruct (encode (expand_query query)) as [embs|] eqn:He; cycle 1.
  { by erewrite hybrid_search_encode_fails in Hrun. }
  erewrite hybrid_search_run in Hrun by done. injection Hrun as <- <-.
  set (all := variant_results _ _ _ _ _).
  pose proof (unique_top_k_length top_k ∅ [] (sorted_by by_distance all)) as Hlen.
  destruct (unique_top_k_spec top_k ∅ [] (sorted_by by_distance all))
    as (kept & Hres & Hsub & Hnd & _ & Hmin).
  rewrite Hres in *. simpl in *.
  assert (StronglySorted by_distance (sorted_by by_distance all)) as Hsorted
    by (apply sorted_by_StronglySorted; apply _).
  split_and!; [done|by eapply StronglySorted_sublist|lia| |].
  { intros Hk Hnone. destruct (decide (top_k = 0)) as [->|]; [|lia].
    pose proof (length_variant_results knn_query (coll_items c) (0 `min` 10) 0 embs)
      as Hall.
    fold all in Hall. apply sublist_length in Hsub.
    rewrite length_sorted_by in Hsub.
    assert (Z.of_nat (length all) ≤ Z.of_nat (length embs) * (0 `min` 10) `max` 0)
      as Hzero; [|lia].
    apply Hall. intros e hits Hhits. by rewrite (Hnone _ _ _ Hhits). }
  intros r Hr. exists c, embs. split_and!; [done|done| |].
  - assert (r ∈ all) as Hall.
    { eapply elem_of_sorted_by, elem_of_sublist; done. }
    apply elem_of_variant_results in Hall as (j & h & ? & ->). by exists j, h.
  - intros i h Hret Hid.
    assert (make_result i h ∈ sorted_by by_distance all) as Hin.
    { apply elem_of_sorted_by, elem_of_variant_results. by exists i, h. }
    by apply (Hmin Hsorted r (make_result i h) Hr Hin).
Qed.

(** C4: without a collection for the document, [hybrid_search] and
    [retrieve_context] return the empty list, whatever the query, the
    depth and the intent, and whatever the model and the search do. *)
Theorem no_collection_no_context dot norm doc_id query top_k intent (st : chroma) :
  st !! doc_collection_name doc_id = None →
  hybrid_search encode knn_query doc_id query top_k st = (st, inr [])
  ∧ retrieve_context encode knn_query dot norm doc_id query intent st = (st, inr []).
Proof.
  intros Hc. split; [by apply hybrid_search_no_collection|].
  unfold retrieve_context. rewrite bind_run.
  by rewrite hybrid_search_no_collection.
Qed.

(** C5, for the search step: with the collection present and the variants
    embedded, [hybrid_search] returns a list whatever the searches do; it
    is built from exactly the rows of the variants whose search succeeded,
    each tagged with the index of its variant; and it is empty when every
    search fails. *)
Theorem hybrid_search_skips_failed_searches doc_id query top_k (st : chroma) c embs :
  st !! doc_collection_name doc_id = Some c →
  encode (expand_query query) = Some embs →
  ∃ all_results,
    hybrid_search encode knn_query doc_id query top_k st
    = (st, inr (unique_top_k top_k ∅ [] (sorted_by by_distance all_results)))
    ∧ (∀ r, r ∈ all_results ↔
         ∃ i h, returned_by knn_query c embs (Z.min top_k 10) i h
                ∧ r = make_result i h)
    ∧ ((∀ e, e ∈ embs → knn_query (coll_items c) e (Z.min top_k 10) = None) →
       hybrid_search encode knn_query doc_id query top_k st = (st, inr [])).
Proof.
  intros Hc He.
  exists (variant_results knn_query (coll_items c) (Z.min top_k 10) 0 embs).
  split_and!.
  - by apply hybrid_search_run.
  - intros r. by rewrite elem_of_variant_results.
  - intros Hfail. erewrite hybrid_search_run by done.
    assert (variant_results knn_query (coll_items c) (Z.min top_k 10) 0 embs = [])
      as ->; [|done].
    generalize 0%nat. induction embs as [|e embs' IH] in Hfail |- *; intros i; [done|].
    simpl. rewrite Hfail by apply list_elem_of_here. simpl.
    apply IH. intros e' He'. apply Hfail. by apply list_elem_of_further.
Qed.
End Retrieval.

(** ** Reranking *)

Lemma py_prefix_nonneg {A} (k : Z) (l : list A) :
  0 ≤ k → py_prefix k l = take (Z.to_nat k) l.
Proof. intros Hk. unfold py_prefix. by rewrite decide_True. Qed.

Lemma py_prefix_sublist {A} (k : Z) (l : list A) : py_prefix k l `sublist_of` l.
Proof. unfold py_prefix. case_decide; apply sublist_take. Qed.

Lemma StronglySorted_Forall2 {A B} (R : relation A) (R' : relation B)
    (P : A → B → Prop) (l : list A) (k : list B) :
  (∀ x1 x2 y1 y2, P x1 y1 → P x2 y2 → R x1 x2 → R' y1 y2) →
  Forall2 P l k → StronglySorted R l → StronglySorted R' k.
Proof.
  intros HR. induction 1 as [|x y l k Hxy Hlk IH]; intros Hs; [constructor|].
  inversion_clear Hs as [|?? Hs' Hx]. constructor; [by apply IH|].
  clear IH Hs'. induction Hlk as [|x' y' l k Hxy' Hlk IH]; [constructor|].
  inversion_clear Hx. constructor; [by eapply HR|by apply IH].
Qed.

Lemma score_chunks_inr_length dot norm qe i cembs chunks sims chunks' sims' :
  (i ≤ length chunks)%nat →
  score_chunks dot norm qe i cembs chunks sims = inr (chunks', sims') →
  (i + length cembs ≤ length chunks)%nat.
Proof.
  revert i chunks sims.
  induction cembs as [|ce cembs IH]; intros i chunks sims Hi Hrun; simpl in *; [lia|].
  destruct (chunks !! i) as [c|] eqn:Hc; [|done].
  apply lookup_lt_Some in Hc.
  apply IH in Hrun; rewrite length_insert in *; lia.
Qed.

Section Reranking.
Context (encode : list string → option (list vec)).
Context (dot : vec → vec → Q) (norm : vec → Q).

Local Abbreviation cos := (cosine_similarity dot norm).

Lemma score_chunks_spec qe i cembs chunks sims :
  (i + length cembs ≤ length chunks)%nat →
  ∃ chunks',
    score_chunks dot norm qe i cembs chunks sims
    = inr (chunks', sims ++ imap (λ j ce, ((i + j)%nat, cos qe ce)) cembs)
    ∧ (∀ j, (j < i)%nat → chunks' !! j = chunks !! j)
    ∧ (∀ j ce, cembs !! j = Some ce →
         ∃ c, chunks !! (i + j)%nat = Some c
              ∧ chunks' !! (i + j)%nat = Some (set_similarity (cos qe ce) c)).
Proof.
  revert i chunks sims.
  induction cembs as [|ce cembs IH]; intros i chunks sims Hlen; simpl in *.
  { exists chunks. rewrite app_nil_r. split_and!; [done|done|].
    intros j ce Hj. by rewrite lookup_nil in Hj. }
  destruct (lookup_lt_is_Some_2 chunks i) as [c Hc]; [lia|]. rewrite Hc.
  destruct (IH (S i) (<[i:=set_similarity (cos qe ce) c]> chunks)
              (sims ++ [(i, cos qe ce)])) as (chunks' & -> & Hlow & Hnew).
  { rewrite length_insert. lia. }
  exists chunks'. split_and!.
  - rewrite <-app_assoc. simpl. rewrite Nat.add_0_r. do 4 f_equal.
    apply imap_ext. intros j ce' _. simpl. f_equal. lia.
  - intros j Hj. rewrite Hlow by lia. apply list_lookup_insert_ne. lia.
  - intros [|j] ce' Hj; simpl in Hj.
    + injection Hj as <-. rewrite Nat.add_0_r. exists c. split; [done|].
      rewrite Hlow by lia. apply list_lookup_insert_eq.
      apply lookup_lt_is_Some. by exists c.
    + destruct (Hnew j ce' Hj) as (c' & Hc' & Hc'').
      replace (i + S j)%nat with (S i + j)%nat by lia.
      exists c'. split; [|done].
      rewrite list_lookup_insert_ne in Hc' by lia. done.
Qed.

Lemma score_chunks_raises qe i cembs chunks sims e :
  score_chunks dot norm qe i cembs chunks sims = inl e → e = IndexError.
Proof.
  revert i chunks sims.
  induction cembs as [|ce cembs IH]; intros i chunks sims; simpl; [done|].
  destruct (chunks !! i); [apply IH|]. by intros [= <-].
Qed.

(** What [rerank_chunks] computes once the model has answered: the scored
    candidates picked by the ranked indices. *)
Lemma rerank_chunks_run query chunks top_k (st st' : chroma) out :
  chunks ≠ [] →
  rerank_chunks encode dot norm query chunks top_k st = (st', out) →
  match out with
  | inl e => e = EncodeError ∨ e = IndexError
  | inr res =>
    ∃ qe rest cembs,
      encode [query] = Some (qe :: rest)
      ∧ encode (text <$> chunks) = Some cembs
      ∧ (length cembs ≤ length chunks)%nat
      ∧ res = (λ p : nat * pyfloat, set_similarity p.2 (chunks !!! p.1))
              <$> py_prefix top_k
                    (list_sort snd float_lt true
                       (imap (λ j ce, (j, cos qe ce)) cembs))
  end.
Proof.
  intros Hne. unfold rerank_chunks. destruct chunks as [|c0 chunks0]; [done|].
  cbv iota. set (chunks := c0 :: chunks0) in *.
  destruct (encode [query]) as [[|qe rest]|] eqn:Hq;
    [intros [= _ <-]; by right| |intros [= _ <-]; by left].
  destruct (encode (text <$> chunks)) as [cembs|] eqn:Hc;
    [|intros [= _ <-]; by left].
  destruct (score_chunks dot norm qe 0 cembs chunks []) as [e|[chunks' sims]] eqn:Hs.
  { intros [= _ <-]. right. by eapply score_chunks_raises. }
  pose proof (score_chunks_inr_length _ _ _ _ _ _ _ _ _ (Nat.le_0_l _) Hs) as Hlen.
  destruct (score_chunks_spec qe 0 cembs chunks []) as (chunks'' & Hs' & _ & Hnew);
    [done|]. rewrite Hs in Hs'. injection Hs' as <- ->. simpl app.
  set (sims := imap _ cembs).
  set (l := py_prefix top_k (list_sort snd float_lt true sims)).
  assert (mapM (λ p : nat * pyfloat, chunks' !! p.1) l
          = Some ((λ p : nat * pyfloat, set_similarity p.2 (chunks !!! p.1)) <$> l))
    as ->.
  { apply mapM_Some_2. apply Forall2_fmap_r, Forall_Forall2_diag, Forall_forall.
    intros p Hp. eapply elem_of_sublist in Hp; [|apply py_prefix_sublist].
    apply elem_of_list_sort in Hp. unfold sims in Hp.
    apply elem_of_lookup_imap in Hp as (j & ce & -> & Hj).
    destruct (Hnew j ce Hj) as (c & Hcj & Hcj'). simpl in *.
    rewrite Hcj'. by rewrite (list_lookup_total_correct _ _ _ Hcj). }
  intros [= _ <-]. exists qe, rest, cembs. by split_and!.
Qed.

(** With a model that answers with one vector per text, [rerank_chunks]
    returns. *)
Lemma rerank_chunks_returns query chunks top_k (st : chroma) qe rest cembs :
  encode [query] = Some (qe :: rest) →
  encode (text <$> chunks) = Some cembs →
  length cembs = length chunks →
  ∃ res, rerank_chunks encode dot norm query chunks top_k st = (st, inr res).
Proof.
  intros Hq Hc Hlen. destruct chunks as [|c0 chunks0]; [by eexists|].
  unfold rerank_chunks. cbv iota.
  set (chunks := c0 :: chunks0) in *. rewrite Hq, Hc.
  destruct (score_chunks_spec qe 0 cembs chunks []) as (chunks' & -> & _ & Hnew);
    [rewrite Hlen; apply Nat.le_refl|]. simpl app.
  destruct (mapM _ _) as [res|] eqn:Hm; [by eexists|].
  exfalso. apply eq_None_not_Some in Hm. apply Hm, mapM_is_Some, Forall_forall.
  intros p Hp. eapply elem_of_sublist in Hp; [|apply py_prefix_sublist].
  apply elem_of_list_sort, elem_of_lookup_imap in Hp as (j & ce & -> & Hj).
  destruct (Hnew j ce Hj) as (c & _ & Hcj'). simpl in *. by eexists.
Qed.

(** The ranked scores are in non-increasing order when none is nan. *)
Lemma ranked_similarity_desc qe (chunks : list result) cembs top_k :
  Forall (λ ce, cos qe ce ≠ NaN) cembs →
  StronglySorted similarity_desc
    ((λ p : nat * pyfloat, set_similarity p.2 (chunks !!! p.1))
     <$> py_prefix top_k
           (list_sort snd float_lt true (imap (λ j ce, (j, cos qe ce)) cembs))).
Proof.
  intros Hnum.
  apply (StronglySorted_fmap _ (λ p p' : nat * pyfloat, float_le p'.2 p.2));
    [by intros p p'|].
  eapply StronglySorted_sublist; [apply py_prefix_sublist|].
  apply sort_similarities_StronglySorted, Forall_forall.
  intros p (j & ce & -> & Hj)%elem_of_lookup_imap. simpl.
  eapply Forall_forall in Hnum; [done|]. by eapply list_elem_of_lookup_2.
Qed.

End Reranking.

(** ** Retrieval by intent *)

Section Intent.
Context (encode : list string → option (list vec)).
Context (knn_query : list item → vec → Z → option (list hit)).
Context (dot : vec → vec → Q) (norm : vec → Q).

Lemma rerank_chunks_length query chunks top_k (st st' : chroma) res :
  0 ≤ top_k →
  rerank_chunks encode dot norm query chunks top_k st = (st', inr res) →
  Z.of_nat (length res) ≤ top_k.
Proof.
  intros Hk. unfold rerank_chunks. destruct chunks as [|c0 chunks0].
  { intros [= _ <-]. simpl. lia. }
  destruct (encode [query]) as [[|qe ?]|]; [done| |done].
  destruct (encode _) as [cembs|]; [|done].
  destruct (score_chunks _ _ _ _ _ _ _) as [?|[chunks' sims]]; [done|].
  destruct (mapM _ _) as [reranked|] eqn:Hmap; [|done].
  intros [= _ <-]. apply mapM_Some_1, Forall2_length in Hmap. rewrite <-Hmap.
  rewrite py_prefix_nonneg, length_take by done. lia.
Qed.

Lemma retrieve_context_run doc_id query intent (st : chroma) :
  retrieve_context encode knn_query dot norm doc_id query intent st =
  match hybrid_search encode knn_query doc_id query 20 st with
  | (st1, inl e) => (st1, inl e)
  | (st1, inr []) => (st1, inr [])
  | (st1, inr chunks) =>
    rerank_chunks encode dot norm query chunks
      (if decide (intent = "document") then 5 else 3) st1
  end.
Proof.
  unfold retrieve_context. rewrite bind_run.
  destruct (hybrid_search _ _ _ _ _ _) as [st1 [e|[|c0 chunks0]]]; try done.
  by repeat case_decide.
Qed.

(** C2: [retrieve_context] returns at most 5 entries for the intent
    "document" and at most 3 for "section" and for "fact"; any intent
    other than "document" and "section" gives what "fact" gives, outcome
    and state alike, so no intent is rejected. *)
Theorem retrieve_context_depth doc_id query (st : chroma) :
  (∀ st' res,
     retrieve_context encode knn_query dot norm doc_id query "document" st
     = (st', inr res) → (length res ≤ 5)%nat)
  ∧ (∀ st' res,
       retrieve_context encode knn_query dot norm doc_id query "section" st
       = (st', inr res) → (length res ≤ 3)%nat)
  ∧ (∀ st' res,
       retrieve_context encode knn_query dot norm doc_id query "fact" st
       = (st', inr res) → (length res ≤ 3)%nat)
  ∧ (∀ intent, intent ≠ "document" → intent ≠ "section" →
       retrieve_context encode knn_query dot norm doc_id query intent st
       = retrieve_context encode knn_query dot norm doc_id query "fact" st).
Proof.
  assert (∀ intent st' res,
    retrieve_context encode knn_query dot norm doc_id query intent st
    = (st', inr res) →
    Z.of_nat (length res) ≤ (if decide (intent = "document") then 5 else 3))
    as Hdepth.
  { intros intent st' res. rewrite retrieve_context_run.
    destruct (hybrid_search _ _ _ _ _ _) as [st1 [e|[|c0 chunks0]]]; [done| |].
    - intros [= _ <-]. simpl. case_decide; lia.
    - intros Hrun. apply rerank_chunks_length in Hrun; [done|].
      case_decide; lia. }
  split_and!.
  - intros st' res Hrun%Hdepth. rewrite decide_True in Hrun by done. lia.
  - intros st' res Hrun%Hdepth. rewrite decide_False in Hrun by done. lia.
  - intros st' res Hrun%Hdepth. rewrite decide_False in Hrun by done. lia.
  - intros intent H1 H2. rewrite !retrieve_context_run.
    by rewrite !decide_False.
Qed.
End Intent.

(** ** Storing a document *)

Global Instance doc_collection_name_inj : Inj (=) (=) doc_collection_name.
Proof.
  intros d1 d2 H. unfold doc_collection_name in H.
  apply (inj (String.app "doc_")) in H. by apply (inj pretty) in H.
Qed.

Lemma chunk_ids_NoDup n : NoDup (chunk_ids n).
Proof.
  unfold chunk_ids. apply NoDup_fmap_2_strong; [|apply NoDup_seq].
  intros i j _ _ Hij. apply (inj (String.app "chunk_")) in Hij.
  by apply (inj pretty) in Hij.
Qed.

Lemma length_chunk_ids n : length (chunk_ids n) = n.
Proof. unfold chunk_ids. by rewrite length_fmap, length_seq. Qed.

Lemma make_items_ids ids embeddings documents metadatas :
  length embeddings = length ids →
  length documents = length ids →
  length metadatas = length ids →
  item_id <$> make_items ids embeddings documents metadatas = ids.
Proof.
  unfold make_items. revert embeddings documents metadatas.
  induction ids as [|i ids IH]; intros [|e es] [|d ds] [|m ms] ???;
    simplify_eq/=; [done|]. f_equal. by apply IH.
Qed.

Section Storing.
Context (split_text : string → list string).
Context (encode : list string → option (list vec)).
Context (clash : on_clash).

Local Abbreviation store := (store_document split_text encode clash).

(** The first thing [store_document] does is to fetch or create the
    collection; with no chunk it returns there. *)
Lemma store_document_without_chunks doc_id text md (st : chroma) :
  split_text text = [] →
  store doc_id text md st =
  match st !! doc_collection_name doc_id with
  | Some _ => (st, inr (doc_collection_name doc_id))
  | None =>
    (<[doc_collection_name doc_id :=
         Collection {[ "doc_id" := MStr (pretty doc_id) ]} []]> st,
     inr (doc_collection_name doc_id))
  end.
Proof.
  intros Hsplit. unfold store_document, chunk_document. rewrite Hsplit.
  rewrite bind_run. unfold try_except, get_collection, create_collection.
  by destruct (st !! doc_collection_name doc_id) as [c|] eqn:Hc; rewrite ?Hc.
Qed.

(** C10: storing a text that gives no chunk under a document without a
    collection returns the collection name and leaves an empty collection
    behind, which [get_collection_stats] then reports as existing with no
    chunk and without an error. *)
Theorem store_document_no_chunks doc_id text md (st : chroma) :
  st !! doc_collection_name doc_id = None →
  split_text text = [] →
  ∃ st' c,
    store doc_id text md st = (st', inr (doc_collection_name doc_id))
    ∧ st' !! doc_collection_name doc_id = Some c
    ∧ coll_items c = []
    ∧ get_collection_stats doc_id st'
      = (st', inr (Stats (doc_collection_name doc_id) 0 true None)).
Proof.
  intros Hc Hsplit. rewrite store_document_without_chunks, Hc by done.
  eexists _, _. split_and!; [done|apply lookup_insert_eq|done|].
  unfold get_collection_stats, try_except. rewrite bind_run.
  erewrite get_collection_Some by apply lookup_insert_eq.
  rewrite bind_run. unfold collection_count. by rewrite lookup_insert_eq.
Qed.

(** [Collection.add] either raises and changes nothing, or appends the
    records whose ids the collection does not hold yet. *)
Lemma collection_add_cases name c ids embeddings documents metadatas (st : chroma) :
  st !! name = Some c →
  (∃ e, collection_add clash name ids embeddings documents metadatas st = (st, inl e))
  ∨ (item_id <$> make_items ids embeddings documents metadatas = ids
     ∧ collection_add clash name ids embeddings documents metadatas st
       = (<[name := Collection (coll_metadata c)
              (coll_items c
               ++ filter (λ it, item_id it ∉ stored_ids c)
                    (make_items ids embeddings documents metadatas))]> st,
          inr ())).
Proof.
  intros Hc. unfold collection_add. rewrite Hc.
  case_bool_decide as Hlen; [|left; by eexists]. destruct Hlen as (? & ? & ?).
  case_bool_decide; [|left; by eexists]. cbn [negb].
  destruct clash; [right; split; [by apply make_items_ids|done]|].
  destruct (filter (λ it, item_id it ∈ stored_ids c) _) as [|it ?];
    [right; split; [by apply make_items_ids|done]|left; by eexists].
Qed.

Lemma store_document_creates doc_id text md (st : chroma) :
  st !! doc_collection_name doc_id = None →
  store doc_id text md st
  = store doc_id text md
      (<[doc_collection_name doc_id :=
           Collection {[ "doc_id" := MStr (pretty doc_id) ]} []]> st).
Proof.
  intros Hc. unfold store_document. rewrite !bind_run. unfold try_except.
  rewrite get_collection_None by done.
  erewrite get_collection_Some by apply lookup_insert_eq.
  unfold create_collection. by rewrite Hc.
Qed.

(** With its collection present and chunks to store, [store_document]
    either raises and changes nothing, or returns the collection name
    having added the records with fresh ids among [chunk_0], [chunk_1],
    ... *)
Lemma store_document_cases doc_id text md (st : chroma) c :
  st !! doc_collection_name doc_id = Some c →
  split_text text ≠ [] →
  (∃ e, store doc_id text md st = (st, inl e))
  ∨ (∃ new,
       item_id <$> new = chunk_ids (length (split_text text))
       ∧ store doc_id text md st
         = (<[doc_collection_name doc_id := Collection (coll_metadata c)
                (coll_items c ++ filter (λ it, item_id it ∉ stored_ids c) new)]> st,
            inr (doc_collection_name doc_id))).
Proof.
  intros Hc Hsplit. unfold store_document, chunk_document. rewrite bind_run.
  unfold try_except. erewrite get_collection_Some by done.
  destruct (split_text text) as [|ch chunks]; [done|].
  rewrite bind_run. unfold create_embeddings.
  destruct (encode _) as [embeddings|]; [|left; by eexists].
  rewrite ret_run, bind_run.
  edestruct (collection_add_cases (doc_collection_name doc_id)) as [[e ->]|[Hids ->]];
    [done|left; by eexists|].
  right. by eexists.
Qed.

Lemma filter_not_stored_nil (l : list item) :
  filter (λ it, item_id it ∉ @nil string) l = l.
Proof.
  induction l as [|it l IH]; [done|].
  rewrite filter_cons_True; [by f_equal|apply not_elem_of_nil].
Qed.

(** A first store with chunks files them under the ids [chunk_0],
    [chunk_1], ... *)
Lemma store_document_first doc_id text md (st st1 : chroma) name :
  st !! doc_collection_name doc_id = None →
  split_text text ≠ [] →
  store doc_id text md st = (st1, inr name) →
  ∃ c1, st1 !! doc_collection_name doc_id = Some c1
        ∧ stored_ids c1 = chunk_ids (length (split_text text)).
Proof.
  intros Hc Hsplit. rewrite store_document_creates by done.
  edestruct (store_document_cases doc_id text md) as [[e ->]|(new & Hids & ->)];
    [apply lookup_insert_eq|done|done|].
  intros [= <- _]. eexists. split; [apply lookup_insert_eq|].
  unfold stored_ids at 1. cbn [coll_items app].
  etrans; [|exact Hids]. f_equal. apply filter_not_stored_nil.
Qed.

(** C3 fails on the code: a second store under the same document passes
    the ids [chunk_0], [chunk_1], ... again. The collection holds one record
    per id, so whether the call returns or raises, fewer records are held
    afterwards than the two texts have chunks. *)
Theorem store_document_again_collides doc_id text1 md1 text2 md2
    (st st1 st2 : chroma) name out2 :
  st !! doc_collection_name doc_id = None →
  split_text text1 ≠ [] →
  split_text text2 ≠ [] →
  store doc_id text1 md1 st = (st1, inr name) →
  store doc_id text2 md2 st1 = (st2, out2) →
  ∃ c1 c2,
    st1 !! doc_collection_name doc_id = Some c1
    ∧ st2 !! doc_collection_name doc_id = Some c2
    ∧ stored_ids c1 = chunk_ids (length (split_text text1))
    ∧ "chunk_0" ∈ stored_ids c1
    ∧ "chunk_0" ∈ chunk_ids (length (split_text text2))
    ∧ (length (coll_items c2)
       < length (split_text text1) + length (split_text text2))%nat.
Proof.
  intros Hc Hn1 Hn2 Hrun1 Hrun2.
  destruct (store_document_first _ _ _ _ _ _ Hc Hn1 Hrun1) as (c1 & Hc1 & Hids1).
  assert (∀ l : list string, l ≠ [] → "chunk_0" ∈ chunk_ids (length l)) as Hzero.
  { intros [|? l] ?; [done|]. apply list_elem_of_here. }
  assert (length (coll_items c1) = length (split_text text1)) as Hlen1.
  { rewrite <-(length_fmap item_id). fold (stored_ids c1).
    by rewrite Hids1, length_chunk_ids. }
  assert (0 < length (split_text text2))%nat.
  { destruct (split_text text2); [done|simpl; lia]. }
  exists c1.
  destruct (store_document_cases doc_id text2 md2 st1 c1 Hc1 Hn2)
    as [[e He]|(new & Hids & Hrun)].
  - rewrite He in Hrun2. injection Hrun2 as <- _. exists c1.
    split_and!; [done|done|done|rewrite Hids1; by apply Hzero|by apply Hzero|lia].
  - rewrite Hrun in Hrun2. injection Hrun2 as <- _. eexists.
    split_and!; [done|apply lookup_insert_eq|done|rewrite Hids1; by apply Hzero
                |by apply Hzero|].
    cbn [coll_items]. rewrite length_app, Hlen1.
    apply Nat.add_lt_mono_l.
    assert (length new = length (split_text text2)) as <-.
    { by rewrite <-(length_fmap item_id), Hids, length_chunk_ids. }
    assert ("chunk_0" ∈ item_id <$> new) as (it & Hit & Hin)%list_elem_of_fmap.
    { rewrite Hids. by apply Hzero. }
    eapply length_filter_lt; [done|]. rewrite <-Hit, Hids1.
    intros []. by apply Hzero.
Qed.

(** [store_document] touches the collection of its own document only. *)
Lemma store_document_frame doc_id text md (st st' : chroma) out name :
  store doc_id text md st = (st', out) →
  name ≠ doc_collection_name doc_id →
  st' !! name = st !! name.
Proof.
  intros Hrun Hname.
  destruct (split_text text) as [|ch chunks] eqn:Hsplit.
  { rewrite store_document_without_chunks in Hrun by done.
    destruct (st !! doc_collection_name doc_id); injection Hrun as <- _;
      [done|]. by rewrite lookup_insert_ne. }
  assert (split_text text ≠ []) as Hne by (by rewrite Hsplit).
  destruct (st !! doc_collection_name doc_id) as [c|] eqn:Hc.
  - destruct (store_document_cases doc_id text md st c Hc Hne)
      as [[e He]|(new & _ & He)]; rewrite He in Hrun; injection Hrun as <- _;
      [done|]. by rewrite lookup_insert_ne.
  - rewrite store_document_creates in Hrun by done.
    edestruct (store_document_cases doc_id text md) as [[e He]|(new & _ & He)];
      [apply lookup_insert_eq|done| |]; rewrite He in Hrun;
      injection Hrun as <- _; by rewrite !lookup_insert_ne.
Qed.

End Storing.

(** ** The chunker *)

Lemma lstrip_length s : (length (lstrip s) ≤ length s)%nat.
Proof. induction s as [|a s IH]; simpl; [done|]. destruct (is_space a); simpl; lia. Qed.

Lemma lstrip_blank s : lstrip s = [] ↔ blank s.
Proof.
  unfold blank. induction s as [|a s IH]; simpl.
  - split; [constructor|done].
  - destruct (is_space a) eqn:Ha.
    + rewrite IH. split; [by constructor|by inversion 1].
    + split; [done|]. inversion 1. congruence.
Qed.

Lemma lstrip_suffix s : lstrip s `suffix_of` s.
Proof.
  induction s as [|a s IH]; simpl; [done|].
  destruct (is_space a); [by apply suffix_cons_r|done].
Qed.

Lemma strip_length s : (length (strip s) ≤ length s)%nat.
Proof.
  unfold strip. rewrite length_reverse.
  etrans; [apply lstrip_length|]. rewrite length_reverse. apply lstrip_length.
Qed.

Lemma strip_blank s : strip s = [] ↔ blank s.
Proof.
  unfold strip. split.
  - intros Hs. apply (f_equal reverse) in Hs. rewrite reverse_involutive in Hs.
    simpl in Hs. apply lstrip_blank in Hs. unfold blank in Hs.
    rewrite Forall_reverse in Hs. apply lstrip_blank in Hs.
    destruct (lstrip_suffix s) as [k Hk].
    assert (blank (lstrip s)) as Hl.
    { apply lstrip_blank. by rewrite Hs. }
    apply lstrip_blank. clear Hk Hs.
    induction s as [|a s IH]; simpl in *; [done|].
    destruct (is_space a) eqn:Ha; [by apply IH|].
    inversion Hl. congruence.
  - intros Hs. apply lstrip_blank in Hs. by rewrite Hs.
Qed.

Lemma concat_filter_nonempty {A} (l : list (list A)) :
  concat (filter (λ s, s ≠ []) l) = concat l.
Proof.
  induction l as [|s l IH]; [done|]. rewrite filter_cons. case_decide; simpl.
  - by rewrite IH.
  - destruct s; [|done]. by rewrite IH.
Qed.

Lemma split_go_concat sep skip cur text :
  sep ≠ [] → concat (split_go sep skip cur text) = cur ++ drop skip text.
Proof.
  intros Hsep. revert skip cur.
  induction text as [|a text IH]; intros skip cur; simpl.
  { by rewrite drop_nil, !app_nil_r. }
  destruct skip as [|skip]; [|apply IH].
  case_decide as Hpre; simpl.
  - rewrite IH. f_equal. destruct Hpre as [rest Hrest].
    destruct sep as [|b sep]; [done|]. simpl in *. injection Hrest as -> ->.
    rewrite Nat.sub_0_r. f_equal. by rewrite drop_app_length.
  - rewrite IH. by rewrite <-app_assoc.
Qed.

Lemma split_keep_concat sep text : concat (split_keep sep text) = text.
Proof.
  unfold split_keep. rewrite concat_filter_nonempty. destruct sep as [|b sep].
  - induction text as [|a text IH]; simpl; [done|]. by f_equal.
  - by rewrite split_go_concat.
Qed.

Lemma split_keep_nonempty sep text : Forall (λ s, s ≠ []) (split_keep sep text).
Proof.
  unfold split_keep. apply Forall_forall. by intros s [? _]%list_elem_of_filter.
Qed.

Lemma split_keep_chars text :
  Forall (λ s, length s = 1%nat) (split_keep [] text).
Proof.
  unfold split_keep. apply Forall_forall.
  intros s [_ (a & -> & _)%list_elem_of_fmap]%list_elem_of_filter. done.
Qed.

Lemma length_concat_elem {A} (l : list (list A)) s :
  s ∈ l → (length s ≤ length (concat l))%nat.
Proof.
  induction 1 as [s l|s s' l _ IH]; simpl; rewrite length_app; lia.
Qed.

Section ChunkerFacts.
Context (chunk_size chunk_overlap : nat).

Local Abbreviation pop := (pop_overlap chunk_size chunk_overlap).
Local Abbreviation merge := (merge_splits chunk_size chunk_overlap).
Local Abbreviation collect := (collect_splits chunk_size chunk_overlap).
Local Abbreviation cascade := (split_text_rec chunk_size chunk_overlap).

Lemma total_length_app docs1 docs2 :
  total_length (docs1 ++ docs2) = (total_length docs1 + total_length docs2)%nat.
Proof. unfold total_length. by rewrite concat_app, length_app. Qed.

Lemma total_length_singleton d : total_length [d] = length d.
Proof. unfold total_length. simpl. by rewrite app_nil_r. Qed.

Lemma join_docs_length docs :
  Forall (λ c, (length c ≤ total_length docs)%nat) (join_docs docs).
Proof.
  unfold join_docs, total_length.
  pose proof (strip_length (concat docs)).
  destruct (strip (concat docs)); by repeat constructor.
Qed.

Lemma join_docs_blank docs : Forall blank docs → join_docs docs = [].
Proof.
  intros Hdocs. unfold join_docs.
  assert (strip (concat docs) = []) as ->; [|done].
  apply strip_blank. unfold blank in *. by apply Forall_concat.
Qed.

Lemma join_docs_concat docs1 docs2 :
  concat docs1 = concat docs2 → join_docs docs1 = join_docs docs2.
Proof. unfold join_docs. by intros ->. Qed.

Lemma join_docs_text text :
  join_docs [text] = if decide (blank text) then [] else [strip text].
Proof.
  unfold join_docs. simpl. rewrite app_nil_r.
  destruct (strip text) as [|a s] eqn:Hs.
  - apply strip_blank in Hs. by rewrite decide_True.
  - rewrite decide_False; [done|]. intros Hb%strip_blank. congruence.
Qed.

Lemma pop_overlap_fits len current_doc :
  (total_length (pop len current_doc) + len ≤ chunk_size)%nat
  ∨ total_length (pop len current_doc) = 0%nat.
Proof.
  induction current_doc as [|d docs IH]; [by right|].
  cbn [pop_overlap].
  destruct (_ || _) eqn:Hcond; [done|].
  apply orb_false_iff in Hcond as [_ Hcond].
  apply andb_false_iff in Hcond as [Hcond|Hcond].
  - left. apply Nat.ltb_ge in Hcond. done.
  - right. apply Nat.ltb_ge in Hcond. lia.
Qed.

Lemma pop_overlap_suffix len current_doc :
  pop len current_doc `suffix_of` current_doc.
Proof.
  induction current_doc as [|d docs IH]; [done|].
  cbn [pop_overlap]. destruct (_ || _); [by apply suffix_cons_r|done].
Qed.

(** Segments that fit together are joined into one chunk. *)
Lemma merge_splits_fits current_doc splits :
  (total_length (current_doc ++ splits) ≤ chunk_size)%nat →
  merge current_doc splits = join_docs (current_doc ++ splits).
Proof.
  revert current_doc. induction splits as [|d splits IH]; intros cur Hfit; simpl.
  { by rewrite app_nil_r. }
  rewrite total_length_app in Hfit.
  change (d :: splits) with ([d] ++ splits) in Hfit.
  rewrite total_length_app, total_length_singleton in Hfit.
  destruct (chunk_size <? _)%nat eqn:Hover.
  { apply Nat.ltb_lt in Hover. lia. }
  rewrite IH; [by rewrite <-app_assoc|].
  rewrite !total_length_app, total_length_singleton. lia.
Qed.

(** No merged chunk is longer than the size. *)
Lemma merge_splits_bounded current_doc splits :
  (total_length current_doc ≤ chunk_size)%nat →
  Forall (λ d, (length d ≤ chunk_size)%nat) splits →
  Forall (λ c, (length c ≤ chunk_size)%nat) (merge current_doc splits).
Proof.
  intros Hcur Hsplits. revert current_doc Hcur.
  induction Hsplits as [|d splits Hd Hsplits IH]; intros cur Hcur; simpl.
  { eapply Forall_impl; [apply join_docs_length|]. simpl. intros; lia. }
  destruct (chunk_size <? _)%nat eqn:Hover.
  - destruct cur as [|d0 cur0].
    + apply IH. by rewrite total_length_singleton.
    + apply Forall_app. split.
      * eapply Forall_impl; [apply join_docs_length|]. simpl. intros; lia.
      * apply IH. rewrite total_length_app, total_length_singleton.
        destruct (pop_overlap_fits (length d) (d0 :: cur0)); lia.
  - apply Nat.ltb_ge in Hover. apply IH.
    rewrite total_length_app, total_length_singleton. lia.
Qed.

(** Blank segments give no chunk. *)
Lemma merge_splits_blank current_doc splits :
  Forall blank current_doc → Forall blank splits →
  merge current_doc splits = [].
Proof.
  intros Hcur Hsplits. revert current_doc Hcur.
  induction Hsplits as [|d splits Hd Hsplits IH]; intros cur Hcur; simpl.
  { by apply join_docs_blank. }
  destruct (chunk_size <? _)%nat.
  - destruct cur as [|d0 cur0].
    + apply IH. by constructor.
    + rewrite join_docs_blank by done. simpl. apply IH.
      apply Forall_app. split; [|by constructor].
      destruct (pop_overlap_suffix (length d) (d0 :: cur0)) as [k Hk].
      rewrite Hk in Hcur. by apply Forall_app in Hcur as [_ ?].
  - apply IH. apply Forall_app. split; [done|by constructor].
Qed.

(** One cascade level, for a property [Q] of chunks that merging segments
    with property [G] ensures. *)
Lemma collect_splits_Forall (Q G : list ascii → Prop) retry good_splits splits :
  (∀ good, Forall G good → Forall Q (merge [] good)) →
  Forall (λ s, if (length s <? chunk_size)%nat then G s
               else match retry with
                    | None => Q s
                    | Some next => Forall Q (next s)
                    end) splits →
  Forall G good_splits →
  Forall Q (collect retry good_splits splits).
Proof.
  intros Hmerge Hsplits. revert good_splits.
  induction Hsplits as [|s splits Hs Hsplits IH]; intros good Hgood; simpl.
  { by apply Hmerge. }
  destruct (length s <? chunk_size)%nat.
  - apply IH. apply Forall_app. split; [done|by constructor].
  - rewrite !Forall_app. split_and!; [by apply Hmerge| |by apply IH].
    destruct retry; [done|by constructor].
Qed.

Lemma collect_splits_short retry good_splits splits :
  Forall (λ s, (length s < chunk_size)%nat) splits →
  collect retry good_splits splits = merge [] (good_splits ++ splits).
Proof.
  intros Hsplits. revert good_splits.
  induction Hsplits as [|s splits Hs Hsplits IH]; intros good; simpl.
  { by rewrite app_nil_r. }
  apply Nat.ltb_lt in Hs. rewrite Hs, IH. by rewrite <-app_assoc.
Qed.

Section Cascade.
Context (T G Q : list ascii → Prop).
Context (Hsize : (1 < chunk_size)%nat).
Context (HT : ∀ l, T (concat l) → Forall T l).
Context (HG : ∀ s, T s → (length s < chunk_size)%nat → G s).
Context (Hmerge : ∀ good, Forall G good → Forall Q (merge [] good)).

Lemma cascade_level retry sep text :
  T text →
  (retry = None → sep = []) →
  (∀ next s, retry = Some next → T s → Forall Q (next s)) →
  Forall Q (collect retry [] (split_keep sep text)).
Proof.
  intros Htext Hlast Hnext.
  apply (collect_splits_Forall Q G); [done| |constructor].
  assert (Forall T (split_keep sep text)) as Hpieces.
  { apply HT. by rewrite split_keep_concat. }
  apply Forall_forall. intros s Hs.
  eapply Forall_forall in Hpieces; [|done].
  destruct (length s <? chunk_size)%nat eqn:Hshort.
  { apply Nat.ltb_lt in Hshort. by apply HG. }
  apply Nat.ltb_ge in Hshort. destruct retry as [next|]; [by eapply Hnext|].
  rewrite Hlast in Hs by done.
  pose proof (split_keep_chars text) as Hchars.
  eapply Forall_forall in Hchars; [|done]. lia.
Qed.

Lemma cascade_Forall seps text :
  [] ∈ seps → T text → Forall Q (cascade seps text).
Proof.
  revert text. induction seps as [|sep seps IH]; intros text Hin Htext.
  { constructor. }
  destruct seps as [|sep2 seps].
  { apply list_elem_of_singleton in Hin as <-. simpl.
    by apply cascade_level. }
  cbn [split_text_rec]. case_decide as Hsep.
  { by apply cascade_level. }
  assert ([] ∈ sep2 :: seps) as Hin'.
  { apply elem_of_cons in Hin as [?|?]; done. }
  destruct (occurs sep text); [|by apply IH].
  apply cascade_level; [done|done|].
  intros next s [= <-] Hs. by apply IH.
Qed.
End Cascade.

(** A text shorter than the size is one candidate chunk, whatever the
    separators. *)
Lemma cascade_short seps text :
  seps ≠ [] → (length text < chunk_size)%nat →
  cascade seps text = join_docs [text].
Proof.
  intros Hseps Hlen.
  assert (∀ retry sep,
    collect retry [] (split_keep sep text) = join_docs [text]) as Hlevel.
  { intros retry sep. rewrite collect_splits_short; cycle 1.
    { apply Forall_forall. intros s Hs%length_concat_elem.
      rewrite split_keep_concat in Hs. lia. }
    rewrite merge_splits_fits; cycle 1.
    { unfold total_length. simpl. rewrite split_keep_concat. lia. }
    apply join_docs_concat. simpl. by rewrite split_keep_concat, app_nil_r. }
  induction seps as [|sep seps IH]; [done|].
  destruct seps as [|sep2 seps]; [apply Hlevel|].
  cbn [split_text_rec]. case_decide; [apply Hlevel|].
  destruct (occurs sep text); [apply Hlevel|by apply IH].
Qed.
End ChunkerFacts.

Lemma length_string_of_list_ascii (s : list ascii) :
  String.length (String.string_of_list_ascii s) = length s.
Proof. induction s as [|a s IH]; simpl; [done|by f_equal]. Qed.

Lemma length_list_ascii_of_string (s : string) :
  length (String.list_ascii_of_string s) = String.length s.
Proof. induction s as [|a s IH]; simpl; [done|by f_equal]. Qed.

Lemma separators_has_empty : [] ∈ separators.
Proof. unfold separators. simpl. repeat constructor. Qed.

(** C8: a blank text gives no chunk; a text of fewer than 1000 characters,
    blank texts being settled by the first clause, gives exactly one chunk;
    and no chunk is longer than 1000 characters. The last separator of the
    cascade is the empty string, which cuts between any two characters, so
    no segment is indivisible and the bound has no exception. *)
Theorem chunk_document_sizes (text : string) :
  (whitespace_only text → chunk_document split_text text = [])
  ∧ (¬ whitespace_only text → (String.length text < 1000)%nat →
     ∃ chunk, chunk_document split_text text = [chunk])
  ∧ Forall (λ chunk, (String.length chunk ≤ 1000)%nat)
      (chunk_document split_text text).
Proof.
  unfold chunk_document, split_text, whitespace_only. split_and!.
  - intros Hblank.
    assert (Forall (λ _, False) (split_text_rec 1000 200 separators
              (String.list_ascii_of_string text))) as Hnone.
    { apply (cascade_Forall 1000 200 blank blank (λ _, False)); try done.
      - lia.
      - intros l. unfold blank. by rewrite Forall_concat.
      - intros good Hgood. by rewrite merge_splits_blank.
      - apply separators_has_empty. }
    destruct (split_text_rec _ _ _ _) as [|c ?]; [done|]. by inversion Hnone.
  - intros Hblank Hlen. rewrite cascade_short; [|done|].
    + rewrite join_docs_text, decide_False by done. by eexists.
    + by rewrite length_list_ascii_of_string.
  - apply Forall_fmap.
    eapply Forall_impl;
      [apply (cascade_Forall 1000 200 (λ _, True) (λ s, (length s ≤ 1000)%nat)
                (λ c, (length c ≤ 1000)%nat))|].
    + lia.
    + intros l _. by apply Forall_true.
    + intros s _ ?. lia.
    + intros good Hgood. apply merge_splits_bounded; [|done].
      unfold total_length. cbn [concat length]. lia.
    + apply separators_has_empty.
    + done.
    + intros c Hc. simpl. by rewrite length_string_of_list_ascii.
Qed.

(** ** The claims on concrete runs *)

Lemma hybrid_search_unique_nearest_witness :
  1 ≤ 20
  ∧ hybrid_search count_encode exact_query 1 "alpha" 20 demo_store
    = (demo_store, inr demo_results)
  ∧ NoDup (id <$> demo_results)
  ∧ StronglySorted by_distance demo_results
  ∧ Z.of_nat (length demo_results) ≤ 20
  ∧ (∀ items e hits, exact_query items e 0 = Some hits → hits = [])
  ∧ hybrid_search count_encode exact_query 1 "alpha" 0 demo_store
    = (demo_store, inr [])
  ∧ Z.of_nat (length (@nil result)) ≤ 0.
Proof.
  assert (hybrid_search count_encode exact_query 1 "alpha" 20 demo_store
          = (demo_store, inr demo_results)) as Hrun by (vm_compute; reflexivity).
  assert (hybrid_search count_encode exact_query 1 "alpha" 0 demo_store
          = (demo_store, inr [])) as Hrun0 by (vm_compute; reflexivity).
  assert (1 ≤ 20) as Hk by lia.
  assert (0 ≤ 0) as Hk0 by lia.
  assert (∀ items e hits, exact_query items e 0 = Some hits → hits = []) as Hnone
    by (intros items e hits; discriminate).
  destruct (hybrid_search_unique_nearest count_encode exact_query
              1 "alpha" 20 demo_store demo_store demo_results Hrun)
    as (Hnodup & Hsorted & Hlen & _).
  destruct (hybrid_search_unique_nearest count_encode exact_query
              1 "alpha" 0 demo_store demo_store [] Hrun0)
    as (_ & _ & _ & Hlen0 & _).
  split; [exact Hk|]. split; [exact Hrun|]. split; [exact Hnodup|].
  split; [exact Hsorted|]. split; [exact (Hlen Hk)|]. split; [exact Hnone|].
  split; [exact Hrun0|exact (Hlen0 Hk0 Hnone)].
Defined.

Lemma retrieve_context_depth_witness :
  ∃ res,
    retrieve_context count_encode exact_query dot_product l1_norm
      1 "alpha" "document" demo_store = (demo_store, inr res)
    ∧ (length res ≤ 5)%nat
    ∧ "summary" ≠ "document" ∧ "summary" ≠ "section"
    ∧ retrieve_context count_encode exact_query dot_product l1_norm
        1 "alpha" "summary" demo_store
      = retrieve_context count_encode exact_query dot_product l1_norm
          1 "alpha" "fact" demo_store.
Proof.
  destruct (retrieve_context_depth count_encode exact_query dot_product l1_norm
              1 "alpha" demo_store) as (Hdoc & _ & _ & Hother).
  assert ("summary" ≠ "document") as H1 by discriminate.
  assert ("summary" ≠ "section") as H2 by discriminate.
  eexists. split; [vm_compute; reflexivity|].
  split; [eapply Hdoc; vm_compute; reflexivity|].
  split; [exact H1|]. split; [exact H2|]. exact (Hother "summary" H1 H2).
Defined.

Lemma store_document_again_collides_witness :
  ∃ st1 st2 c2,
    (∅ : chroma) !! doc_collection_name 1 = None
    ∧ split_text "alpha" ≠ []
    ∧ split_text "beta gamma" ≠ []
    ∧ store_document split_text count_encode ClashIgnored 1 "alpha" None ∅
      = (st1, inr "doc_1")
    ∧ store_document split_text count_encode ClashIgnored 1 "beta gamma" None st1
      = (st2, inr "doc_1")
    ∧ st2 !! doc_collection_name 1 = Some c2
    ∧ (length (coll_items c2) < 1 + 1)%nat.
Proof.
  assert ((∅ : chroma) !! doc_collection_name 1 = None) as Hc by reflexivity.
  assert (split_text "alpha" ≠ []) as Hn1 by (vm_compute; discriminate).
  assert (split_text "beta gamma" ≠ []) as Hn2 by (vm_compute; discriminate).
  destruct (store_document split_text count_encode ClashIgnored 1 "alpha" None ∅)
    as [st1 out1] eqn:Hrun1.
  assert (out1 = inr "doc_1") as ->.
  { apply (f_equal snd) in Hrun1. vm_compute in Hrun1. by symmetry. }
  destruct (store_document split_text count_encode ClashIgnored 1 "beta gamma" None st1)
    as [st2 out2] eqn:Hrun2.
  assert (out2 = inr "doc_1") as Hout2.
  { apply (f_equal fst) in Hrun1. simpl in Hrun1. subst st1.
    apply (f_equal snd) in Hrun2. vm_compute in Hrun2. by symmetry. }
  destruct (store_document_again_collides split_text count_encode ClashIgnored
              1 "alpha" None "beta gamma" None ∅ st1 st2 "doc_1" out2
              Hc Hn1 Hn2 Hrun1 Hrun2) as (c1 & c2 & _ & Hc2 & _ & _ & _ & Hlen).
  exists st1, st2, c2. rewrite <-Hout2. by repeat split.
Defined.

(** C3 on a run: two stores of one chunk each leave one record, whether the
    second [add] is ignored or rejected. *)
Lemma store_document_twice_one_record :
  Forall (λ clash,
    let st1 := (store_document split_text count_encode clash 1 "alpha" None ∅).1 in
    let st2 := (store_document split_text count_encode clash 1 "beta gamma" None st1).1 in
    length (split_text "alpha") = 1%nat
    ∧ length (split_text "beta gamma") = 1%nat
    ∧ (get_collection_stats 1 st2).2 = inr (Stats "doc_1" 1 true None))
  [ClashIgnored; ClashRaises].
Proof. repeat constructor. Qed.

Lemma no_collection_no_context_witness :
  demo_store !! doc_collection_name 2 = None
  ∧ hybrid_search count_encode exact_query 2 "alpha" 20 demo_store
    = (demo_store, inr [])
  ∧ retrieve_context count_encode exact_query dot_product l1_norm
      2 "alpha" "section" demo_store = (demo_store, inr []).
Proof.
  assert (demo_store !! doc_collection_name 2 = None) as Hc
    by (vm_compute; reflexivity).
  split; [exact Hc|].
  exact (no_collection_no_context count_encode exact_query dot_product l1_norm
           2 "alpha" 20 "section" demo_store Hc).
Defined.

Lemma hybrid_search_skips_failed_searches_witness :
  ∃ c embs,
    demo_store !! doc_collection_name 1 = Some c
    ∧ count_encode (expand_query "alpha") = Some embs
    ∧ (∀ e, e ∈ embs → bounded_query 1 (coll_items c) e (Z.min 20 10) = None)
    ∧ hybrid_search count_encode (bounded_query 1) 1 "alpha" 20 demo_store
      = (demo_store, inr []).
Proof.
  eexists _, _.
  assert (demo_store !! doc_collection_name 1 = Some _) as Hc
    by (vm_compute; reflexivity).
  assert (count_encode (expand_query "alpha") = Some _) as He
    by (vm_compute; reflexivity).
  split; [exact Hc|]. split; [exact He|].
  assert (∀ e, e ∈ count_vec <$> expand_query "alpha" →
            bounded_query 1
              [ Item "chunk_0" [5%Q; 0%Q] "alpha" ∅;
                Item "chunk_1" [10%Q; 1%Q] "beta gamma" ∅ ] e (Z.min 20 10) = None)
    as Hfail.
  { intros e He'. vm_compute in He'.
    repeat (apply elem_of_cons in He' as [->|He']; [vm_compute; reflexivity|]).
    by apply elem_of_nil in He'. }
  split; [exact Hfail|].
  destruct (hybrid_search_skips_failed_searches count_encode (bounded_query 1)
              1 "alpha" 20 demo_store _ _ Hc He) as (all & _ & _ & Hnone).
  exact (Hnone Hfail).
Defined.

(** C5 as stated fails for the embedding step: the variants are embedded in
    one call outside the guarded block, and its failure is raised. *)
Lemma hybrid_search_encode_error_raised :
  hybrid_search no_encode exact_query 1 "alpha" 20 demo_store
  = (demo_store, inl EncodeError).
Proof. vm_compute. reflexivity. Qed.


(** What [sort] does with nan: the comparisons with it are false, so it
    stays where the search for runs and the binary search leave it. *)
Lemma list_sort_nan :
  list_sort snd float_lt true [ (0%nat, Finite 1); (1%nat, Finite 2); (2%nat, NaN) ]
  = [ (1%nat, Finite 2); (0%nat, Finite 1); (2%nat, NaN) ]
  ∧ list_sort snd float_lt true [ (0%nat, NaN); (1%nat, Finite 2); (2%nat, Finite 3) ]
    = [ (0%nat, NaN); (2%nat, Finite 3); (1%nat, Finite 2) ]
  ∧ list_sort snd float_lt true [ (0%nat, Finite 1); (1%nat, NaN); (2%nat, Finite 2) ]
    = [ (0%nat, Finite 1); (1%nat, NaN); (2%nat, Finite 2) ].
Proof. by vm_compute. Qed.


Lemma chunk_document_sizes_witness :
  whitespace_only "   "
  ∧ chunk_document split_text "   " = []
  ∧ ¬ whitespace_only " alpha beta. "
  ∧ (String.length " alpha beta. " < 1000)%nat
  ∧ ∃ chunk, chunk_document split_text " alpha beta. " = [chunk].
Proof.
  assert (whitespace_only "   ") as Hblank by (by repeat constructor).
  assert (¬ whitespace_only " alpha beta. ") as Hnot.
  { intros H. apply Forall_cons in H as [_ H].
    apply Forall_cons in H as [H _]. discriminate H. }
  assert (String.length " alpha beta. " < 1000)%nat as Hlen by (simpl; lia).
  destruct (chunk_document_sizes "   ") as (Hnone & _ & _).
  destruct (chunk_document_sizes " alpha beta. ") as (_ & Hone & _).
  split; [exact Hblank|]. split; [exact (Hnone Hblank)|].
  split; [exact Hnot|]. split; [exact Hlen|]. exact (Hone Hnot Hlen).
Defined.

Lemma store_document_no_chunks_witness :
  ∃ st' c,
    (∅ : chroma) !! doc_collection_name 7 = None
    ∧ split_text "" = []
    ∧ store_document split_text count_encode ClashIgnored 7 "" None ∅
      = (st', inr (doc_collection_name 7))
    ∧ st' !! doc_collection_name 7 = Some c
    ∧ coll_items c = []
    ∧ get_collection_stats 7 st'
      = (st', inr (Stats (doc_collection_name 7) 0 true None)).
Proof.
  assert ((∅ : chroma) !! doc_collection_name 7 = None) as Hc by reflexivity.
  assert (split_text "" = []) as Hsplit by reflexivity.
  destruct (store_document_no_chunks split_text count_encode ClashIgnored
              7 "" None ∅ Hc Hsplit) as (st' & c & Hrun & Hc' & Hitems & Hstats).
  exists st', c. by repeat split.
Defined.

(** ** What retrieval leaves alone *)

Section ReadOnly.
Context (encode : list string → option (list vec)).
Context (knn_query : list item → vec → Z → option (list hit)).
Context (dot : vec → vec → Q) (norm : vec → Q).

Lemma hybrid_search_cases doc_id query top_k (st : chroma) :
  ∃ out, hybrid_search encode knn_query doc_id query top_k st = (st, out)
    ∧ out =
      match st !! doc_collection_name doc_id with
      | None => inr []
      | Some c =>
        match encode (expand_query query) with
        | None => inl EncodeError
        | Some embs =>
          inr (unique_top_k top_k ∅ []
                 (sorted_by by_distance
                    (variant_results knn_query (coll_items c) (Z.min top_k 10) 0 embs)))
        end
      end.
Proof.
  destruct (st !! doc_collection_name doc_id) as [c|] eqn:Hc.
  - destruct (encode (expand_query query)) as [embs|] eqn:He.
    + eexists. split; [by eapply hybrid_search_run|done].
    + eexists. split; [by eapply hybrid_search_encode_fails|done].
  - eexists. split; [by apply hybrid_search_no_collection|done].
Qed.

Lemma rerank_chunks_state query chunks top_k (st : chroma) :
  (rerank_chunks encode dot norm query chunks top_k st).1 = st.
Proof.
  unfold rerank_chunks. destruct chunks as [|c0 chunks0]; [done|].
  destruct (encode [query]) as [[|qe ?]|]; [done| |done].
  destruct (encode _) as [cembs|]; [|done].
  destruct (score_chunks _ _ _ _ _ _ _) as [?|[chunks' sims]]; [done|].
  by destruct (mapM _ _).
Qed.

(** X1: retrieval only reads. Whatever they return or raise,
    [hybrid_search], [rerank_chunks] and [retrieve_context] leave every
    collection of the client as it was. *)
Theorem retrieval_reads_only doc_id query top_k intent chunks (st : chroma) :
  (hybrid_search encode knn_query doc_id query top_k st).1 = st
  ∧ (rerank_chunks encode dot norm query chunks top_k st).1 = st
  ∧ (retrieve_context encode knn_query dot norm doc_id query intent st).1 = st.
Proof.
  split_and!.
  - by destruct (hybrid_search_cases doc_id query top_k st) as (out & -> & _).
  - apply rerank_chunks_state.
  - rewrite retrieve_context_run.
    destruct (hybrid_search_cases doc_id query 20 st) as (out & -> & _).
    destruct out as [e|[|c0 chunks0]]; [done|done|]. apply rerank_chunks_state.
Qed.

(** Retrieval for a document looks at the collection of that document
    only. *)
Lemma retrieve_context_local doc_id query intent (st1 st2 : chroma) :
  st1 !! doc_collection_name doc_id = st2 !! doc_collection_name doc_id →
  (retrieve_context encode knn_query dot norm doc_id query intent st1).2
  = (retrieve_context encode knn_query dot norm doc_id query intent st2).2.
Proof.
  intros Hsame. rewrite !retrieve_context_run.
  destruct (hybrid_search_cases doc_id query 20 st1) as (out1 & -> & ->).
  destruct (hybrid_search_cases doc_id query 20 st2) as (out2 & -> & ->).
  rewrite Hsame.
  destruct (st2 !! doc_collection_name doc_id) as [c|]; [|done].
  destruct (encode (expand_query query)) as [embs|]; [|done].
  destruct (unique_top_k _ _ _ _) as [|c0 chunks0]; [done|].
  unfold rerank_chunks.
  destruct (encode [query]) as [[|qe ?]|]; [done| |done].
  destruct (encode _) as [cembs|]; [|done].
  destruct (score_chunks _ _ _ _ _ _ _) as [?|[chunks' sims]]; [done|].
  by destruct (mapM _ _).
Qed.

Lemma get_collection_stats_local doc_id (st1 st2 : chroma) :
  st1 !! doc_collection_name doc_id = st2 !! doc_collection_name doc_id →
  (get_collection_stats doc_id st1).2 = (get_collection_stats doc_id st2).2.
Proof.
  intros Hsame. unfold get_collection_stats, try_except. rewrite !bind_run.
  unfold get_collection. rewrite Hsame.
  destruct (st2 !! doc_collection_name doc_id) as [c|] eqn:Hc; [|done].
  rewrite !bind_run. unfold collection_count. by rewrite Hsame, Hc.
Qed.
End ReadOnly.

Section Isolation.
Context (split_text : string → list string).
Context (encode : list string → option (list vec)).
Context (knn_query : list item → vec → Z → option (list hit)).
Context (clash : on_clash).
Context (dot : vec → vec → Q) (norm : vec → Q).

(** X2: documents are isolated. Storing under one document, whether the
    call returns or raises, changes neither the collection of another
    document nor what [retrieve_context] and [get_collection_stats] answer
    for it. *)
Theorem store_document_isolated doc_a doc_b text md query intent
    (st st' : chroma) out :
  doc_a ≠ doc_b →
  store_document split_text encode clash doc_a text md st = (st', out) →
  st' !! doc_collection_name doc_b = st !! doc_collection_name doc_b
  ∧ (retrieve_context encode knn_query dot norm doc_b query intent st').2
    = (retrieve_context encode knn_query dot norm doc_b query intent st).2
  ∧ (get_collection_stats doc_b st').2 = (get_collection_stats doc_b st).2.
Proof.
  intros Hne Hrun.
  assert (st' !! doc_collection_name doc_b = st !! doc_collection_name doc_b)
    as Hsame.
  { eapply store_document_frame; [done|]. intros Heq. apply Hne.
    by apply (inj doc_collection_name). }
  split_and!; [done|by apply retrieve_context_local
               |by apply get_collection_stats_local].
Qed.
End Isolation.

(** ** A first store *)

Lemma make_items_documents ids embeddings documents metadatas :
  length embeddings = length ids →
  length documents = length ids →
  length metadatas = length ids →
  item_document <$> make_items ids embeddings documents metadatas = documents.
Proof.
  unfold make_items. revert embeddings documents metadatas.
  induction ids as [|i ids IH]; intros [|e es] [|d ds] [|m ms] ???;
    simplify_eq/=; [done|]. f_equal. by apply IH.
Qed.

Lemma make_items_embeddings ids embeddings documents metadatas :
  length embeddings = length ids →
  length documents = length ids →
  length metadatas = length ids →
  item_embedding <$> make_items ids embeddings documents metadatas = embeddings.
Proof.
  unfold make_items. revert embeddings documents metadatas.
  induction ids as [|i ids IH]; intros [|e es] [|d ds] [|m ms] ???;
    simplify_eq/=; [done|]. f_equal. by apply IH.
Qed.

Lemma make_items_metadatas ids embeddings documents metadatas :
  length embeddings = length ids →
  length documents = length ids →
  length metadatas = length ids →
  item_metadata <$> make_items ids embeddings documents metadatas = metadatas.
Proof.
  unfold make_items. revert embeddings documents metadatas.
  induction ids as [|i ids IH]; intros [|e es] [|d ds] [|m ms] ???;
    simplify_eq/=; [done|]. f_equal. by apply IH.
Qed.

(** Adding well-formed records to an empty collection stores them all. *)
Lemma collection_add_empty clash name md0 ids embeddings documents metadatas
    (st : chroma) :
  st !! name = Some (Collection md0 []) →
  length embeddings = length ids →
  length documents = length ids →
  length metadatas = length ids →
  NoDup ids →
  collection_add clash name ids embeddings documents metadatas st
  = (<[name := Collection md0 (make_items ids embeddings documents metadatas)]> st,
     inr ()).
Proof.
  intros Hc He Hd Hm Hids. unfold collection_add. rewrite Hc.
  rewrite !bool_decide_eq_true_2 by done. cbn [negb].
  unfold stored_ids. cbn [coll_items coll_metadata fmap list_fmap app].
  set (new := make_items _ _ _ _).
  assert (filter (λ it, item_id it ∈ @nil string) new = []) as ->.
  { induction new as [|it l IH]; [done|].
    rewrite filter_cons_False; [done|apply not_elem_of_nil]. }
  assert (filter (λ it, item_id it ∉ @nil string) new = new) as ->.
  { induction new as [|it l IH]; [done|].
    rewrite filter_cons_True; [by f_equal|apply not_elem_of_nil]. }
  by destruct clash.
Qed.

Section FirstStore.
Context (split_text : string → list string).
Context (encode : list string → option (list vec)).
Context (clash : on_clash).

Local Abbreviation store := (store_document split_text encode clash).

Lemma store_document_first_run doc_id text md (st : chroma) embs :
  st !! doc_collection_name doc_id = None →
  split_text text ≠ [] →
  encode (split_text text) = Some embs →
  length embs = length (split_text text) →
  store doc_id text md st
  = (<[doc_collection_name doc_id :=
         Collection {[ "doc_id" := MStr (pretty doc_id) ]}
           (make_items (chunk_ids (length (split_text text))) embs (split_text text)
              ((λ i : nat, default ∅ md ∪ chunk_metadata doc_id i)
               <$> seq 0 (length (split_text text))))]> st,
     inr (doc_collection_name doc_id)).
Proof.
  intros Hc Hne He Hlen. rewrite store_document_creates by done.
  unfold store_document, chunk_document. rewrite bind_run. unfold try_except.
  erewrite get_collection_Some by apply lookup_insert_eq.
  destruct (split_text text) as [|ch chunks] eqn:Hsplit; [done|].
  rewrite bind_run. unfold create_embeddings. rewrite He, ret_run, bind_run.
  erewrite collection_add_empty;
    [|apply lookup_insert_eq|by rewrite length_chunk_ids
     |by rewrite length_chunk_ids
     |by rewrite length_fmap, length_seq, length_chunk_ids
     |apply chunk_ids_NoDup].
  rewrite ret_run. by rewrite insert_insert_eq.
Qed.

(** X3: a first store keeps every chunk. With no collection for the
    document yet, chunks to store and a model that answers with one vector
    per chunk, [store_document] returns the collection name and the new
    collection holds the chunks in order, chunk [i] under the id
    [chunk_i] with its vector; [get_collection_stats] then counts as many
    records as there are chunks. *)
Theorem store_document_keeps_chunks doc_id text md (st : chroma) embs :
  st !! doc_collection_name doc_id = None →
  split_text text ≠ [] →
  encode (split_text text) = Some embs →
  length embs = length (split_text text) →
  ∃ st' c,
    store doc_id text md st = (st', inr (doc_collection_name doc_id))
    ∧ st' !! doc_collection_name doc_id = Some c
    ∧ item_id <$> coll_items c = chunk_ids (length (split_text text))
    ∧ item_document <$> coll_items c = split_text text
    ∧ item_embedding <$> coll_items c = embs
    ∧ get_collection_stats doc_id st'
      = (st', inr (Stats (doc_collection_name doc_id)
                     (length (split_text text)) true None)).
Proof.
  intros Hc Hne He Hlen. rewrite (store_document_first_run _ _ _ _ embs) by done.
  eexists _, _. split; [done|]. split; [apply lookup_insert_eq|].
  cbn [coll_items].
  assert (length (split_text text) = length (chunk_ids (length (split_text text))))
    as Hd by by rewrite length_chunk_ids.
  assert (length embs = length (chunk_ids (length (split_text text))))
    as He' by by rewrite length_chunk_ids.
  assert (length ((λ i : nat, default ∅ md ∪ chunk_metadata doc_id i)
                  <$> seq 0 (length (split_text text)))
          = length (chunk_ids (length (split_text text)))) as Hm.
  { by rewrite length_fmap, length_seq, length_chunk_ids. }
  split_and!.
  - by apply make_items_ids.
  - by apply make_items_documents.
  - by apply make_items_embeddings.
  - unfold get_collection_stats, try_except. rewrite bind_run.
    erewrite get_collection_Some by apply lookup_insert_eq.
    rewrite bind_run. unfold collection_count. rewrite lookup_insert_eq.
    cbn [coll_items]. do 4 f_equal.
    rewrite <-(length_fmap item_id), make_items_ids by done.
    apply length_chunk_ids.
Qed.

(** X4: the caller's metadata wins. In a first store the record of chunk
    [i] carries every entry of the metadata passed by the caller, and the
    entries [chunk_index = i] and [doc_id = str(doc_id)] only under keys the
    caller did not use. *)
Theorem store_document_metadata doc_id text md (st st' : chroma) embs out c i it :
  st !! doc_collection_name doc_id = None →
  split_text text ≠ [] →
  encode (split_text text) = Some embs →
  length embs = length (split_text text) →
  store doc_id text md st = (st', out) →
  st' !! doc_collection_name doc_id = Some c →
  coll_items c !! i = Some it →
  (∀ k v, default ∅ md !! k = Some v → item_metadata it !! k = Some v)
  ∧ (default ∅ md !! "chunk_index" = None →
     item_metadata it !! "chunk_index" = Some (MInt (Z.of_nat i)))
  ∧ (default ∅ md !! "doc_id" = None →
     item_metadata it !! "doc_id" = Some (MStr (pretty doc_id)))
  ∧ (∀ k, k ≠ "chunk_index" → k ≠ "doc_id" →
     item_metadata it !! k = default ∅ md !! k).
Proof.
  intros Hc Hne He Hlen Hrun Hc' Hit.
  rewrite (store_document_first_run _ _ _ _ embs) in Hrun by done.
  injection Hrun as <- _. rewrite lookup_insert_eq in Hc'. injection Hc' as <-.
  cbn [coll_items] in Hit.
  assert (item_metadata it = default ∅ md ∪ chunk_metadata doc_id i) as ->.
  { apply (f_equal (fmap item_metadata)) in Hit. simpl in Hit.
    rewrite <-list_lookup_fmap, make_items_metadatas in Hit; cycle 1.
    - by rewrite length_chunk_ids.
    - by rewrite length_chunk_ids.
    - by rewrite length_fmap, length_seq, length_chunk_ids.
    - rewrite list_lookup_fmap in Hit.
      destruct (seq 0 (length (split_text text)) !! i) as [j|] eqn:Hj; [|done].
      apply lookup_seq in Hj as [-> _]. simpl in Hit. by injection Hit. }
  unfold chunk_metadata. split_and!.
  - intros k v Hk. by apply lookup_union_Some_l.
  - intros Hk. rewrite lookup_union_r by done. by simplify_map_eq.
  - intros Hk. rewrite lookup_union_r by done. by simplify_map_eq.
  - intros k Hk1 Hk2. rewrite lookup_union.
    assert (({["chunk_index" := MInt (Z.of_nat i); "doc_id" := MStr (pretty doc_id)]}
             : metadata) !! k = None) as -> by by simplify_map_eq.
    by destruct (default ∅ md !! k).
Qed.

(** X5: a failed embedding leaves an empty collection behind. With no
    collection for the document yet and chunks to store, a model that
    raises makes [store_document] raise too, after the collection was
    created: [get_collection_stats] then reports it as existing with no
    chunk. *)
Theorem store_document_encode_fails doc_id text md (st : chroma) :
  st !! doc_collection_name doc_id = None →
  split_text text ≠ [] →
  encode (split_text text) = None →
  ∃ st',
    store doc_id text md st = (st', inl EncodeError)
    ∧ st' = <[doc_collection_name doc_id :=
                Collection {[ "doc_id" := MStr (pretty doc_id) ]} []]> st
    ∧ get_collection_stats doc_id st'
      = (st', inr (Stats (doc_collection_name doc_id) 0 true None)).
Proof.
  intros Hc Hne He. rewrite store_document_creates by done.
  unfold store_document, chunk_document. rewrite bind_run. unfold try_except.
  erewrite get_collection_Some by apply lookup_insert_eq.
  destruct (split_text text) as [|ch chunks] eqn:Hsplit; [done|].
  rewrite bind_run. unfold create_embeddings. rewrite He.
  eexists. split; [done|]. split; [done|].
  unfold get_collection_stats, try_except. rewrite bind_run.
  erewrite get_collection_Some by apply lookup_insert_eq.
  rewrite bind_run. unfold collection_count. by rewrite lookup_insert_eq.
Qed.
End FirstStore.

(** ** A second store *)

Lemma length_filter_fresh (held : list string) (l : list item) :
  length (filter (λ it, item_id it ∉ held) l)
  = length (filter (λ s, s ∉ held) (item_id <$> l)).
Proof.
  induction l as [|it l IH]; [done|]. rewrite fmap_cons, !filter_cons.
  destruct (decide (item_id it ∉ held)); simpl; by rewrite IH.
Qed.

Lemma elem_of_chunk_ids (s : string) (n : nat) :
  s ∈ chunk_ids n ↔ ∃ i : nat, (i < n)%nat ∧ s = "chunk_" +:+ pretty i.
Proof.
  unfold chunk_ids. rewrite list_elem_of_fmap. split.
  - intros (i & -> & Hi). exists i. split; [|done].
    apply elem_of_seq in Hi. lia.
  - intros (i & Hi & ->). exists i. split; [done|]. apply elem_of_seq. lia.
Qed.

Lemma chunk_id_inj (i j : nat) :
  "chunk_" +:+ pretty i = "chunk_" +:+ pretty j → i = j.
Proof. intros Hij. apply (inj (String.app "chunk_")) in Hij. by apply (inj pretty) in Hij. Qed.

Lemma length_fresh_chunk_ids (n m : nat) :
  length (filter (λ s, s ∉ chunk_ids n) (chunk_ids m)) = (m - n)%nat.
Proof.
  induction m as [|m IH]; [done|].
  assert (chunk_ids (S m) = chunk_ids m ++ [ "chunk_" +:+ pretty m ]) as ->.
  { unfold chunk_ids. by rewrite seq_S, fmap_app. }
  rewrite filter_app, length_app, IH, filter_cons, filter_nil.
  destruct (decide (_ ∉ chunk_ids n)) as [Hfresh|Hheld]; simpl.
  - destruct (decide (m < n)%nat) as [Hlt|]; [|lia].
    exfalso. apply Hfresh, elem_of_chunk_ids. by exists m.
  - apply dec_stable in Hheld. apply elem_of_chunk_ids in Hheld as (i & Hi & Heq).
    apply chunk_id_inj in Heq as <-. lia.
Qed.

Lemma collection_add_raises name c ids embeddings documents metadatas (st : chroma) i :
  st !! name = Some c → i ∈ ids → i ∈ stored_ids c →
  ∃ e, collection_add ClashRaises name ids embeddings documents metadatas st
       = (st, inl e).
Proof.
  intros Hc Hi Hheld. unfold collection_add. rewrite Hc.
  case_bool_decide as Hlen; [|by eexists]. destruct Hlen as (? & ? & ?).
  case_bool_decide; [|by eexists]. cbn [negb].
  destruct (filter (λ it, item_id it ∈ stored_ids c) _) as [|it ?] eqn:Hclash;
    [|by eexists].
  exfalso. rewrite <-(make_items_ids ids embeddings documents metadatas) in Hi by done.
  apply list_elem_of_fmap in Hi as (it & -> & Hit).
  assert (it ∈ filter (λ it, item_id it ∈ stored_ids c)
                 (make_items ids embeddings documents metadatas)) as Hin.
  { by apply list_elem_of_filter. }
  rewrite Hclash in Hin. by apply elem_of_nil in Hin.
Qed.

Section SecondStore.
Context (split_text : string → list string).
Context (encode : list string → option (list vec)).

(** Where duplicate ids raise, a store under a document that holds
    [chunk_0] raises and changes nothing. *)
Lemma store_document_raises doc_id text md (st : chroma) c :
  st !! doc_collection_name doc_id = Some c →
  split_text text ≠ [] →
  "chunk_0" ∈ stored_ids c →
  ∃ e, store_document split_text encode ClashRaises doc_id text md st = (st, inl e).
Proof.
  intros Hc Hsplit Hheld. unfold store_document, chunk_document. rewrite bind_run.
  unfold try_except. erewrite get_collection_Some by done.
  destruct (split_text text) as [|ch chunks]; [done|].
  rewrite bind_run. unfold create_embeddings.
  destruct (encode _) as [embeddings|]; [|by eexists].
  rewrite ret_run, bind_run.
  edestruct (collection_add_raises (doc_collection_name doc_id)) as [e ->];
    [done|apply list_elem_of_here|done|]. by eexists.
Qed.

(** X22: a second store replaces nothing. After a first store of [n]
    chunks under a document, a second store of [m] chunks leaves the [n]
    records as they are, at the head of the collection; a record it adds has
    an id [chunk_i] with [n <= i < m], so the first [n] chunks of the second
    text are never stored. Where duplicate ids raise, the second store
    raises and changes nothing; where they are ignored and it returns, the
    collection holds [max(n, m)] records. *)
Theorem store_document_again_keeps_first clash doc_id text1 md1 text2 md2
    (st st1 st2 : chroma) name out2 :
  st !! doc_collection_name doc_id = None →
  split_text text1 ≠ [] →
  split_text text2 ≠ [] →
  store_document split_text encode clash doc_id text1 md1 st = (st1, inr name) →
  store_document split_text encode clash doc_id text2 md2 st1 = (st2, out2) →
  ∃ c1 c2,
    st1 !! doc_collection_name doc_id = Some c1
    ∧ st2 !! doc_collection_name doc_id = Some c2
    ∧ coll_items c1 `prefix_of` coll_items c2
    ∧ (∀ it, it ∈ coll_items c2 → it ∉ coll_items c1 →
         ∃ i : nat, (length (split_text text1) ≤ i < length (split_text text2))%nat
                    ∧ item_id it = "chunk_" +:+ pretty i)
    ∧ (clash = ClashRaises → st2 = st1 ∧ ∃ e, out2 = inl e)
    ∧ (clash = ClashIgnored → ∀ name2, out2 = inr name2 →
         length (coll_items c2)
         = (length (split_text text1) `max` length (split_text text2))%nat).
Proof.
  intros Hc Hn1 Hn2 Hrun1 Hrun2.
  destruct (store_document_first split_text encode clash doc_id text1 md1 st st1 name
              Hc Hn1 Hrun1) as (c1 & Hc1 & Hids1).
  assert (length (coll_items c1) = length (split_text text1)) as Hlen1.
  { rewrite <-(length_fmap item_id). fold (stored_ids c1).
    by rewrite Hids1, length_chunk_ids. }
  assert ("chunk_0" ∈ stored_ids c1) as Hzero.
  { rewrite Hids1. destruct (split_text text1); [done|apply list_elem_of_here]. }
  exists c1.
  destruct (store_document_cases split_text encode clash doc_id text2 md2 st1 c1 Hc1 Hn2)
    as [[e He]|(new & Hids & Hrun)].
  - rewrite He in Hrun2. injection Hrun2 as <- <-. exists c1.
    split_and!; [done|done|done|by intros it ? ?| |by intros _ name2 ?].
    intros _. split; [done|by eexists].
  - rewrite Hrun in Hrun2. injection Hrun2 as <- <-. eexists.
    split_and!; [done|apply lookup_insert_eq|by apply prefix_app_r| | |].
    + cbn [coll_items]. intros it [Hin|Hin]%elem_of_app Hnew; [done|].
      apply list_elem_of_filter in Hin as [Hfresh Hin].
      assert (item_id it ∈ chunk_ids (length (split_text text2))) as Hid.
      { rewrite <-Hids. by apply list_elem_of_fmap_2. }
      apply elem_of_chunk_ids in Hid as (i & Hi & Hid). exists i. split; [|done].
      split; [|done]. destruct (decide (length (split_text text1) ≤ i)%nat); [done|].
      exfalso. apply Hfresh. rewrite Hids1, Hid. apply elem_of_chunk_ids.
      exists i. split; [lia|done].
    + intros ->. exfalso.
      destruct (store_document_raises doc_id text2 md2 st1 c1 Hc1 Hn2 Hzero) as [e He].
      rewrite He in Hrun. by injection Hrun.
    + intros _ name2 _. cbn [coll_items]. rewrite length_app, Hlen1.
      rewrite length_filter_fresh.
      rewrite Hids, Hids1, length_fresh_chunk_ids. lia.
Qed.
End SecondStore.

Lemma store_document_again_keeps_first_witness :
  ∃ st1 st2 c1 c2,
    store_document split_text count_encode ClashIgnored 1 "alpha" None ∅
    = (st1, inr "doc_1")
    ∧ store_document split_text count_encode ClashIgnored 1 "beta gamma" None st1
      = (st2, inr "doc_1")
    ∧ st1 !! doc_collection_name 1 = Some c1
    ∧ st2 !! doc_collection_name 1 = Some c2
    ∧ coll_items c1 `prefix_of` coll_items c2
    ∧ length (coll_items c2)
      = (length (split_text "alpha") `max` length (split_text "beta gamma"))%nat.
Proof.
  assert ((∅ : chroma) !! doc_collection_name 1 = None) as Hc by reflexivity.
  assert (split_text "alpha" ≠ []) as Hn1 by (vm_compute; discriminate).
  assert (split_text "beta gamma" ≠ []) as Hn2 by (vm_compute; discriminate).
  destruct (store_document split_text count_encode ClashIgnored 1 "alpha" None ∅)
    as [st1 out1] eqn:Hrun1.
  assert (out1 = inr "doc_1") as ->.
  { apply (f_equal snd) in Hrun1. vm_compute in Hrun1. by symmetry. }
  destruct (store_document split_text count_encode ClashIgnored 1 "beta gamma" None st1)
    as [st2 out2] eqn:Hrun2.
  assert (out2 = inr "doc_1") as ->.
  { apply (f_equal fst) in Hrun1. simpl in Hrun1. subst st1.
    apply (f_equal snd) in Hrun2. vm_compute in Hrun2. by symmetry. }
  destruct (store_document_again_keeps_first split_text count_encode ClashIgnored
              1 "alpha" None "beta gamma" None ∅ st1 st2 "doc_1" (inr "doc_1")
              Hc Hn1 Hn2 Hrun1 Hrun2)
    as (c1 & c2 & Hc1 & Hc2 & Hprefix & _ & _ & Hcount).
  exists st1, st2, c1, c2.
  split; [reflexivity|]. split; [exact Hrun2|]. split; [exact Hc1|].
  split; [exact Hc2|]. split; [exact Hprefix|exact (Hcount eq_refl "doc_1" eq_refl)].
Defined.

(** ** What the merge keeps *)

Lemma unique_top_k_complete top_k seen_ids unique_results rs :
  Z.of_nat (length (unique_top_k top_k seen_ids unique_results rs)) < top_k →
  ∀ r, r ∈ rs →
    id r ∈ seen_ids ∨ id r ∈ id <$> unique_top_k top_k seen_ids unique_results rs.
Proof.
  revert seen_ids unique_results.
  induction rs as [|r rs IH]; intros seen_ids unique_results Hlen r0 Hr0.
  { by apply elem_of_nil in Hr0. }
  simpl in *. case_decide as Hseen.
  - apply elem_of_cons in Hr0. destruct Hr0 as [Heq|Hr0]; [subst r0; by left|by apply IH].
  - case_decide as Hfull; [lia|].
    assert (id r ∈ id <$> unique_top_k top_k ({[id r]} ∪ seen_ids)
                             (unique_results ++ [r]) rs) as Hr.
    { destruct (unique_top_k_spec top_k ({[id r]} ∪ seen_ids)
                  (unique_results ++ [r]) rs) as (kept & -> & _).
      apply list_elem_of_fmap_2. set_solver. }
    apply elem_of_cons in Hr0. destruct Hr0 as [Heq|Hr0]; [subst r0; by right|].
    destruct (IH _ _ Hlen r0 Hr0) as [Hin|Hin]; [|by right].
    apply elem_of_union in Hin as [Hin|Hin]; [|by left].
    apply elem_of_singleton in Hin. right. by rewrite Hin.
Qed.

Section Merge.
Context (encode : list string → option (list vec)).
Context (knn_query : list item → vec → Z → option (list hit)).

(** X6: the merge loses no chunk unless it is full. When [hybrid_search]
    returns fewer than [top_k] entries, every row that any variant
    retrieved has its id among them. *)
Theorem hybrid_search_keeps_every_id doc_id query top_k (st st' : chroma) res c embs :
  hybrid_search encode knn_query doc_id query top_k st = (st', inr res) →
  Z.of_nat (length res) < top_k →
  st !! doc_collection_name doc_id = Some c →
  encode (expand_query query) = Some embs →
  ∀ i h, returned_by knn_query c embs (Z.min top_k 10) i h →
         hit_id h ∈ id <$> res.
Proof.
  intros Hrun Hlen Hc He i h Hret.
  erewrite hybrid_search_run in Hrun by done. injection Hrun as _ <-.
  assert (make_result i h ∈ sorted_by by_distance
            (variant_results knn_query (coll_items c) (Z.min top_k 10) 0 embs)) as Hmem.
  { apply elem_of_sorted_by, elem_of_variant_results. by exists i, h. }
  destruct (unique_top_k_complete _ _ _ _ Hlen _ Hmem) as [Hin|Hin]; [|exact Hin].
  by apply not_elem_of_empty in Hin.
Qed.

(** X7: the cap on each variant bounds the whole. With a search that
    returns no more rows than it is asked for and a model that answers
    with one vector per text, [hybrid_search] returns at most
    [6 * min(top_k, 10)] entries, so never more than 60. *)
Theorem hybrid_search_at_most_sixty doc_id query top_k (st st' : chroma) res :
  (∀ items e n hits, knn_query items e n = Some hits →
     Z.of_nat (length hits) ≤ Z.max n 0) →
  (∀ texts embs, encode texts = Some embs → length embs = length texts) →
  hybrid_search encode knn_query doc_id query top_k st = (st', inr res) →
  Z.of_nat (length res) ≤ 6 * Z.max (Z.min top_k 10) 0
  ∧ (length res ≤ 60)%nat.
Proof.
  intros Hknn Henc Hrun.
  assert (Z.of_nat (length res) ≤ 6 * Z.max (Z.min top_k 10) 0); [|lia].
  destruct (st !! doc_collection_name doc_id) as [c|] eqn:Hc; cycle 1.
  { rewrite hybrid_search_no_collection in Hrun by done.
    injection Hrun as _ <-. simpl. lia. }
  destruct (encode (expand_query query)) as [embs|] eqn:He; cycle 1.
  { by erewrite hybrid_search_encode_fails in Hrun. }
  erewrite hybrid_search_run in Hrun by done. injection Hrun as _ <-.
  set (all := variant_results _ _ _ _ _).
  destruct (unique_top_k_spec top_k ∅ [] (sorted_by by_distance all))
    as (kept & -> & Hsub%sublist_length & _).
  rewrite length_sorted_by in Hsub. simpl.
  pose proof (length_variant_results knn_query (coll_items c) (Z.min top_k 10) 0 embs
                (λ e hits, Hknn (coll_items c) e (Z.min top_k 10) hits)) as Hall.
  apply Henc in He. fold all in Hall.
  assert (length (expand_query query) = 6%nat) as H6 by done.
  rewrite He, H6 in Hall. lia.
Qed.
End Merge.

(** ** What reranking keeps *)

Section Ranking.
Context (encode : list string → option (list vec)).
Context (dot : vec → vec → Q) (norm : vec → Q).

Local Abbreviation cos := (cosine_similarity dot norm).

Lemma scored_chunks_imap qe chunks cembs :
  length cembs = length chunks →
  (λ p : nat * pyfloat, set_similarity p.2 (chunks !!! p.1))
    <$> imap (λ j ce, (j, cos qe ce)) cembs
  = scored_chunks dot norm qe chunks cembs.
Proof.
  intros Hlen. unfold scored_chunks. apply list_eq. intros i.
  rewrite list_lookup_fmap, list_lookup_imap, lookup_zip_with.
  destruct (cembs !! i) as [ce|] eqn:Hce; simpl.
  - destruct (lookup_lt_is_Some_2 chunks i) as [c Hc].
    { rewrite <-Hlen. by eapply lookup_lt_Some. }
    rewrite Hc. simpl. by rewrite (list_lookup_total_correct _ _ _ Hc).
  - by destruct (chunks !! i).
Qed.

(** X8: reranking keeps the best candidates. With a model that answers
    with one vector per text and a depth that is not negative,
    [rerank_chunks] splits the scored candidates into the entries it
    returns and the ones it drops: nothing is lost or repeated; when
    [top_k] covers the candidates none is dropped; and provided no
    similarity is nan, as it is for an embedding of norm zero, every
    returned entry is at least as similar to the query as every dropped
    one. *)
Theorem rerank_chunks_keeps_best query chunks top_k (st : chroma) qe rest cembs :
  0 ≤ top_k →
  encode [query] = Some (qe :: rest) →
  encode (text <$> chunks) = Some cembs →
  length cembs = length chunks →
  ∃ res dropped,
    rerank_chunks encode dot norm query chunks top_k st = (st, inr res)
    ∧ res ++ dropped ≡ₚ scored_chunks dot norm qe chunks cembs
    ∧ (Z.of_nat (length chunks) ≤ top_k → dropped = [])
    ∧ (Forall (λ ce, cosine_similarity dot norm qe ce ≠ NaN) cembs →
       ∀ r d, r ∈ res → d ∈ dropped → similarity_desc r d).
Proof.
  intros Hk Hq Hc Hlen.
  destruct (rerank_chunks_returns encode dot norm query chunks top_k st qe rest cembs
              Hq Hc Hlen) as [res Hrun].
  destruct (decide (chunks = [])) as [->|Hne].
  { injection Hrun as <-. exists [], []. destruct cembs; [|done].
    split_and!; try done. by intros _ r d ?%elem_of_nil. }
  pose proof (rerank_chunks_run _ _ _ _ _ _ _ _ _ Hne Hrun)
    as (qe' & rest' & cembs' & Hq' & Hc' & _ & Hres).
  rewrite Hq in Hq'. rewrite Hc in Hc'. simplify_eq.
  set (g := λ p : nat * pyfloat, set_similarity p.2 (chunks !!! p.1)).
  set (ranked := list_sort snd float_lt true (imap (λ j ce, (j, cos qe' ce)) cembs')).
  rewrite py_prefix_nonneg in Hrun by done.
  exists (g <$> take (Z.to_nat top_k) ranked), (g <$> drop (Z.to_nat top_k) ranked).
  split_and!.
  - done.
  - rewrite <-fmap_app, take_drop. unfold ranked.
    rewrite list_sort_Permutation. unfold g. by rewrite scored_chunks_imap.
  - intros Hall. rewrite drop_ge; [done|]. unfold ranked.
    rewrite length_list_sort, length_imap. lia.
  - intros Hnum.
    pose proof (ranked_similarity_desc dot norm qe' chunks cembs' (Z.of_nat (length ranked))
                  Hnum) as Hsorted.
    rewrite py_prefix_nonneg, Nat2Z.id, firstn_all in Hsorted by lia.
    fold ranked g in Hsorted.
    rewrite <-(take_drop (Z.to_nat top_k) ranked), fmap_app in Hsorted.
    apply StronglySorted_app in Hsorted as (Hcross & _ & _).
    intros r d Hr Hd. by apply Hcross.
Qed.
End Ranking.

(** ** Retrieval end to end *)

Lemma fst_imap_index {A B} (f : A → B) (n : nat) (l : list A) :
  (imap (λ j x, ((n + j)%nat, f x)) l).*1 = seq n (length l).
Proof.
  revert n. induction l as [|x l IH]; intros n; simpl; [done|].
  rewrite Nat.add_0_r. f_equal. rewrite <-IH. f_equal.
  apply imap_ext. intros j y _. simpl. f_equal. lia.
Qed.

Section EndToEnd.
Context (encode : list string → option (list vec)).
Context (knn_query : list item → vec → Z → option (list hit)).
Context (dot : vec → vec → Q) (norm : vec → Q).

Local Abbreviation retrieve := (retrieve_context encode knn_query dot norm).

(** X9: what [retrieve_context] returns are distinct chunks of the merge,
    scored. The entries it returns have pairwise distinct ids, each is an
    entry of [hybrid_search] with depth 20 on which the key ['similarity']
    was set, and nothing else of the entry is changed. *)
Theorem retrieve_context_distinct_scored doc_id query intent (st st' : chroma) res :
  retrieve doc_id query intent st = (st', inr res) →
  NoDup (id <$> res)
  ∧ ∃ chunks,
      hybrid_search encode knn_query doc_id query 20 st = (st, inr chunks)
      ∧ ∀ r, r ∈ res → ∃ c s, c ∈ chunks ∧ r = set_similarity s c.
Proof.
  rewrite retrieve_context_run.
  destruct (hybrid_search_cases encode knn_query doc_id query 20 st)
    as (out & Hhyb & Hout). rewrite Hhyb.
  destruct out as [e|chunks]; [done|].
  assert (NoDup (id <$> chunks)) as Hnd.
  { destruct (st !! doc_collection_name doc_id) as [c|]; cycle 1.
    { injection Hout as ->. apply NoDup_nil_2. }
    destruct (encode (expand_query query)) as [embs|]; [|done].
    injection Hout as ->.
    by destruct (unique_top_k_spec 20 ∅ []
                   (sorted_by by_distance
                      (variant_results knn_query (coll_items c) (20 `min` 10) 0 embs)))
      as (kept & -> & _ & ? & _). }
  destruct chunks as [|c0 chunks0] eqn:Hchunks.
  { intros [= _ <-]. split; [apply NoDup_nil_2|]. exists []. split; [done|].
    by intros r ?%elem_of_nil. }
  rewrite <-Hchunks in *. intros Hrun.
  assert (chunks ≠ []) as Hne by (by rewrite Hchunks).
  pose proof (rerank_chunks_run _ _ _ _ _ _ _ _ _ Hne Hrun)
    as (qe & rest & cembs & _ & _ & Hlen & ->).
  set (sims := imap (λ j ce, (j, cosine_similarity dot norm qe ce)) cembs).
  set (l := py_prefix _ (list_sort snd float_lt true sims)).
  assert (∀ p, p ∈ l → (p.1 < length chunks)%nat) as Hrange.
  { intros p Hp. eapply elem_of_sublist in Hp; [|apply py_prefix_sublist].
    apply elem_of_list_sort, elem_of_lookup_imap in Hp as (j & ce & -> & Hj).
    apply lookup_lt_Some in Hj. simpl. lia. }
  assert (NoDup (l.*1)) as Hidx.
  { assert (l.*1 `sublist_of` (list_sort snd float_lt true sims).*1) as Hsub
      by apply fmap_sublist, py_prefix_sublist.
    eapply sublist_NoDup; [|exact Hsub].
    rewrite list_sort_Permutation. unfold sims.
    rewrite (fst_imap_index _ 0). apply NoDup_seq. }
  split.
  - rewrite <-list_fmap_compose.
    assert (id ∘ (λ p : nat * pyfloat, set_similarity p.2 (chunks !!! p.1))
            = (λ i : nat, id (chunks !!! i)) ∘ fst) as -> by done.
    rewrite list_fmap_compose. apply NoDup_fmap_2_strong; [|done].
    intros i j (p & -> & Hp)%list_elem_of_fmap (p' & -> & Hp')%list_elem_of_fmap Hij.
    apply Hrange in Hp, Hp'.
    assert (∀ i, (i < length chunks)%nat →
              (id <$> chunks) !! i = Some (id (chunks !!! i))) as Hat.
    { intros i Hi. rewrite list_lookup_fmap.
      destruct (lookup_lt_is_Some_2 chunks i Hi) as [c Hc].
      by rewrite Hc, (list_lookup_total_correct _ _ _ Hc). }
    eapply (NoDup_lookup _ _ _ (id (chunks !!! p.1))); [exact Hnd| |].
    + by apply Hat.
    + simpl in Hij. rewrite Hij. by apply Hat.
  - exists chunks. split; [done|].
    intros r (p & -> & Hp)%list_elem_of_fmap. apply Hrange in Hp.
    destruct (lookup_lt_is_Some_2 chunks p.1 Hp) as [c Hc].
    exists c, p.2. split; [by eapply list_elem_of_lookup_2|].
    by rewrite (list_lookup_total_correct _ _ _ Hc).
Qed.

(** X10: only the model can make retrieval fail. With a model that answers
    with one vector per text, [retrieve_context] returns a list for every
    document, query and intent, in every state of the client and whatever
    the searches do. *)
Theorem retrieve_context_returns doc_id query intent (st : chroma) :
  (∀ texts, ∃ vs, encode texts = Some vs ∧ length vs = length texts) →
  ∃ res, retrieve_context encode knn_query dot norm doc_id query intent st = (st, inr res).
Proof.
  intros Henc. rewrite retrieve_context_run.
  destruct (hybrid_search_cases encode knn_query doc_id query 20 st)
    as (out & -> & ->).
  assert (∀ chunks,
    ∃ res, match chunks with
           | [] => (st, inr [])
           | _ => rerank_chunks encode dot norm query chunks
                    (if decide (intent = "document") then 5 else 3) st
           end = (st, inr res)) as Hrank.
  { intros [|c0 chunks0]; [by eexists|].
    destruct (Henc [query]) as ([|qe [|??]] & Hq & Hlen); try done.
    destruct (Henc (text <$> c0 :: chunks0)) as (cembs & Hc & Hlen').
    rewrite length_fmap in Hlen'.
    by eapply rerank_chunks_returns. }
  destruct (st !! doc_collection_name doc_id) as [c|]; [|by eexists].
  destruct (Henc (expand_query query)) as (embs & -> & _).
  apply Hrank.
Qed.
End EndToEnd.

(** ** The document profiler *)

Lemma max_first_spec {A} (key : A → nat) (b : A) (l : list A) :
  ∃ i, (b :: l) !! i = Some (max_first key b l)
    ∧ (∀ j x, (b :: l) !! j = Some x → (key x ≤ key (max_first key b l))%nat)
    ∧ (∀ j x, (j < i)%nat → (b :: l) !! j = Some x →
              (key x < key (max_first key b l))%nat).
Proof.
  revert b. induction l as [|x l IH]; intros b; simpl.
  { exists 0%nat. split_and!; [done| |intros; lia].
    intros [|j] y; simpl; [intros [= <-]; lia|by rewrite lookup_nil]. }
  destruct (key b <? key x)%nat eqn:Hlt.
  - apply Nat.ltb_lt in Hlt. destruct (IH x) as (i & Hi & Hle & Hbefore).
    exists (S i). split_and!; [done| |].
    + intros [|j] y; simpl; [intros [= <-]|by apply Hle].
      specialize (Hle 0%nat x eq_refl). lia.
    + intros [|j] y Hj; simpl; [intros [= <-]|apply Hbefore; lia].
      specialize (Hle 0%nat x eq_refl). lia.
  - apply Nat.ltb_ge in Hlt. destruct (IH b) as (i & Hi & Hle & Hbefore).
    destruct i as [|i].
    + exists 0%nat. simpl in Hi. split_and!; [done| |intros; lia].
      intros [|[|j]] y; simpl.
      * intros [= <-]. by apply (Hle 0%nat).
      * intros [= <-]. specialize (Hle 0%nat b eq_refl). lia.
      * intros Hy. by apply (Hle (S j)).
    + exists (S (S i)). simpl in Hi. split_and!; [done| |].
      * intros [|[|j]] y; simpl.
        -- intros [= <-]. by apply (Hle 0%nat).
        -- intros [= <-]. specialize (Hle 0%nat b eq_refl). lia.
        -- intros Hy. by apply (Hle (S j)).
      * intros [|[|j]] y Hj; simpl.
        -- intros [= <-]. apply (Hbefore 0%nat); [lia|done].
        -- intros [= <-]. specialize (Hbefore 0%nat b). simpl in Hbefore.
           specialize (Hbefore ltac:(lia) eq_refl). lia.
        -- intros Hy. apply (Hbefore (S j)); [lia|done].
Qed.

Lemma table_get_lookup {A} (d : list (string * A)) i k v :
  NoDup (d.*1) → d !! i = Some (k, v) → table_get d k = Some v.
Proof.
  revert i. induction d as [|[k' v'] d IH]; intros i Hnd Hi; [by rewrite lookup_nil in Hi|].
  simpl in *. apply NoDup_cons in Hnd as [Hk' Hnd].
  destruct i as [|i]; simpl in Hi.
  - injection Hi as -> ->. by rewrite decide_True.
  - rewrite decide_False; [by eapply IH|].
    intros ->. apply Hk'. apply list_elem_of_fmap. exists (k, v).
    split; [done|]. by eapply list_elem_of_lookup_2.
Qed.

Lemma max_list_zero (l : list nat) : max_list l = 0%nat ↔ Forall (λ n, n = 0%nat) l.
Proof.
  induction l as [|n l IH]; simpl.
  - split; [constructor|done].
  - rewrite Forall_cons, <-IH. lia.
Qed.

Lemma confidence_ratio (score n : nat) :
  (0 < score)%nat → (0 < n)%nat →
  let ratio := (inject_Z (Z.of_nat score) / (inject_Z (Z.of_nat n) * (3 # 10)))%Q in
  let confidence := if decide (1 <= ratio)%Q then 1%Q else ratio in
  (0 < confidence)%Q ∧ (confidence <= 1)%Q
  ∧ ((confidence == 1)%Q ↔ (3 * n ≤ 10 * score)%nat).
Proof.
  intros Hs Hn ratio confidence.
  assert (0 < inject_Z (Z.of_nat n) * (3 # 10))%Q as Hc.
  { unfold Qlt, Qmult, inject_Z. simpl. lia. }
  assert ((1 <= ratio)%Q ↔ (3 * n ≤ 10 * score)%nat) as Hone.
  { split.
    - intros Hr. destruct (decide (3 * n ≤ 10 * score)%nat) as [|Hlt]; [done|].
      exfalso. apply (Qle_not_lt _ _ Hr). apply Qlt_shift_div_r; [done|].
      unfold Qlt, Qmult, inject_Z. simpl. lia.
    - intros Hle. apply Qle_shift_div_l; [done|].
      unfold Qle, Qmult, inject_Z. simpl. lia. }
  assert (0 < ratio)%Q as Hpos.
  { apply Qlt_shift_div_l; [done|]. unfold Qlt, Qmult, inject_Z. simpl. lia. }
  unfold confidence. case_decide as Hr.
  - split_and!; [done|apply Qle_refl|]. split; [by intros _; apply Hone|done].
  - split_and!; [done|by apply Qlt_le_weak, Qnot_le_lt|].
    split.
    + intros Heq. exfalso. apply Hr. rewrite Heq. apply Qle_refl.
    + intros Hle. exfalso. by apply Hr, Hone.
Qed.

(** X11: how the document type is chosen. When no keyword of any type occurs
    in the text the type is [general_document] with confidence 1/2.
    Otherwise the type is the first one of the table with the largest number
    of its keywords occurring in the text, and the confidence is positive,
    at most 1, and equal to 1 exactly when at least three tenths of the
    keywords of the type occur. *)
Theorem identify_document_type_best (text : string) :
  ((∀ entry, entry ∈ DOCUMENT_TYPES → keyword_score entry.2 text = 0%nat) →
   _identify_document_type text = ("general_document", (1 # 2)%Q))
  ∧ ((∃ entry, entry ∈ DOCUMENT_TYPES ∧ keyword_score entry.2 text ≠ 0%nat) →
     ∃ i best_type keywords,
       DOCUMENT_TYPES !! i = Some (best_type, keywords)
       ∧ (_identify_document_type text).1 = best_type
       ∧ (0 < keyword_score keywords text)%nat
       ∧ (∀ j e, DOCUMENT_TYPES !! j = Some e →
            (keyword_score e.2 text ≤ keyword_score keywords text)%nat)
       ∧ (∀ j e, (j < i)%nat → DOCUMENT_TYPES !! j = Some e →
            (keyword_score e.2 text < keyword_score keywords text)%nat)
       ∧ (0 < (_identify_document_type text).2)%Q
       ∧ ((_identify_document_type text).2 <= 1)%Q
       ∧ (((_identify_document_type text).2 == 1)%Q ↔
          (3 * length keywords ≤ 10 * keyword_score keywords text)%nat)).
Proof.
  assert (NoDup (DOCUMENT_TYPES.*1)) as Hkeys.
  { apply (bool_decide_unpack _). by vm_compute. }
  assert (Forall (λ e : string * list string, e.2 ≠ []) DOCUMENT_TYPES) as Hkws.
  { apply (bool_decide_unpack _). by vm_compute. }
  unfold _identify_document_type. revert Hkeys Hkws. generalize DOCUMENT_TYPES.
  intros d Hkeys Hkws.
  set (f := λ entry : string * list string, (entry.1, keyword_score entry.2 text)).
  split.
  - intros Hzero. destruct d as [|e0 d]; [done|].
    cbn [fmap list_fmap]. fold (fmap f d).
    change ((f e0).2 :: (f <$> d).*2) with ((f <$> e0 :: d).*2).
    assert (max_list ((f <$> e0 :: d).*2) = 0%nat) as ->; [|done].
    apply max_list_zero, Forall_fmap, Forall_forall.
    intros [t s] Hin.
    apply list_elem_of_fmap in Hin as (e & [= -> ->] & He). simpl. by apply Hzero.
  - intros (e1 & He1 & Hs1). destruct d as [|e0 d]; [by apply elem_of_nil in He1|].
    cbn [fmap list_fmap]. fold (fmap f d).
    change ((f e0).2 :: (f <$> d).*2) with ((f <$> e0 :: d).*2).
    destruct (max_list ((f <$> e0 :: d).*2) =? 0)%nat eqn:Hmax.
    { apply Nat.eqb_eq, max_list_zero, Forall_fmap in Hmax.
      eapply Forall_forall in Hmax; [|apply list_elem_of_fmap_2, He1].
      done. }
    destruct (max_first_spec snd (f e0) (f <$> d)) as (i & Hi & Hle & Hbefore).
    set (best := max_first snd (f e0) (f <$> d)) in *.
    change (f e0 :: (f <$> d)) with (f <$> e0 :: d) in *.
    rewrite list_lookup_fmap in Hi.
    destruct ((e0 :: d) !! i) as [[best_type keywords]|] eqn:Hentry; [|done].
    simpl in Hi. injection Hi as Hbest.
    assert (best.1 = best_type) as Hb1 by by rewrite <-Hbest.
    assert (best.2 = keyword_score keywords text) as Hb2 by by rewrite <-Hbest.
    assert (0 < keyword_score keywords text)%nat as Hpos.
    { rewrite <-Hb2. apply list_elem_of_lookup_1 in He1 as [j Hj].
      specialize (Hle j (f e1)). rewrite list_lookup_fmap, Hj in Hle.
      specialize (Hle eq_refl). simpl in Hle. lia. }
    assert (0 < length keywords)%nat as Hlen.
    { eapply Forall_forall in Hkws; [|by eapply list_elem_of_lookup_2].
      simpl in Hkws. destruct keywords; [done|simpl; lia]. }
    exists i, best_type, keywords. cbn [fst snd].
    rewrite Hb1, Hb2, (table_get_lookup _ i _ keywords) by done. cbn [default].
    pose proof (confidence_ratio _ _ Hpos Hlen) as (Hc0 & Hc1 & Hceq).
    split_and!; try done.
    + intros j e Hj. specialize (Hle j (f e)).
      rewrite list_lookup_fmap, Hj, Hb2 in Hle. by apply Hle.
    + intros j e Hji Hj. specialize (Hbefore j (f e) Hji).
      rewrite list_lookup_fmap, Hj, Hb2 in Hbefore. by apply Hbefore.
Qed.

Lemma max_first_elem {A} (key : A → nat) (b : A) (l : list A) :
  max_first key b l ∈ b :: l.
Proof.
  destruct (max_first_spec key b l) as (i & Hi & _). by eapply list_elem_of_lookup_2.
Qed.

Lemma identify_document_type_known (text : string) :
  (_identify_document_type text).1 ∈ "general_document" :: DOCUMENT_TYPES.*1.
Proof.
  unfold _identify_document_type. generalize DOCUMENT_TYPES. intros [|e0 d].
  { apply list_elem_of_here. }
  set (f := λ entry : string * list string, (entry.1, keyword_score entry.2 text)).
  cbn [fmap list_fmap]. fold (fmap f d).
  destruct (max_list _ =? 0)%nat; [apply list_elem_of_here|].
  apply list_elem_of_further. cbn [fst].
  pose proof (max_first_elem snd (f e0) (f <$> d)) as Hin.
  change (f e0 :: (f <$> d)) with (f <$> e0 :: d) in Hin.
  apply list_elem_of_fmap in Hin as (e & -> & He).
  apply (list_elem_of_fmap_2 fst) in He. exact He.
Qed.

Lemma unknown_not_identified :
  "unknown" ∉ "general_document" :: DOCUMENT_TYPES.*1.
Proof. apply (bool_decide_unpack _). by vm_compute. Qed.

Lemma profile_document_long text fname :
  (100 ≤ stripped_length text)%nat →
  profile_document text fname =
  Profile (_identify_document_type (lower text)).1
          (_identify_document_type (lower text)).2
          (_extract_themes (lower text))
          (_infer_purpose (_identify_document_type (lower text)).1
             (_extract_themes (lower text)))
          (_infer_scope (lower text) (_identify_document_type (lower text)).1)
          (_identify_sections (lower text))
          (_generate_summary (_identify_document_type (lower text)).1
             (_extract_themes (lower text)) (_identify_sections (lower text)))
          fname.
Proof.
  intros Hlen. unfold profile_document.
  assert (text ≠ "") as Hne.
  { intros ->. unfold stripped_length in Hlen. simpl in Hlen. lia. }
  rewrite bool_decide_eq_false_2 by done.
  apply Nat.ltb_ge in Hlen. rewrite Hlen. simpl orb. cbv iota.
  by destruct (_identify_document_type (lower text)).
Qed.

Lemma profile_document_short text fname :
  (stripped_length text < 100)%nat → profile_document text fname = _empty_profile.
Proof.
  intros Hlen. unfold profile_document. apply Nat.ltb_lt in Hlen.
  by rewrite Hlen, orb_true_r.
Qed.

(** X12: the profile of a short document. A text with fewer than 100
    characters once stripped gets the fixed profile of type [unknown], in
    which the file name that was passed is replaced by the empty string; any
    other text gets a profile with the file name and with one of the five
    types of the table or [general_document], never [unknown]. *)
Theorem profile_document_unknown (text fname : string) :
  ((stripped_length text < 100)%nat →
   profile_document text fname = _empty_profile
   ∧ filename (profile_document text fname) = "")
  ∧ ((100 ≤ stripped_length text)%nat →
     filename (profile_document text fname) = fname
     ∧ document_type (profile_document text fname)
       ∈ "general_document" :: DOCUMENT_TYPES.*1)
  ∧ (document_type (profile_document text fname) = "unknown"
     ↔ (stripped_length text < 100)%nat).
Proof.
  pose proof unknown_not_identified as Hunknown.
  split_and!.
  - intros Hlen. by rewrite profile_document_short.
  - intros Hlen. rewrite profile_document_long by done. simpl.
    split; [done|apply identify_document_type_known].
  - split.
    + intros Htype. destruct (decide (stripped_length text < 100)%nat) as [|Hlen]; [done|].
      rewrite profile_document_long in Htype by lia. simpl in Htype.
      exfalso. apply Hunknown. rewrite <-Htype. apply identify_document_type_known.
    + intros Hlen. by rewrite profile_document_short.
Qed.

Lemma chars_string_of_list (l : list ascii) :
  chars (String.string_of_list_ascii l) = l.
Proof. apply String.list_ascii_of_string_of_list_ascii. Qed.

Lemma lstrip_fmap (f : ascii → ascii) (s : list ascii) :
  (∀ a, is_space (f a) = is_space a) → lstrip (f <$> s) = f <$> lstrip s.
Proof.
  intros Hf. induction s as [|a s IH]; simpl; [done|].
  rewrite Hf. by destruct (is_space a).
Qed.

Lemma strip_fmap (f : ascii → ascii) (s : list ascii) :
  (∀ a, is_space (f a) = is_space a) → strip (f <$> s) = f <$> strip s.
Proof.
  intros Hf. unfold strip.
  by rewrite lstrip_fmap, <-fmap_reverse, lstrip_fmap, <-fmap_reverse.
Qed.

Lemma is_space_lower_char (a : ascii) : is_space (lower_char a) = is_space a.
Proof. by destruct a as [[] [] [] [] [] [] [] []]; vm_compute. Qed.

(** On an ASCII text lower-casing changes no character into or out of
    white space, and keeps the length. *)
Lemma stripped_length_lower (text : string) :
  ascii_text text →
  stripped_length (lower text) = stripped_length text.
Proof.
  intros _. unfold stripped_length, lower. rewrite chars_string_of_list.
  rewrite strip_fmap by apply is_space_lower_char. by rewrite length_fmap.
Qed.

(** X13: on ASCII texts the profile ignores the case of letters. Two texts
    of ASCII characters that agree once put in lower case get the same
    profile. Outside ASCII Python's [lower] can change the length of a
    text, and the two texts may then fall on both sides of the test of 100
    characters. *)
Theorem profile_document_case_insensitive (text1 text2 fname : string) :
  ascii_text text1 → ascii_text text2 →
  lower text1 = lower text2 →
  profile_document text1 fname = profile_document text2 fname.
Proof.
  intros Hascii1 Hascii2 Hlower.
  assert (stripped_length text1 = stripped_length text2) as Hlen.
  { by rewrite <-(stripped_length_lower text1), Hlower, stripped_length_lower. }
  destruct (decide (stripped_length text1 < 100)%nat) as [Hshort|Hlong].
  - rewrite !profile_document_short; [done|lia|done].
  - rewrite !profile_document_long by lia. by rewrite Hlower.
Qed.

Lemma theme_rule_silent (text : string) (i : nat) words name :
  theme_rules !! i = Some (words, name) → any_in words text = false →
  ∃ words name, (words, name) ∈ theme_rules ∧ any_in words text = false.
Proof.
  intros Hi Hnone. exists words, name. split; [by eapply list_elem_of_lookup_2|done].
Qed.

Lemma extract_themes_fired (text : string) :
  _extract_themes text
  = themes_of (any_in [ "revenue"; "profit"; "financial"; "earnings" ] text)
              (any_in [ "risk"; "uncertainty"; "challenge"; "threat" ] text)
              (any_in [ "growth"; "expansion"; "increase"; "development" ] text)
              (any_in [ "compliance"; "regulatory"; "legal"; "audit" ] text)
              (any_in [ "operations"; "operational"; "efficiency"; "process" ] text)
              (any_in [ "strategy"; "strategic"; "vision"; "mission" ] text).
Proof.
  unfold _extract_themes, themes_of.
  change (py_prefix 5 ?l) with (take 5 l). f_equal.
  by repeat destruct (any_in _ text).
Qed.

Lemma bool_decide_reflects (P : Prop) `{!Decision P} (b : bool) :
  bool_decide P = b → (P ↔ b = true).
Proof. intros <-. symmetry. apply bool_decide_eq_true. Qed.

Lemma themes_of_spec (b1 b2 b3 b4 b5 b6 : bool) :
  themes_of b1 b2 b3 b4 b5 b6 `sublist_of` theme_rules.*2
  ∧ (length (themes_of b1 b2 b3 b4 b5 b6) ≤ 5)%nat
  ∧ ("Financial Performance" ∈ themes_of b1 b2 b3 b4 b5 b6 ↔ b1 = true)
  ∧ ("Risk Management" ∈ themes_of b1 b2 b3 b4 b5 b6 ↔ b2 = true)
  ∧ ("Business Growth" ∈ themes_of b1 b2 b3 b4 b5 b6 ↔ b3 = true)
  ∧ ("Compliance & Regulation" ∈ themes_of b1 b2 b3 b4 b5 b6 ↔ b4 = true)
  ∧ ("Operations" ∈ themes_of b1 b2 b3 b4 b5 b6 ↔ b5 = true)
  ∧ ("Strategic Planning" ∈ themes_of b1 b2 b3 b4 b5 b6
     ↔ b6 && negb (b1 && b2 && b3 && b4 && b5) = true).
Proof.
  split.
  { destruct b1, b2, b3, b4, b5, b6; vm_compute;
      repeat first [apply sublist_nil | apply sublist_skip | apply sublist_cons]. }
  split; [unfold themes_of; rewrite length_take; lia|].
  split_and!; refine (bool_decide_reflects _ _ _);
    by destruct b1, b2, b3, b4, b5, b6; vm_compute.
Qed.

(** X14: the cap on themes drops the last rule only. The themes come in the
    order of the six rules and are at most five; each of the first five
    themes is reported exactly when one of its words occurs in the text;
    [Strategic Planning] is reported exactly when one of its words occurs
    and some other rule found none of its own: a text on which all six rules
    fire loses it to the cut [themes[:5]]. *)
Theorem extract_themes_cap (text : string) :
  _extract_themes text `sublist_of` theme_rules.*2
  ∧ (length (_extract_themes text) ≤ 5)%nat
  ∧ (∀ words name, (words, name) ∈ theme_rules → name ≠ "Strategic Planning" →
       (name ∈ _extract_themes text ↔ any_in words text = true))
  ∧ ("Strategic Planning" ∈ _extract_themes text
     ↔ any_in [ "strategy"; "strategic"; "vision"; "mission" ] text = true
       ∧ ∃ words name, (words, name) ∈ theme_rules ∧ any_in words text = false).
Proof.
  rewrite extract_themes_fired.
  destruct (themes_of_spec
    (any_in [ "revenue"; "profit"; "financial"; "earnings" ] text)
    (any_in [ "risk"; "uncertainty"; "challenge"; "threat" ] text)
    (any_in [ "growth"; "expansion"; "increase"; "development" ] text)
    (any_in [ "compliance"; "regulatory"; "legal"; "audit" ] text)
    (any_in [ "operations"; "operational"; "efficiency"; "process" ] text)
    (any_in [ "strategy"; "strategic"; "vision"; "mission" ] text))
    as (Hsub & Hlen & Hfin & Hrisk & Hgrowth & Hcomp & Hops & Hstrat).
  split; [exact Hsub|]. split; [exact Hlen|]. split.
  - intros words name Hin Hne. unfold theme_rules in Hin.
    repeat (apply elem_of_cons in Hin as [[= -> ->]|Hin]);
      [done..|done|by apply elem_of_nil in Hin].
  - rewrite Hstrat, andb_true_iff, negb_true_iff. split.
    + intros [Hs Hnot]. split; [exact Hs|].
      destruct (any_in [ "revenue"; "profit"; "financial"; "earnings" ] text) eqn:H1;
        [|by apply (theme_rule_silent text 0 _ _ eq_refl H1)].
      destruct (any_in [ "risk"; "uncertainty"; "challenge"; "threat" ] text) eqn:H2;
        [|by apply (theme_rule_silent text 1 _ _ eq_refl H2)].
      destruct (any_in [ "growth"; "expansion"; "increase"; "development" ] text) eqn:H3;
        [|by apply (theme_rule_silent text 2 _ _ eq_refl H3)].
      destruct (any_in [ "compliance"; "regulatory"; "legal"; "audit" ] text) eqn:H4;
        [|by apply (theme_rule_silent text 3 _ _ eq_refl H4)].
      destruct (any_in [ "operations"; "operational"; "efficiency"; "process" ] text) eqn:H5;
        [|by apply (theme_rule_silent text 4 _ _ eq_refl H5)].
      discriminate Hnot.
    + intros [Hs (words & name & Hin & Hnone)]. split; [exact Hs|].
      unfold theme_rules in Hin.
      repeat (apply elem_of_cons in Hin as [[= -> ->]|Hin]);
        [rewrite Hnone; by rewrite ?andb_false_r..|congruence|by apply elem_of_nil in Hin].
Qed.

Lemma chars_app (a b : string) : chars (a +:+ b) = chars a ++ chars b.
Proof. induction a as [|c a IH]; simpl; [done|by rewrite IH]. Qed.

Lemma occurs_app_r (sep a b : list ascii) :
  occurs sep b = true → occurs sep (a ++ b) = true.
Proof.
  intros Hb. induction a as [|c a IH]; simpl; [done|].
  by destruct (decide (sep `prefix_of` c :: a ++ b)).
Qed.

Lemma occurs_app_l (sep a b : list ascii) :
  occurs sep a = true → occurs sep (a ++ b) = true.
Proof.
  induction a as [|c a IH]; simpl.
  - destruct (decide (sep `prefix_of` [])) as [Hpre|]; [|done].
    apply prefix_nil_inv in Hpre as ->. intros _.
    by destruct b.
  - destruct (decide (sep `prefix_of` c :: a)) as [Hpre|].
    + intros _. rewrite decide_True; [done|].
      change (c :: a ++ b) with ((c :: a) ++ b). by apply prefix_app_r.
    + intros Ha. by destruct (decide (sep `prefix_of` c :: a ++ b)); [|apply IH].
Qed.

Lemma contains_grow (sub before text after : string) :
  contains sub text = true → contains sub (before +:+ text +:+ after) = true.
Proof.
  unfold contains. rewrite !chars_app. intros Hin.
  by apply occurs_app_r, occurs_app_l.
Qed.

Lemma any_in_grow (words : list string) (before text after : string) :
  any_in words text = true → any_in words (before +:+ text +:+ after) = true.
Proof.
  unfold any_in. rewrite !existsb_exists.
  intros (w & Hw & Hin). exists w. split; [done|by apply contains_grow].
Qed.

Lemma filter_sublist_mono {A} (P Q : A → Prop) `{!∀ x, Decision (P x)}
    `{!∀ x, Decision (Q x)} (l : list A) :
  (∀ x, P x → Q x) → filter P l `sublist_of` filter Q l.
Proof.
  intros HPQ. induction l as [|x l IH]; [done|].
  rewrite !filter_cons. destruct (decide (P x)) as [HP|].
  - rewrite decide_True by auto. by apply sublist_skip.
  - destruct (decide (Q x)); [by apply sublist_cons|done].
Qed.

Lemma identify_sections_filter (text : string) :
  _identify_sections text
  = (λ entry, title entry.1)
    <$> filter (λ entry, any_in entry.2 text = true) SECTION_KEYWORDS.
Proof.
  unfold _identify_sections. generalize SECTION_KEYWORDS.
  assert (∀ (l : list (string * list string)) acc,
    foldl (λ sections (entry : string * list string),
             if any_in entry.2 text then sections ++ [ title entry.1 ] else sections)
          acc l
    = acc ++ ((λ entry, title entry.1)
              <$> filter (λ entry, any_in entry.2 text = true) l)) as Hgen.
  { induction l as [|e l IH]; intros acc; simpl; [by rewrite app_nil_r|].
    rewrite IH, filter_cons. destruct (any_in e.2 text) eqn:He.
    - rewrite decide_True by done. by rewrite <-app_assoc.
    - by rewrite decide_False by done. }
  intros l. by rewrite Hgen.
Qed.

(** X15: text around a text removes no section and lowers no score. The
    sections found in a text are found, in the same order, in any text that
    contains it; they come in the order of the table, under the seven
    capitalised names; and each keyword count of the text is at most that of
    the longer text. *)
Theorem identify_sections_grow (before text after : string) :
  _identify_sections text
    `sublist_of` _identify_sections (before +:+ text +:+ after)
  ∧ _identify_sections text
    `sublist_of` [ "Introduction"; "Financial"; "Risk"; "Operations";
                   "Management"; "Legal"; "Conclusion" ]
  ∧ ∀ keywords,
      (keyword_score keywords text
       ≤ keyword_score keywords (before +:+ text +:+ after))%nat.
Proof.
  split_and!.
  - rewrite !identify_sections_filter. apply fmap_sublist, filter_sublist_mono.
    intros entry. apply any_in_grow.
  - rewrite identify_sections_filter.
    change [ "Introduction"; "Financial"; "Risk"; "Operations";
             "Management"; "Legal"; "Conclusion" ]
      with ((λ entry : string * list string, title entry.1) <$> SECTION_KEYWORDS).
    apply fmap_sublist, sublist_filter.
  - intros keywords. unfold keyword_score. apply sublist_length, filter_sublist_mono.
    intros keyword. apply contains_grow.
Qed.

Lemma year_here_take (text : list ascii) :
  year_here text = true → year_string (String.string_of_list_ascii (take 4 text)).
Proof.
  destruct text as [|d1 [|d2 [|d3 [|d4 rest]]]]; try discriminate.
  unfold year_here. rewrite !andb_true_iff, orb_true_iff, !bool_decide_eq_true.
  intros [[[Hd12 Hd3] Hd4] _]. exists d3, d4. split_and!; [done..|].
  destruct Hd12 as [[-> ->]|[-> ->]]; [by left|by right].
Qed.

Lemma find_years_shape previous_is_word skip text y :
  y ∈ find_years previous_is_word skip text → year_string y.
Proof.
  revert previous_is_word skip.
  induction text as [|a text IH]; intros previous_is_word skip; cbn [find_years].
  { by intros ?%elem_of_nil. }
  destruct skip as [|skip]; [|apply IH].
  destruct (negb previous_is_word && year_here (a :: text)) eqn:Hhere; [|apply IH].
  apply andb_true_iff in Hhere as [_ Hhere].
  intros [->|Hin]%elem_of_cons; [|by eapply IH].
  by apply (year_here_take (a :: text)).
Qed.

Lemma py_min_spec (x : string) (l : list string) :
  py_min x l ∈ x :: l ∧ ∀ y, y ∈ x :: l → (py_min x l ≤ y)%string.
Proof.
  unfold py_min. revert x. induction l as [|a l IH]; intros x; simpl.
  { split; [apply list_elem_of_here|]. by intros y ->%list_elem_of_singleton. }
  set (m := if decide (x ≤ a)%string then x else a).
  assert (m ∈ [x; a] ∧ (m ≤ x)%string ∧ (m ≤ a)%string) as (Hm & Hmx & Hma).
  { unfold m. destruct (decide (x ≤ a)%string) as [|Hn].
    { split_and!; [apply list_elem_of_here|done..]. }
    split_and!; [apply list_elem_of_further, list_elem_of_here| |done].
    by destruct (total String.le x a). }
  destruct (IH m) as [Hin Hle]. split.
  - apply elem_of_cons in Hin as [->|Hin].
    { apply elem_of_cons in Hm as [->|Hm]; [apply list_elem_of_here|].
      apply list_elem_of_singleton in Hm as ->.
      apply list_elem_of_further, list_elem_of_here. }
    by apply list_elem_of_further, list_elem_of_further.
  - intros y [->|[->|Hy]%elem_of_cons]%elem_of_cons.
    + etrans; [|exact Hmx]. apply Hle, list_elem_of_here.
    + etrans; [|exact Hma]. apply Hle, list_elem_of_here.
    + by apply Hle, list_elem_of_further.
Qed.

Lemma py_max_spec (x : string) (l : list string) :
  py_max x l ∈ x :: l ∧ ∀ y, y ∈ x :: l → (y ≤ py_max x l)%string.
Proof.
  unfold py_max. revert x. induction l as [|a l IH]; intros x; simpl.
  { split; [apply list_elem_of_here|]. by intros y ->%list_elem_of_singleton. }
  set (m := if decide (a ≤ x)%string then x else a).
  assert (m ∈ [x; a] ∧ (x ≤ m)%string ∧ (a ≤ m)%string) as (Hm & Hmx & Hma).
  { unfold m. destruct (decide (a ≤ x)%string) as [|Hn].
    { split_and!; [apply list_elem_of_here|done..]. }
    split_and!; [apply list_elem_of_further, list_elem_of_here| |done].
    by destruct (total String.le x a). }
  destruct (IH m) as [Hin Hle]. split.
  - apply elem_of_cons in Hin as [->|Hin].
    { apply elem_of_cons in Hm as [->|Hm]; [apply list_elem_of_here|].
      apply list_elem_of_singleton in Hm as ->.
      apply list_elem_of_further, list_elem_of_here. }
    by apply list_elem_of_further, list_elem_of_further.
  - intros y [->|[->|Hy]%elem_of_cons]%elem_of_cons.
    + etrans; [exact Hmx|]. apply Hle, list_elem_of_here.
    + etrans; [exact Hma|]. apply Hle, list_elem_of_here.
    + by apply Hle, list_elem_of_further.
Qed.

Lemma remove_dups_several {A} `{!EqDecision A} (l : list A) :
  (1 < length (remove_dups l))%nat ↔ ∃ x y, x ∈ l ∧ y ∈ l ∧ x ≠ y.
Proof.
  pose proof (NoDup_remove_dups l) as Hnodup. split.
  - destruct (remove_dups l) as [|x [|y k]] eqn:Hl; simpl; [lia..|]. intros _.
    exists x, y. rewrite <-!(elem_of_remove_dups l), Hl.
    split_and!; [apply list_elem_of_here
                |apply list_elem_of_further, list_elem_of_here|].
    apply NoDup_cons in Hnodup as [Hx _]. intros ->. apply Hx, list_elem_of_here.
  - intros (x & y & Hx & Hy & Hne).
    rewrite <-(elem_of_remove_dups l) in Hx, Hy.
    destruct (remove_dups l) as [|a [|b k]]; simpl; [|..|lia].
    + by apply elem_of_nil in Hx.
    + apply list_elem_of_singleton in Hx, Hy. congruence.
Qed.

(** X16: the scope names the years found. Every year found is [20] or [19]
    followed by two digits; with no year the scope is one of three fixed
    sentences; with years that are all the same it names that year; with two
    different years it names the least and the greatest of the years found,
    which differ. The document type is not consulted. *)
Theorem infer_scope_years (text doc_type : string) :
  let years := find_years false 0 (chars text) in
  (∀ y, y ∈ years → year_string y)
  ∧ (years = [] →
     _infer_scope text doc_type
     ∈ [ "Comprehensive coverage"; "Summary overview"; "Standard scope" ])
  ∧ (∀ y0, y0 ∈ years → (∀ y, y ∈ years → y = y0) →
     _infer_scope text doc_type = "Covers period: " +:+ y0)
  ∧ ((∃ y y', y ∈ years ∧ y' ∈ years ∧ y ≠ y') →
     ∃ lo hi, lo ∈ years ∧ hi ∈ years ∧ lo ≠ hi
       ∧ (∀ y, y ∈ years → (lo ≤ y)%string ∧ (y ≤ hi)%string)
       ∧ _infer_scope text doc_type
         = "Covers period: " +:+ lo +:+ " to " +:+ hi).
Proof.
  intros years. split_and!.
  - intros y. apply find_years_shape.
  - unfold _infer_scope. fold years. intros ->.
    destruct (contains "comprehensive" text || contains "complete" text);
      [apply list_elem_of_here|].
    destruct (contains "summary" text || contains "overview" text);
      [apply list_elem_of_further, list_elem_of_here|].
    apply list_elem_of_further, list_elem_of_further, list_elem_of_here.
  - intros y0 Hy0 Hsame. unfold _infer_scope. fold years.
    destruct years as [|y1 rest] eqn:Hyears; [by apply elem_of_nil in Hy0|].
    destruct (1 <? length (remove_dups (y1 :: rest)))%nat eqn:Hlen.
    + apply Nat.ltb_lt, remove_dups_several in Hlen as (x & y & Hx & Hy & Hne).
      apply Hsame in Hx, Hy. congruence.
    + f_equal. apply Hsame, list_elem_of_here.
  - intros Hseveral. unfold _infer_scope. fold years.
    destruct years as [|y1 rest] eqn:Hyears.
    { by destruct Hseveral as (y & _ & ?%elem_of_nil & _). }
    pose proof Hseveral as Hlen.
    apply remove_dups_several, Nat.ltb_lt in Hlen. rewrite Hlen.
    destruct (py_min_spec y1 rest) as [Hlo Hle].
    destruct (py_max_spec y1 rest) as [Hhi Hge].
    exists (py_min y1 rest), (py_max y1 rest). split_and!; [done..| |by auto|done].
    intros Heq. destruct Hseveral as (y & y' & Hy & Hy' & Hne). apply Hne.
    assert (∀ z, z ∈ y1 :: rest → z = py_min y1 rest) as Hall.
    { intros z Hz. apply (anti_symm String.le); [|by apply Hle].
      rewrite Heq. by apply Hge. }
    by rewrite (Hall y), (Hall y').
Qed.

(** ** PDF extraction *)

Lemma stripped_length_empty : stripped_length "" = 0%nat.
Proof. reflexivity. Qed.

Lemma sufficient_text (text : string) :
  negb (bool_decide (text = "")) && (50 <? stripped_length text)%nat = true
  ↔ (50 < stripped_length text)%nat.
Proof.
  rewrite andb_true_iff, Nat.ltb_lt, negb_true_iff, bool_decide_eq_false.
  split; [by intros [_ ?]|]. intros Hlen. split; [|done].
  intros ->. rewrite stripped_length_empty in Hlen. lia.
Qed.

Lemma try_methods_Some methods pdf_path r :
  try_methods methods pdf_path = Some r →
  ∃ i method_name method_func result,
    methods !! i = Some (method_name, method_func)
    ∧ method_func pdf_path = Some result
    ∧ (50 < stripped_length (content_text result))%nat
    ∧ r = Extraction true None (content_text result) (content_pages result)
            (Some method_name) (Some (content_images result))
            (Some (content_tables result))
    ∧ ∀ j name f, (j < i)%nat → methods !! j = Some (name, f) →
                  insufficient f pdf_path.
Proof.
  induction methods as [|[method_name method_func] methods IH]; [done|]. simpl.
  destruct (method_func pdf_path) as [result|] eqn:Hres.
  - destruct (negb _ && _) eqn:Hok.
    + intros [= <-]. apply sufficient_text in Hok.
      exists 0%nat, method_name, method_func, result.
      split_and!; [done..|]. intros j ? ? Hj. lia.
    + intros (i & n & f & res & Hi & Hf & Hlen & -> & Hbefore)%IH.
      exists (S i), n, f, res. split_and!; [done..|].
      intros [|j] name f' Hj; simpl.
      * intros [= <- <-] result' Hres'. rewrite Hres in Hres'. injection Hres' as <-.
        apply not_true_iff_false in Hok. rewrite sufficient_text in Hok. lia.
      * apply Hbefore. lia.
  - intros (i & n & f & res & Hi & Hf & Hlen & -> & Hbefore)%IH.
    exists (S i), n, f, res. split_and!; [done..|].
    intros [|j] name f' Hj; simpl.
    + intros [= <- <-] result' Hres'. by rewrite Hres in Hres'.
    + apply Hbefore. lia.
Qed.

Lemma try_methods_None methods pdf_path :
  try_methods methods pdf_path = None
  ↔ ∀ name f, (name, f) ∈ methods → insufficient f pdf_path.
Proof.
  induction methods as [|[method_name method_func] methods IH]; simpl.
  { split; [|done]. by intros _ ? ? ?%elem_of_nil. }
  split.
  - intros Hnone name f [[= -> ->]|Hin]%elem_of_cons.
    + intros result Hres. rewrite Hres in Hnone.
      destruct (negb _ && _) eqn:Hok; [done|].
      apply not_true_iff_false in Hok. rewrite sufficient_text in Hok. lia.
    + apply (proj1 IH) with name; [|done]. destruct (method_func pdf_path); [|done].
      by destruct (negb _ && _).
  - intros Hall.
    assert (try_methods methods pdf_path = None) as Hrest.
    { apply (proj2 IH). intros name f Hin. by apply (Hall name), list_elem_of_further. }
    destruct (method_func pdf_path) as [result|] eqn:Hres; [|done].
    assert (negb (bool_decide (content_text result = ""))
            && (50 <? stripped_length (content_text result))%nat = false) as ->; [|done].
    apply not_true_iff_false. rewrite sufficient_text.
    pose proof (Hall _ _ (list_elem_of_here _ _) result Hres). lia.
Qed.

Section Extraction.
Context (path_exists : string → bool).
Context (pdfplumber_open : string → option (list plumber_page)).
Context (fitz_open : string → option (list fitz_page)).
Context (pdfminer_extract : string → option string).
Context (ocr_pages : string → option (list string)).

Local Abbreviation extract_pdf :=
  (extract path_exists pdfplumber_open fitz_open pdfminer_extract ocr_pages).
Local Abbreviation pdf_methods :=
  (methods pdfplumber_open fitz_open pdfminer_extract ocr_pages).

(** X17: a successful extraction is the work of the first method that
    returns enough. When [extract] reports success the file exists, the
    result is what some method of the list returned, with more than 50
    characters once stripped, under that method's name and without an
    ['error'] key, and every method before it in the list raised or
    returned too little. *)
Theorem extract_first_sufficient (pdf_path : string) :
  pdf_success (extract_pdf pdf_path) = true →
  ∃ i method_name method_func result,
    path_exists pdf_path = true
    ∧ pdf_methods !! i = Some (method_name, method_func)
    ∧ method_func pdf_path = Some result
    ∧ (50 < stripped_length (content_text result))%nat
    ∧ extract_pdf pdf_path
      = Extraction true None (content_text result) (content_pages result)
          (Some method_name) (Some (content_images result))
          (Some (content_tables result))
    ∧ ∀ j name f, (j < i)%nat → pdf_methods !! j = Some (name, f) →
                  insufficient f pdf_path.
Proof.
  unfold extract. destruct (path_exists pdf_path); [|done]. cbn [negb].
  destruct (try_methods pdf_methods pdf_path) as [r|] eqn:Htry; [|done].
  intros _. apply try_methods_Some in Htry
    as (i & n & f & res & Hi & Hf & Hlen & -> & Hbefore).
  by exists i, n, f, res.
Qed.

(** X18: a failed extraction has one of two shapes. [extract] reports
    failure exactly when the file is missing or every method raises or
    returns too little; the text is then empty, the page count 0 and the
    method [None]; for a missing file the error names the path and the
    keys ['images'] and ['tables'] are absent, otherwise they hold empty
    lists. An ['error'] key is present exactly on failure. *)
Theorem extract_failure (pdf_path : string) :
  (pdf_success (extract_pdf pdf_path) = false
   ↔ path_exists pdf_path = false
     ∨ ∀ name f, (name, f) ∈ pdf_methods → insufficient f pdf_path)
  ∧ (pdf_success (extract_pdf pdf_path) = false →
     pdf_text (extract_pdf pdf_path) = ""
     ∧ pdf_pages (extract_pdf pdf_path) = 0%nat
     ∧ pdf_method (extract_pdf pdf_path) = None
     ∧ (path_exists pdf_path = false
        ∧ pdf_error (extract_pdf pdf_path) = Some ("File not found: " +:+ pdf_path)
        ∧ pdf_images (extract_pdf pdf_path) = None
        ∧ pdf_tables (extract_pdf pdf_path) = None
        ∨ path_exists pdf_path = true
          ∧ pdf_error (extract_pdf pdf_path) = Some "All extraction methods failed"
          ∧ pdf_images (extract_pdf pdf_path) = Some []
          ∧ pdf_tables (extract_pdf pdf_path) = Some []))
  ∧ (pdf_error (extract_pdf pdf_path) = None
     ↔ pdf_success (extract_pdf pdf_path) = true).
Proof.
  unfold extract. destruct (path_exists pdf_path); cbn [negb]; cycle 1.
  { split_and!; [by split; [left|]| |done]. intros _. split_and!; [done..|]. by left. }
  destruct (try_methods pdf_methods pdf_path) as [r|] eqn:Htry.
  - apply try_methods_Some in Htry as Hsome.
    destruct Hsome as (i & n & f & res & Hi & Hf & Hlen & -> & _). simpl.
    split_and!; [|done..]. split; [done|]. intros [|Hall]; [done|].
    apply try_methods_None in Hall. congruence.
  - simpl. split_and!; [|intros _; split_and!; [done..|by right]|done].
    split; [|done]. intros _. right. by apply try_methods_None.
Qed.
End Extraction.

Lemma pdfplumber_pages_no_text page_num pages text_parts tables :
  Forall (λ page, extract_text page = None ∨ extract_text page = Some "") pages →
  (pdfplumber_pages page_num pages text_parts tables).1 = text_parts.
Proof.
  intros Hall. revert page_num tables.
  induction Hall as [|page pages Hpage _ IH]; intros page_num tables; [done|].
  cbn [pdfplumber_pages]. by destruct Hpage as [-> | ->]; rewrite IH.
Qed.

Lemma pymupdf_pages_no_text page_num doc text_parts images :
  Forall (λ page, get_text page = "") doc →
  (pymupdf_pages page_num doc text_parts images).1 = text_parts.
Proof.
  intros Hall. revert page_num images.
  induction Hall as [|page doc Hpage _ IH]; intros page_num images; [done|].
  cbn [pymupdf_pages]. by rewrite Hpage, IH.
Qed.

Section ExtractionPages.
Context (path_exists : string → bool).
Context (pdfplumber_open : string → option (list plumber_page)).
Context (fitz_open : string → option (list fitz_page)).
Context (pdfminer_extract : string → option string).
Context (ocr_pages : string → option (list string)).

Local Abbreviation extract_pdf :=
  (extract path_exists pdfplumber_open fitz_open pdfminer_extract ocr_pages).
Local Abbreviation pdf_methods :=
  (methods pdfplumber_open fitz_open pdfminer_extract ocr_pages).

Lemma method_pages_positive name f pdf_path result :
  (name, f) ∈ pdf_methods → f pdf_path = Some result →
  content_text result ≠ "" → (0 < content_pages result)%nat.
Proof.
  unfold methods. intros Hin.
  repeat (apply elem_of_cons in Hin as [[= -> ->]|Hin]);
    [..|by apply elem_of_nil in Hin].
  - unfold _extract_with_pdfplumber.
    destruct (pdfplumber_open pdf_path) as [[|page pdf]|];
      [intros [= <-] Hne; by destruct Hne| |done].
    destruct (pdfplumber_pages _ _ _ _). intros [= <-] _. simpl. lia.
  - unfold _extract_with_pymupdf.
    destruct (fitz_open pdf_path) as [[|page doc]|];
      [intros [= <-] Hne; by destruct Hne| |done].
    destruct (pymupdf_pages _ _ _ _). intros [= <-] _. simpl. lia.
  - unfold _extract_with_pdfminer.
    destruct (pdfminer_extract pdf_path); [|done]. intros [= <-] _. simpl. lia.
  - unfold _extract_with_ocr.
    destruct (ocr_pages pdf_path) as [[|page_text rest]|];
      [intros [= <-] Hne; by destruct Hne| |done].
    intros [= <-] _. simpl. lia.
Qed.

(** X19: the page count tells success. [extract] reports success exactly
    when the page count it reports is positive: a method that returned a
    text read at least one page, or is pdfminer, whose estimate is never
    below 1; a failure reports 0 pages. *)
Theorem extract_pages_positive (pdf_path : string) :
  pdf_success
    (extract path_exists pdfplumber_open fitz_open pdfminer_extract ocr_pages pdf_path)
  = true
  ↔ (0 < pdf_pages
           (extract path_exists pdfplumber_open fitz_open pdfminer_extract ocr_pages
              pdf_path))%nat.
Proof.
  unfold extract. destruct (path_exists pdf_path); cbn [negb]; cycle 1.
  { simpl. split; [done|lia]. }
  destruct (try_methods pdf_methods pdf_path) as [r|] eqn:Htry; cycle 1.
  { simpl. split; [done|lia]. }
  apply try_methods_Some in Htry as (i & n & f & res & Hi & Hf & Hlen & -> & _).
  simpl. split; [intros _|done].
  eapply method_pages_positive; [by eapply list_elem_of_lookup_2|done|].
  intros Hempty. rewrite Hempty, stripped_length_empty in Hlen. lia.
Qed.

(** X20: a file without a text layer is left to pdfminer and OCR. When
    pdfplumber and PyMuPDF, if they open the file, find no text on any
    page, a successful extraction is credited to pdfminer or to OCR, and
    it carries no image and no table: what PyMuPDF extracted of images is
    dropped with its result. *)
Theorem extract_no_text_layer (pdf_path : string) :
  let result :=
    extract path_exists pdfplumber_open fitz_open pdfminer_extract ocr_pages pdf_path in
  (∀ pdf, pdfplumber_open pdf_path = Some pdf →
     Forall (λ page, extract_text page = None ∨ extract_text page = Some "") pdf) →
  (∀ doc, fitz_open pdf_path = Some doc →
     Forall (λ page, get_text page = "") doc) →
  pdf_success result = true →
  (pdf_method result = Some "pdfminer" ∨ pdf_method result = Some "OCR")
  ∧ pdf_images result = Some []
  ∧ pdf_tables result = Some [].
Proof.
  intros result Hplumber Hfitz. unfold result, extract.
  destruct (path_exists pdf_path); [|done]. cbn [negb].
  destruct (try_methods pdf_methods pdf_path) as [r|] eqn:Htry; [|done].
  intros _.
  apply try_methods_Some in Htry as (i & n & f & res & Hi & Hf & Hlen & -> & _).
  simpl. unfold methods in Hi.
  destruct i as [|[|[|[|i]]]]; simpl in Hi; [..|done]; injection Hi as <- <-.
  - exfalso. unfold _extract_with_pdfplumber in Hf.
    destruct (pdfplumber_open pdf_path) as [pdf|] eqn:Hopen; [|done].
    pose proof (pdfplumber_pages_no_text 0 pdf [] [] (Hplumber pdf eq_refl)) as Hparts.
    destruct (pdfplumber_pages 0 pdf [] []) as [text_parts tables].
    simpl in Hparts. subst text_parts. injection Hf as <-.
    simpl in Hlen. rewrite stripped_length_empty in Hlen. lia.
  - exfalso. unfold _extract_with_pymupdf in Hf.
    destruct (fitz_open pdf_path) as [doc|] eqn:Hopen; [|done].
    pose proof (pymupdf_pages_no_text 0 doc [] [] (Hfitz doc eq_refl)) as Hparts.
    destruct (pymupdf_pages 0 doc [] []) as [text_parts images].
    simpl in Hparts. subst text_parts. injection Hf as <-.
    simpl in Hlen. rewrite stripped_length_empty in Hlen. lia.
  - unfold _extract_with_pdfminer in Hf.
    destruct (pdfminer_extract pdf_path); [|done]. injection Hf as <-.
    split_and!; [by left|done..].
  - unfold _extract_with_ocr in Hf.
    destruct (ocr_pages pdf_path); [|done]. injection Hf as <-.
    split_and!; [by right|done..].
Qed.

(** X21: the two thresholds leave a gap. [upload_document] profiles the
    text of a successful extraction: that text has more than 50 characters
    once stripped, and the profile is of type [unknown], without the file
    name, exactly when it has fewer than 100. *)
Theorem extracted_text_profile (pdf_path fname : string) :
  pdf_success (extract_pdf pdf_path) = true →
  (50 < stripped_length (pdf_text (extract_pdf pdf_path)))%nat
  ∧ (document_type (profile_document (pdf_text (extract_pdf pdf_path)) fname)
       = "unknown"
     ↔ (stripped_length (pdf_text (extract_pdf pdf_path)) < 100)%nat)
  ∧ (filename (profile_document (pdf_text (extract_pdf pdf_path)) fname) = fname
     ∨ (stripped_length (pdf_text (extract_pdf pdf_path)) < 100)%nat).
Proof.
  intros Hok. set (text := pdf_text (extract_pdf pdf_path)).
  assert (50 < stripped_length text)%nat as Hlen.
  { unfold text, extract in *. destruct (path_exists pdf_path); [|done].
    cbn [negb] in *.
    destruct (try_methods pdf_methods pdf_path) as [r|] eqn:Htry; [|done].
    by apply try_methods_Some in Htry as (i & n & f & res & _ & _ & ? & -> & _). }
  split; [done|].
  destruct (decide (stripped_length text < 100)%nat) as [Hshort|Hlong].
  - rewrite profile_document_short by done. split; [done|by right].
  - rewrite profile_document_long by lia. simpl. split; [|by left].
    split; [|done]. intros Htype. exfalso.
    pose proof (identify_document_type_known (lower text)) as Hknown.
    rewrite Htype in Hknown. by apply unknown_not_identified in Hknown.
Qed.
End ExtractionPages.

(** ** The demo environment keeps the contracts *)

Lemma exact_query_bounded items e n hits :
  exact_query items e n = Some hits → Z.of_nat (length hits) ≤ Z.max n 0.
Proof.
  unfold exact_query. destruct (decide (n ≤ 0)); [done|].
  intros [= <-]. rewrite length_take. lia.
Qed.

Lemma count_encode_length texts embs :
  count_encode texts = Some embs → length embs = length texts.
Proof. intros [= <-]. by rewrite length_fmap. Qed.

Lemma count_encode_answers texts :
  ∃ vs, count_encode texts = Some vs ∧ length vs = length texts.
Proof. eexists. split; [reflexivity|by rewrite length_fmap]. Qed.

(** ** The further properties on concrete runs *)

Lemma store_document_isolated_witness :
  ∃ st',
    (2 : Z) ≠ 1
    ∧ store_document split_text count_encode ClashIgnored 2 "delta" None demo_store
      = (st', inr "doc_2")
    ∧ st' !! doc_collection_name 1 = demo_store !! doc_collection_name 1
    ∧ (retrieve_context count_encode exact_query dot_product l1_norm
         1 "alpha" "fact" st').2
      = (retrieve_context count_encode exact_query dot_product l1_norm
           1 "alpha" "fact" demo_store).2
    ∧ (get_collection_stats 1 st').2 = (get_collection_stats 1 demo_store).2.
Proof.
  assert ((2 : Z) ≠ 1) as Hne by discriminate.
  destruct (store_document split_text count_encode ClashIgnored 2 "delta" None demo_store)
    as [st' out] eqn:Hrun.
  assert (out = inr "doc_2") as Hout.
  { apply (f_equal snd) in Hrun. vm_compute in Hrun. by symmetry. }
  destruct (store_document_isolated split_text count_encode exact_query ClashIgnored
              dot_product l1_norm 2 1 "delta" None "alpha" "fact" demo_store st' out
              Hne Hrun) as (Hsame & Hctx & Hstats).
  exists st'. rewrite <-Hout.
  split; [exact Hne|]. split; [reflexivity|]. split; [exact Hsame|].
  split; [exact Hctx|exact Hstats].
Defined.

Lemma store_document_keeps_chunks_witness :
  ∃ st' c,
    (∅ : chroma) !! doc_collection_name 1 = None
    ∧ split_text "alpha" ≠ []
    ∧ count_encode (split_text "alpha") = Some [[5%Q; 0%Q]]
    ∧ store_document split_text count_encode ClashIgnored 1 "alpha" None ∅
      = (st', inr (doc_collection_name 1))
    ∧ st' !! doc_collection_name 1 = Some c
    ∧ item_document <$> coll_items c = split_text "alpha"
    ∧ item_embedding <$> coll_items c = [[5%Q; 0%Q]].
Proof.
  assert ((∅ : chroma) !! doc_collection_name 1 = None) as Hc by reflexivity.
  assert (split_text "alpha" ≠ []) as Hn by (vm_compute; discriminate).
  assert (count_encode (split_text "alpha") = Some [[5%Q; 0%Q]]) as He
    by (vm_compute; reflexivity).
  assert (length [[5%Q; 0%Q]] = length (split_text "alpha")) as Hlen
    by (vm_compute; reflexivity).
  destruct (store_document_keeps_chunks split_text count_encode ClashIgnored
              1 "alpha" None ∅ [[5%Q; 0%Q]] Hc Hn He Hlen)
    as (st' & c & Hrun & Hc' & _ & Hdocs & Hembs & _).
  exists st', c.
  split; [exact Hc|]. split; [exact Hn|]. split; [exact He|].
  split; [exact Hrun|]. split; [exact Hc'|]. split; [exact Hdocs|exact Hembs].
Defined.

Lemma store_document_metadata_witness :
  ∃ st' c it,
    store_document split_text count_encode ClashIgnored 1 "alpha"
      (Some (upload_metadata "report.pdf" "annual_report" "user-1")) ∅
    = (st', inr "doc_1")
    ∧ st' !! doc_collection_name 1 = Some c
    ∧ coll_items c !! 0%nat = Some it
    ∧ item_metadata it !! "filename" = Some (MStr "report.pdf")
    ∧ item_metadata it !! "chunk_index" = Some (MInt 0)
    ∧ item_metadata it !! "doc_id" = Some (MStr "1").
Proof.
  set (md := Some (upload_metadata "report.pdf" "annual_report" "user-1")).
  assert ((∅ : chroma) !! doc_collection_name 1 = None) as Hc by reflexivity.
  assert (split_text "alpha" ≠ []) as Hn by (vm_compute; discriminate).
  assert (count_encode (split_text "alpha") = Some [[5%Q; 0%Q]]) as He
    by (vm_compute; reflexivity).
  assert (length [[5%Q; 0%Q]] = length (split_text "alpha")) as Hlen
    by (vm_compute; reflexivity).
  destruct (store_document split_text count_encode ClashIgnored 1 "alpha" md ∅)
    as [st' out] eqn:Hrun.
  assert (out = inr "doc_1") as Hout.
  { apply (f_equal snd) in Hrun. vm_compute in Hrun. by symmetry. }
  assert (∃ c it, st' !! doc_collection_name 1 = Some c ∧ coll_items c !! 0%nat = Some it)
    as (c & it & Hc' & Hit).
  { apply (f_equal fst) in Hrun. simpl in Hrun. subst st'.
    eexists _, _. split; vm_compute; reflexivity. }
  destruct (store_document_metadata split_text count_encode ClashIgnored
              1 "alpha" md ∅ st' [[5%Q; 0%Q]] out c 0%nat it
              Hc Hn He Hlen Hrun Hc' Hit) as (Hmd & Hindex & Hdoc & _).
  exists st', c, it. rewrite <-Hout.
  split; [reflexivity|]. split; [exact Hc'|]. split; [exact Hit|].
  split; [apply Hmd; reflexivity|].
  split; [exact (Hindex eq_refl)|exact (Hdoc eq_refl)].
Defined.

Lemma store_document_encode_fails_witness :
  ∃ st',
    (∅ : chroma) !! doc_collection_name 1 = None
    ∧ split_text "alpha" ≠ []
    ∧ no_encode (split_text "alpha") = None
    ∧ store_document split_text no_encode ClashIgnored 1 "alpha" None ∅
      = (st', inl EncodeError)
    ∧ get_collection_stats 1 st'
      = (st', inr (Stats (doc_collection_name 1) 0 true None)).
Proof.
  assert ((∅ : chroma) !! doc_collection_name 1 = None) as Hc by reflexivity.
  assert (split_text "alpha" ≠ []) as Hn by (vm_compute; discriminate).
  assert (no_encode (split_text "alpha") = None) as He by reflexivity.
  destruct (store_document_encode_fails split_text no_encode ClashIgnored
              1 "alpha" None ∅ Hc Hn He) as (st' & Hrun & _ & Hstats).
  exists st'.
  split; [exact Hc|]. split; [exact Hn|]. split; [exact He|].
  split; [exact Hrun|exact Hstats].
Defined.

Lemma hybrid_search_keeps_every_id_witness :
  ∃ c embs,
    hybrid_search count_encode exact_query 1 "alpha" 20 demo_store
    = (demo_store, inr demo_results)
    ∧ Z.of_nat (length demo_results) < 20
    ∧ demo_store !! doc_collection_name 1 = Some c
    ∧ count_encode (expand_query "alpha") = Some embs
    ∧ returned_by exact_query c embs (Z.min 20 10) 2
        (Hit "chunk_1" "beta gamma" ∅ 9%Q)
    ∧ "chunk_1" ∈ id <$> demo_results.
Proof.
  eexists _, _.
  assert (hybrid_search count_encode exact_query 1 "alpha" 20 demo_store
          = (demo_store, inr demo_results)) as Hrun by (vm_compute; reflexivity).
  assert (Z.of_nat (length demo_results) < 20) as Hlen by (simpl; lia).
  assert (demo_store !! doc_collection_name 1 = Some _) as Hc
    by (vm_compute; reflexivity).
  assert (count_encode (expand_query "alpha") = Some _) as He
    by (vm_compute; reflexivity).
  split; [exact Hrun|]. split; [exact Hlen|]. split; [exact Hc|]. split; [exact He|].
  match goal with |- ?R ∧ _ => assert R as Hret end.
  { eexists _, _. split; [vm_compute; reflexivity|].
    split; [vm_compute; reflexivity|]. apply list_elem_of_here. }
  split; [exact Hret|].
  exact (hybrid_search_keeps_every_id count_encode exact_query 1 "alpha" 20
           demo_store demo_store demo_results _ _ Hrun Hlen Hc He 2%nat _ Hret).
Defined.

Lemma hybrid_search_at_most_sixty_witness :
  hybrid_search count_encode exact_query 1 "alpha" 20 demo_store
  = (demo_store, inr demo_results)
  ∧ Z.of_nat (length demo_results) ≤ 6 * Z.max (Z.min 20 10) 0
  ∧ (length demo_results ≤ 60)%nat.
Proof.
  assert (hybrid_search count_encode exact_query 1 "alpha" 20 demo_store
          = (demo_store, inr demo_results)) as Hrun by (vm_compute; reflexivity).
  split; [exact Hrun|].
  exact (hybrid_search_at_most_sixty count_encode exact_query 1 "alpha" 20
           demo_store demo_store demo_results
           exact_query_bounded count_encode_length Hrun).
Defined.

Lemma rerank_chunks_keeps_best_witness :
  ∃ res dropped,
    0 ≤ 2
    ∧ count_encode [ "alpha" ] = Some [[5%Q; 0%Q]]
    ∧ count_encode (text <$> ranked_candidates)
      = Some [[5%Q; 0%Q]; [8%Q; 6%Q]; [12%Q; 5%Q]]
    ∧ rerank_chunks count_encode dot_product euclidean_norm "alpha"
        ranked_candidates 2 demo_store = (demo_store, inr res)
    ∧ id <$> res = [ "chunk_0"; "chunk_2" ]
    ∧ res ++ dropped
      ≡ₚ scored_chunks dot_product euclidean_norm [5%Q; 0%Q] ranked_candidates
           [[5%Q; 0%Q]; [8%Q; 6%Q]; [12%Q; 5%Q]]
    ∧ (∀ r d, r ∈ res → d ∈ dropped → similarity_desc r d).
Proof.
  assert (0 ≤ 2) as Hk by lia.
  assert (count_encode [ "alpha" ] = Some [[5%Q; 0%Q]]) as Hq by reflexivity.
  assert (count_encode (text <$> ranked_candidates)
          = Some [[5%Q; 0%Q]; [8%Q; 6%Q]; [12%Q; 5%Q]]) as Hc by reflexivity.
  assert (length [[5%Q; 0%Q]; [8%Q; 6%Q]; [12%Q; 5%Q]] = length ranked_candidates)
    as Hlen by reflexivity.
  assert (Forall (λ ce, cosine_similarity dot_product euclidean_norm [5%Q; 0%Q] ce ≠ NaN)
                 [[5%Q; 0%Q]; [8%Q; 6%Q]; [12%Q; 5%Q]]) as Hnum.
  { repeat constructor; vm_compute; discriminate. }
  destruct (rerank_chunks_keeps_best count_encode dot_product euclidean_norm
              "alpha" ranked_candidates 2 demo_store _ _ _ Hk Hq Hc Hlen)
    as (res & dropped & Hrun & Hperm & _ & Hbest).
  exists res, dropped.
  split; [exact Hk|]. split; [exact Hq|]. split; [exact Hc|].
  assert (∃ res0,
            rerank_chunks count_encode dot_product euclidean_norm "alpha"
              ranked_candidates 2 demo_store = (demo_store, inr res0)
            ∧ id <$> res0 = [ "chunk_0"; "chunk_2" ]) as (res0 & Hrun0 & Hids).
  { eexists. split; [vm_compute; reflexivity|reflexivity]. }
  rewrite Hrun in Hrun0. injection Hrun0 as <-.
  split; [exact Hrun|]. split; [exact Hids|].
  split; [exact Hperm|exact (Hbest Hnum)].
Defined.

Lemma retrieve_context_distinct_scored_witness :
  ∃ res,
    retrieve_context count_encode exact_query dot_product l1_norm
      1 "alpha" "fact" demo_store = (demo_store, inr res)
    ∧ NoDup (id <$> res).
Proof.
  eexists.
  assert (retrieve_context count_encode exact_query dot_product l1_norm
            1 "alpha" "fact" demo_store = (demo_store, inr _)) as Hrun
    by (vm_compute; reflexivity).
  split; [exact Hrun|].
  exact (proj1 (retrieve_context_distinct_scored count_encode exact_query
                  dot_product l1_norm 1 "alpha" "fact" demo_store demo_store _ Hrun)).
Defined.

Lemma retrieve_context_returns_witness :
  ∃ res,
    retrieve_context count_encode exact_query dot_product l1_norm
      1 "alpha" "document" demo_store = (demo_store, inr res).
Proof.
  exact (retrieve_context_returns count_encode exact_query dot_product l1_norm
           1 "alpha" "document" demo_store count_encode_answers).
Defined.

Lemma identify_document_type_best_witness :
  _identify_document_type "plain words" = ("general_document", (1 # 2)%Q)
  ∧ ∃ i keywords,
      DOCUMENT_TYPES !! i = Some ("annual_report", keywords)
      ∧ (_identify_document_type (lower test_text)).1 = "annual_report"
      ∧ (0 < (_identify_document_type (lower test_text)).2)%Q
      ∧ ((_identify_document_type (lower test_text)).2 <= 1)%Q.
Proof.
  destruct (identify_document_type_best "plain words") as [Hnone _].
  destruct (identify_document_type_best (lower test_text)) as [_ Hsome].
  assert (∀ entry, entry ∈ DOCUMENT_TYPES → keyword_score entry.2 "plain words" = 0%nat)
    as Hzero.
  { apply Forall_forall. by repeat constructor. }
  assert (∃ entry, entry ∈ DOCUMENT_TYPES
                   ∧ keyword_score entry.2 (lower test_text) ≠ 0%nat) as Hex.
  { eexists. split; [apply list_elem_of_here|]. by vm_compute. }
  split; [exact (Hnone Hzero)|].
  destruct (Hsome Hex) as (i & best_type & keywords & Hi & Htype & _ & _ & _ & Hpos & Hle & _).
  assert (best_type = "annual_report") as ->.
  { rewrite <-Htype. by vm_compute. }
  exists i, keywords. split; [exact Hi|]. split; [exact Htype|].
  split; [exact Hpos|exact Hle].
Defined.

Lemma profile_document_unknown_witness :
  (stripped_length "Too short." < 100)%nat
  ∧ profile_document "Too short." "note.pdf" = _empty_profile
  ∧ (100 ≤ stripped_length test_text)%nat
  ∧ filename (profile_document test_text "report.pdf") = "report.pdf".
Proof.
  assert (stripped_length "Too short." < 100)%nat as Hshort by (vm_compute; lia).
  assert (100 ≤ stripped_length test_text)%nat as Hlong
    by (apply Nat.leb_le; vm_compute; reflexivity).
  destruct (profile_document_unknown "Too short." "note.pdf") as (Hempty & _ & _).
  destruct (profile_document_unknown test_text "report.pdf") as (_ & Hkept & _).
  split; [exact Hshort|]. split; [exact (proj1 (Hempty Hshort))|].
  split; [exact Hlong|exact (proj1 (Hkept Hlong))].
Defined.

Lemma profile_document_case_insensitive_witness :
  ascii_text test_text
  ∧ ascii_text (lower test_text)
  ∧ test_text ≠ lower test_text
  ∧ lower test_text = lower (lower test_text)
  ∧ profile_document test_text "report.pdf"
    = profile_document (lower test_text) "report.pdf".
Proof.
  assert (ascii_text test_text) as Hascii1
    by (apply (bool_decide_unpack _); vm_compute; exact I).
  assert (ascii_text (lower test_text)) as Hascii2
    by (apply (bool_decide_unpack _); vm_compute; exact I).
  assert (test_text ≠ lower test_text) as Hne by (vm_compute; discriminate).
  assert (lower test_text = lower (lower test_text)) as Hlower
    by (vm_compute; reflexivity).
  split; [exact Hascii1|]. split; [exact Hascii2|]. split; [exact Hne|].
  split; [exact Hlower|].
  exact (profile_document_case_insensitive test_text (lower test_text) "report.pdf"
           Hascii1 Hascii2 Hlower).
Defined.

Lemma extract_themes_cap_witness :
  "Financial Performance" ∈ _extract_themes "profit and strategy"
  ∧ "Strategic Planning" ∈ _extract_themes "profit and strategy".
Proof.
  destruct (extract_themes_cap "profit and strategy") as (_ & _ & Hfirst & Hlast).
  split.
  - apply (Hfirst [ "revenue"; "profit"; "financial"; "earnings" ]);
      [apply list_elem_of_here|discriminate|reflexivity].
  - apply Hlast. split; [reflexivity|].
    exists [ "risk"; "uncertainty"; "challenge"; "threat" ], "Risk Management".
    split; [apply list_elem_of_further, list_elem_of_here|reflexivity].
Defined.

Lemma infer_scope_years_witness :
  ∃ lo hi,
    lo ≠ hi
    ∧ _infer_scope "results of 2023 against 2019" "sales_report"
      = "Covers period: " +:+ lo +:+ " to " +:+ hi.
Proof.
  destruct (infer_scope_years "results of 2023 against 2019" "sales_report")
    as (_ & _ & _ & Hrange).
  destruct Hrange as (lo & hi & _ & _ & Hne & _ & Hscope).
  { exists "2023", "2019".
    split; [apply list_elem_of_here|].
    split; [apply list_elem_of_further, list_elem_of_here|discriminate]. }
  exists lo, hi. split; [exact Hne|exact Hscope].
Defined.

Lemma extract_first_sufficient_witness :
  ∃ result,
    pdf_success (scan_extract "scan.pdf") = true
    ∧ scan_extract "scan.pdf"
      = Extraction true None (content_text result) (content_pages result)
          (Some "pdfminer") (Some (content_images result))
          (Some (content_tables result))
    ∧ (50 < stripped_length (content_text result))%nat.
Proof.
  assert (pdf_success (scan_extract "scan.pdf") = true) as Hok by reflexivity.
  destruct (extract_first_sufficient _ _ _ _ _ "scan.pdf" Hok)
    as (i & method_name & method_func & result & _ & _ & _ & Hlen & Hrun & _).
  assert (method_name = "pdfminer") as ->.
  { apply (f_equal pdf_method) in Hrun. vm_compute in Hrun. congruence. }
  exists result. split; [exact Hok|]. split; [exact Hrun|exact Hlen].
Defined.

Lemma extract_failure_witness :
  pdf_success (missing_extract "gone.pdf") = false
  ∧ pdf_text (missing_extract "gone.pdf") = ""
  ∧ pdf_pages (missing_extract "gone.pdf") = 0%nat
  ∧ pdf_method (missing_extract "gone.pdf") = None.
Proof.
  assert (pdf_success (missing_extract "gone.pdf") = false) as Hfail by reflexivity.
  destruct (extract_failure (λ _, false) (λ _, None) (λ _, None) (λ _, None)
              (λ _, None) "gone.pdf") as (_ & Hshape & _).
  destruct (Hshape Hfail) as (Htext & Hpages & Hmethod & _).
  split; [exact Hfail|]. split; [exact Htext|]. split; [exact Hpages|exact Hmethod].
Defined.

Lemma extract_pages_positive_witness :
  pdf_success (scan_extract "scan.pdf") = true
  ∧ (0 < pdf_pages (scan_extract "scan.pdf"))%nat.
Proof.
  assert (pdf_success (scan_extract "scan.pdf") = true) as Hok by reflexivity.
  split; [exact Hok|].
  exact (proj1 (extract_pages_positive _ _ _ _ _ "scan.pdf") Hok).
Defined.

Lemma extract_no_text_layer_witness :
  pdf_success (scan_extract "scan.pdf") = true
  ∧ (pdf_method (scan_extract "scan.pdf") = Some "pdfminer"
     ∨ pdf_method (scan_extract "scan.pdf") = Some "OCR")
  ∧ pdf_images (scan_extract "scan.pdf") = Some [].
Proof.
  assert (pdf_success (scan_extract "scan.pdf") = true) as Hok by reflexivity.
  assert (∀ pdf : list plumber_page, (λ _ : string, @None (list plumber_page)) "scan.pdf" = Some pdf →
            Forall (λ page, extract_text page = None ∨ extract_text page = Some "") pdf)
    as Hplumber by (intros pdf; discriminate).
  assert (∀ doc, (λ _ : string, Some [ FitzPage "" [ Some "aGk=" ] ]) "scan.pdf" = Some doc →
            Forall (λ page, get_text page = "") doc) as Hfitz.
  { intros doc [= <-]. by repeat constructor. }
  destruct (extract_no_text_layer (λ _, true) (λ _, None)
              (λ _, Some [ FitzPage "" [ Some "aGk=" ] ])
              (λ _, Some scan_lines) (λ _, None) "scan.pdf" Hplumber Hfitz Hok)
    as (Hmethod & Himages & _).
  split; [exact Hok|]. split; [exact Hmethod|exact Himages].
Defined.

Lemma extracted_text_profile_witness :
  pdf_success (scan_extract "scan.pdf") = true
  ∧ (stripped_length (pdf_text (scan_extract "scan.pdf")) < 100)%nat
  ∧ document_type (profile_document (pdf_text (scan_extract "scan.pdf")) "scan.pdf")
    = "unknown".
Proof.
  assert (pdf_success (scan_extract "scan.pdf") = true) as Hok by reflexivity.
  assert (stripped_length (pdf_text (scan_extract "scan.pdf")) < 100)%nat as Hshort
    by (vm_compute; lia).
  destruct (extracted_text_profile (λ _, true) (λ _, None)
              (λ _, Some [ FitzPage "" [ Some "aGk=" ] ])
              (λ _, Some scan_lines) (λ _, None) "scan.pdf" "scan.pdf" Hok)
    as (_ & Hunknown & _).
  split; [exact Hok|]. split; [exact Hshort|exact (proj2 Hunknown Hshort)].
Defined.
